(** * Account pool of antigravity-claude-proxy: rate limits and selection

    A shallow embedding of

    - [account-manager/rate-limits.js]: hard and soft limit tracking,
    - [account-manager/selection.js]: round-robin and sticky selection,
    - [account-manager/index.js]: the [AccountManager] facade ([getStatus]
      and the methods that wrap the two modules above),
    - the Cloud Code model API module: [getModelQuotas] and
      [checkAndUpdateSoftLimit],

    followed by the properties of these functions.

    Conventions of the embedding.

    - A JavaScript number that holds a time or a duration in milliseconds is
      a [Z]; a quota fraction is a [Q]; the rotation cursor is an array
      index, a [nat].  [null] is [None].
    - A model id is a [string | null]; the source tests it for truthiness,
      so [truthyStr] distinguishes the empty string from the other strings.
    - An account array that the source mutates in place is a [list Account]
      that every mutator returns again; an object used as a map from model
      id to a limit record is a [gmap string _].
    - [Date.now()] is the parameter [now]; one call of an exported function
      reads one instant.
    - The logger is not modelled; [onSave] is a flag (callback given or not)
      and every function that may invoke it returns the number of
      invocations.
    - The constants of [constants.js] and the date parser are parameters. *)

From Stdlib Require Import ZArith QArith String List Bool Lia.
From stdpp Require Import base option list gmap strings pretty.
Import ListNotations.

Local Open Scope string_scope.
Local Open Scope list_scope.
Local Open Scope Z_scope.

(** ** JavaScript values *)

(** Truthiness of a [string | null]: [null] and the empty string are falsy. *)
Definition truthyStr (s : option string) : bool :=
  match s with
  | Some EmptyString => false
  | Some _ => true
  | None => false
  end.

(** Truthiness of a [number | null]: [null] and [0] are falsy. *)
Definition truthyNum (n : option Z) : bool :=
  match n with
  | Some z => negb (z =? 0)
  | None => false
  end.

(** [ToNumber] as applied by [<], [<=], [>]: [null] becomes [0]. *)
Definition toNum (n : option Z) : Z :=
  match n with
  | Some z => z
  | None => 0
  end.

(** [ToPropertyKey] of a [string | null] used in [obj[modelId]]. *)
Definition propKey (modelId : option string) : string :=
  match modelId with
  | Some s => s
  | None => "null"
  end.

(** ** Data model *)

(** [{ isRateLimited, resetTime }] *)
Record RateLimitState := mkRateLimitState {
  rl_isRateLimited : bool;
  rl_resetTime : option Z
}.

(** [{ isSoftLimited, remainingFraction, resetTime, markedAt }].
    [new Date(s).getTime()] of an unparsable [s] is [NaN], which every
    reader below treats like [null] (it is falsy); it is stored as [None]. *)
Record SoftLimitState := mkSoftLimitState {
  sl_isSoftLimited : bool;
  sl_remainingFraction : option Q;
  sl_resetTime : option Z;
  sl_markedAt : Z
}.

(** Modelled from the spec: the raw credential material (refresh token, API
    key, ...) that the storage and credentials modules, which are not part
    of the sources, keep on an account object; [getAllAccounts] documents
    that the objects carry it.  It is a map from property name to value. *)
Abbreviation Credentials := (gmap string string).

(** An account object.  The fields read or written by the three modules are
    named; [credentials] holds the other own properties of the object. *)
Record Account := mkAccount {
  email : string;
  source : string;
  isInvalid : bool;
  invalidReason : option string;
  invalidAt : option Z;
  modelRateLimits : option (gmap string RateLimitState);
  modelSoftLimits : option (gmap string SoftLimitState);
  lastUsed : option Z;
  credentials : Credentials
}.

(** [settings]: only [cooldownDurationMs] is read. *)
Record Settings := mkSettings {
  cooldownDurationMs : option Z
}.

Definition set_modelRateLimits (v : option (gmap string RateLimitState)) (a : Account) : Account :=
  mkAccount (email a) (source a) (isInvalid a) (invalidReason a) (invalidAt a)
            v (modelSoftLimits a) (lastUsed a) (credentials a).

Definition set_modelSoftLimits (v : option (gmap string SoftLimitState)) (a : Account) : Account :=
  mkAccount (email a) (source a) (isInvalid a) (invalidReason a) (invalidAt a)
            (modelRateLimits a) v (lastUsed a) (credentials a).

Definition set_lastUsed (v : option Z) (a : Account) : Account :=
  mkAccount (email a) (source a) (isInvalid a) (invalidReason a) (invalidAt a)
            (modelRateLimits a) (modelSoftLimits a) v (credentials a).

Definition set_invalid (reason : string) (at_ : Z) (a : Account) : Account :=
  mkAccount (email a) (source a) true (Some reason) (Some at_)
            (modelRateLimits a) (modelSoftLimits a) (lastUsed a) (credentials a).

Definition set_credentials (v : Credentials) (a : Account) : Account :=
  mkAccount (email a) (source a) (isInvalid a) (invalidReason a) (invalidAt a)
            (modelRateLimits a) (modelSoftLimits a) (lastUsed a) v.

(** [accounts.find(a => a.email === email)] as the index of the first match. *)
Fixpoint findIndexByEmail (accounts : list Account) (e : string) : option nat :=
  match accounts with
  | [] => None
  | a :: rest =>
      if String.eqb (email a) e then Some 0%nat
      else match findIndexByEmail rest e with
           | Some i => Some (S i)
           | None => None
           end
  end.

(** In-place update of the object [accounts[i]]. *)
Definition updateAt (i : nat) (f : Account -> Account) (accounts : list Account) : list Account :=
  match accounts !! i with
  | Some a => <[i := f a]> accounts
  | None => accounts
  end.

(** [Object.values(m).some(p)] *)
Definition someValue {V} (p : V -> bool) (m : gmap string V) : bool :=
  existsb p (map snd (map_to_list m)).

(** Number of entries of [m] that satisfy [p]. *)
Definition countValues {V} (p : V -> bool) (m : gmap string V) : nat :=
  length (List.filter p (map snd (map_to_list m))).

(** ** rate-limits.js *)

Section RateLimits.

(** A constant imported from [constants.js], which is not part of the
    sources: it is a parameter of the development.  The default value
    [SOFT_LIMIT_THRESHOLD] of the [threshold] arguments is supplied by the
    callers below. *)
Variable DEFAULT_COOLDOWN_MS : Z.

(** [new Date(s).getTime()], a library function: the instant denoted by an
    ISO-8601 string, [None] when the string does not parse ([NaN]). *)
Variable Date_getTime : string -> option Z.

(** [limit.isRateLimited && limit.resetTime > Date.now()] *)
Definition limitActive (now : Z) (limit : RateLimitState) : bool :=
  rl_isRateLimited limit && (now <? toNum (rl_resetTime limit)).

(** The test shared by [getAvailableAccounts], [getPreferredAccounts] and
    [isAccountUsable]:
    [modelId && acc.modelRateLimits && acc.modelRateLimits[modelId]] and then
    [limit.isRateLimited && limit.resetTime > Date.now()]. *)
Definition hardLimited (acc : Account) (modelId : option string) (now : Z) : bool :=
  if truthyStr modelId then
    match modelRateLimits acc with
    | Some limits =>
        match limits !! propKey modelId with
        | Some limit => limitActive now limit
        | None => false
        end
    | None => false
    end
  else false.

Definition isAllRateLimited (accounts : list Account) (modelId : option string) (now : Z) : bool :=
  if (length accounts =? 0)%nat then true
  else if negb (truthyStr modelId) then false
  else
    forallb (fun acc =>
      if isInvalid acc then true
      else
        let modelLimits := match modelRateLimits acc with Some l => l | None => ∅ end in
        match modelLimits !! propKey modelId with
        | Some limit => limitActive now limit
        | None => false
        end) accounts.

Definition getAvailableAccounts (accounts : list Account) (modelId : option string) (now : Z)
  : list Account :=
  List.filter (fun acc =>
    if isInvalid acc then false
    else if hardLimited acc modelId now then false
    else true) accounts.

Definition getInvalidAccounts (accounts : list Account) : list Account :=
  List.filter (fun acc => isInvalid acc) accounts.

(** The body of the inner loop of [clearExpiredLimits] on one entry. *)
Definition limitExpired (now : Z) (limit : RateLimitState) : bool :=
  rl_isRateLimited limit && (toNum (rl_resetTime limit) <=? now).

Definition expireLimit (now : Z) (limit : RateLimitState) : RateLimitState :=
  if limitExpired now limit then mkRateLimitState false None else limit.

(** The body of the outer loop of [clearExpiredLimits] on one account. *)
Definition expireLimits (now : Z) (account : Account) : Account :=
  match modelRateLimits account with
  | Some limits => set_modelRateLimits (Some (expireLimit now <$> limits)) account
  | None => account
  end.

Definition clearExpiredLimits (accounts : list Account) (now : Z) : list Account * nat :=
  (map (expireLimits now) accounts,
   list_sum (map (fun account =>
          match modelRateLimits account with
          | Some limits => countValues (limitExpired now) limits
          | None => 0%nat
          end) accounts)).

Definition resetAllRateLimits (accounts : list Account) : list Account :=
  map (fun account =>
         match modelRateLimits account with
         | Some limits =>
             set_modelRateLimits (Some ((fun _ => mkRateLimitState false None) <$> limits)) account
         | None => account
         end) accounts.

(** [resetMs || settings.cooldownDurationMs || DEFAULT_COOLDOWN_MS] *)
Definition cooldownMs (resetMs : option Z) (settings : Settings) : Z :=
  if truthyNum resetMs then toNum resetMs
  else if truthyNum (cooldownDurationMs settings) then toNum (cooldownDurationMs settings)
  else DEFAULT_COOLDOWN_MS.

Definition markRateLimited (accounts : list Account) (e : string) (resetMs : option Z)
    (settings : Settings) (modelId : option string) (now : Z) : list Account * bool :=
  match findIndexByEmail accounts e with
  | None => (accounts, false)
  | Some i =>
      let resetTime := now + cooldownMs resetMs settings in
      (updateAt i (fun account =>
         let limits := match modelRateLimits account with Some l => l | None => ∅ end in
         set_modelRateLimits
           (Some (<[propKey modelId := mkRateLimitState true (Some resetTime)]> limits)) account)
         accounts,
       true)
  end.

Definition markInvalid (accounts : list Account) (e : string) (reason : string) (now : Z)
  : list Account * bool :=
  match findIndexByEmail accounts e with
  | None => (accounts, false)
  | Some i => (updateAt i (set_invalid reason now) accounts, true)
  end.

(** The loop of [getMinWaitTimeMs]; [None] is [Infinity]. *)
Definition minWaitStep (modelId : option string) (now : Z) (minWait : option Z) (account : Account)
  : option Z :=
  if truthyStr modelId then
    match modelRateLimits account with
    | Some limits =>
        match limits !! propKey modelId with
        | Some limit =>
            if rl_isRateLimited limit && truthyNum (rl_resetTime limit) then
              let wait := toNum (rl_resetTime limit) - now in
              if (0 <? wait) && match minWait with Some m => wait <? m | None => true end
              then Some wait else minWait
            else minWait
        | None => minWait
        end
    | None => minWait
    end
  else minWait.

Definition getMinWaitTimeMs (accounts : list Account) (modelId : option string) (now : Z) : Z :=
  if negb (isAllRateLimited accounts modelId now) then 0
  else
    match fold_left (minWaitStep modelId now) accounts None with
    | None => DEFAULT_COOLDOWN_MS
    | Some w => w
    end.

(** [limit.resetTime && limit.resetTime <= Date.now()] *)
Definition softExpired (now : Z) (limit : SoftLimitState) : bool :=
  truthyNum (sl_resetTime limit) && (toNum (sl_resetTime limit) <=? now).

(** The guard [!account] is not modelled: every caller passes an account
    object.  The [threshold] argument is bound and never read, as in the
    source. *)
Definition isSoftLimited (account : Account) (modelId : option string) (threshold : Q) (now : Z)
  : bool :=
  if negb (truthyStr modelId) then false
  else
    match modelSoftLimits account with
    | None => false
    | Some limits =>
        match limits !! propKey modelId with
        | None => false
        | Some limit =>
            if negb (sl_isSoftLimited limit) then false
            else if softExpired now limit then false
            else true
        end
    end.

Definition getPreferredAccounts (accounts : list Account) (modelId : option string)
    (threshold : Q) (now : Z) : list Account :=
  List.filter (fun acc =>
    if isInvalid acc then false
    else if hardLimited acc modelId now then false
    else if truthyStr modelId && isSoftLimited acc modelId threshold now then false
    else true) accounts.

Definition isAllSoftLimited (accounts : list Account) (modelId : option string)
    (threshold : Q) (now : Z) : bool :=
  if (length accounts =? 0)%nat then true
  else if negb (truthyStr modelId) then false
  else
    let available := getAvailableAccounts accounts modelId now in
    if (length available =? 0)%nat then false
    else forallb (fun acc => isSoftLimited acc modelId threshold now) available.

(** [let resetMs = null; if (resetTime) resetMs = new Date(resetTime).getTime()] *)
Definition parsedReset (resetTime : option string) : option Z :=
  if truthyStr resetTime then
    match resetTime with
    | Some s => Date_getTime s
    | None => None
    end
  else None.

Definition markSoftLimited (accounts : list Account) (e : string) (modelId : option string)
    (remainingFraction : option Q) (resetTime : option string) (threshold : Q) (now : Z)
  : list Account * bool :=
  match findIndexByEmail accounts e with
  | None => (accounts, false)
  | Some i =>
      (updateAt i (fun account =>
         let limits := match modelSoftLimits account with Some l => l | None => ∅ end in
         set_modelSoftLimits
           (Some (<[propKey modelId :=
                      mkSoftLimitState true remainingFraction (parsedReset resetTime) now]> limits))
           account) accounts,
       true)
  end.

Definition clearSoftLimit (accounts : list Account) (e : string) (modelId : option string)
  : list Account * bool :=
  match findIndexByEmail accounts e with
  | None => (accounts, false)
  | Some i =>
      match accounts !! i with
      | None => (accounts, false)
      | Some account =>
          match modelSoftLimits account with
          | None => (accounts, false)
          | Some limits =>
              match limits !! propKey modelId with
              | None => (accounts, false)
              | Some _ =>
                  (<[i := set_modelSoftLimits (Some (delete (propKey modelId) limits)) account]>
                     accounts, true)
              end
          end
      end
  end.

(** The test of the inner loop of [clearExpiredSoftLimits]. *)
Definition softEntryExpired (now : Z) (limit : SoftLimitState) : bool :=
  sl_isSoftLimited limit && softExpired now limit.

(** The body of the outer loop of [clearExpiredSoftLimits] on one account:
    the expired entries are deleted. *)
Definition expireSoftLimits (now : Z) (account : Account) : Account :=
  match modelSoftLimits account with
  | Some limits =>
      set_modelSoftLimits
        (Some (filter (fun kv => softEntryExpired now kv.2 = false) limits)) account
  | None => account
  end.

Definition clearExpiredSoftLimits (accounts : list Account) (now : Z) : list Account * nat :=
  (map (expireSoftLimits now) accounts,
   list_sum (map (fun account =>
          match modelSoftLimits account with
          | Some limits => countValues (softEntryExpired now) limits
          | None => 0%nat
          end) accounts)).

(** [remainingFraction !== null && remainingFraction < threshold &&
     remainingFraction >= 0] *)
Definition shouldBeSoftLimited (remainingFraction : option Q) (threshold : Q) : bool :=
  match remainingFraction with
  | None => false
  | Some r =>
      (if Qlt_le_dec r threshold then true else false) && Qle_bool 0 r
  end.

Record SoftLimitUpdate := mkSoftLimitUpdate {
  changed : bool;
  upd_isSoftLimited : bool
}.

Definition updateSoftLimitStatus (accounts : list Account) (e : string)
    (modelId : option string) (remainingFraction : option Q) (resetTime : option string)
    (threshold : Q) (now : Z) : list Account * SoftLimitUpdate :=
  match findIndexByEmail accounts e with
  | None => (accounts, mkSoftLimitUpdate false false)
  | Some i =>
      match accounts !! i with
      | None => (accounts, mkSoftLimitUpdate false false)
      | Some account =>
          let wasSoftLimited := isSoftLimited account modelId threshold now in
          let should := shouldBeSoftLimited remainingFraction threshold in
          if should && negb wasSoftLimited then
            ((markSoftLimited accounts e modelId remainingFraction resetTime threshold now).1,
             mkSoftLimitUpdate true true)
          else if negb should && wasSoftLimited then
            ((clearSoftLimit accounts e modelId).1, mkSoftLimitUpdate true false)
          else (accounts, mkSoftLimitUpdate false wasSoftLimited)
      end
  end.

End RateLimits.

(** ** selection.js *)

(** A returned value together with the account array as the call leaves it
    and the number of times [onSave] was invoked. *)
Record Effect (R : Type) := mkEffect {
  ret : R;
  accountsAfter : list Account;
  saves : nat
}.
Arguments mkEffect {R} _ _ _.
Arguments ret {R} _.
Arguments accountsAfter {R} _.
Arguments saves {R} _.

(** [{ account, newIndex }] *)
Record Selection := mkSelection {
  sel_account : option Account;
  sel_newIndex : nat
}.

(** [{ account, newIndex, isSoftLimited }] *)
Record StickyRead := mkStickyRead {
  sr_account : option Account;
  sr_newIndex : nat;
  sr_isSoftLimited : bool
}.

(** [{ shouldWait, waitMs, account }] *)
Record WaitInfo := mkWaitInfo {
  shouldWait : bool;
  wi_waitMs : Z;
  wi_account : option Account
}.

(** [{ account, waitMs, newIndex }] *)
Record StickyPick := mkStickyPick {
  sp_account : option Account;
  sp_waitMs : Z;
  sp_newIndex : nat
}.

Section Selection.

(** Constants imported from [constants.js]; see [DEFAULT_COOLDOWN_MS]. *)
Variable MAX_WAIT_BEFORE_ERROR_MS : Z.
Variable SOFT_LIMIT_THRESHOLD : Q.

(** [accounts[idx]] may be [undefined], hence the [option]. *)
Definition isAccountUsable (account : option Account) (modelId : option string) (now : Z) : bool :=
  match account with
  | None => false
  | Some account =>
      if isInvalid account then false
      else if hardLimited account modelId now then false
      else true
  end.

Definition isAccountPreferred (account : option Account) (modelId : option string) (now : Z)
  : bool :=
  if negb (isAccountUsable account modelId now) then false
  else if negb (truthyStr modelId) then true
  else
    match account with
    | Some a => negb (isSoftLimited a modelId SOFT_LIMIT_THRESHOLD now)
    | None => false
    end.

(** [for (let i = ...; i <= accounts.length; i++)] with [fuel] iterations
    left: the index [(index + i) % accounts.length] of the first account that
    passes [test]. *)
Fixpoint scanLoop (test : option Account -> bool) (accounts : list Account)
    (index i fuel : nat) : option nat :=
  match fuel with
  | O => None
  | S fuel' =>
      let idx := ((index + i) mod length accounts)%nat in
      if test (accounts !! idx) then Some idx
      else scanLoop test accounts index (S i) fuel'
  end.

(** The body run on the account found by a scan: stamp [lastUsed], invoke
    [onSave], return it with its index. *)
Definition useAccount (accounts : list Account) (idx : nat) (onSave : bool) (now : Z)
  : Effect Selection :=
  let accounts := updateAt idx (set_lastUsed (Some now)) accounts in
  mkEffect (mkSelection (accounts !! idx) idx) accounts (if onSave then 1%nat else 0%nat).

(** [if (index >= accounts.length) index = 0] *)
Definition clampIndex (accounts : list Account) (currentIndex : nat) : nat :=
  if (length accounts <=? currentIndex)%nat then 0%nat else currentIndex.

Definition pickNext (accounts : list Account) (currentIndex : nat) (onSave : bool)
    (modelId : option string) (softLimitEnabled : bool) (now : Z) : Effect Selection :=
  let accounts := (clearExpiredLimits accounts now).1 in
  let accounts := (clearExpiredSoftLimits accounts now).1 in
  let available := getAvailableAccounts accounts modelId now in
  if (length available =? 0)%nat then mkEffect (mkSelection None currentIndex) accounts 0%nat
  else
    let index := clampIndex accounts currentIndex in
    let anyUsable :=
      match scanLoop (fun a => isAccountUsable a modelId now) accounts index 1 (length accounts) with
      | Some idx => useAccount accounts idx onSave now
      | None => mkEffect (mkSelection None currentIndex) accounts 0%nat
      end in
    if softLimitEnabled && truthyStr modelId then
      let preferred := getPreferredAccounts accounts modelId SOFT_LIMIT_THRESHOLD now in
      if (0 <? length preferred)%nat then
        match scanLoop (fun a => isAccountPreferred a modelId now) accounts index 1
                       (length accounts) with
        | Some idx => useAccount accounts idx onSave now
        | None => anyUsable
        end
      else anyUsable
    else anyUsable.

Definition getCurrentStickyAccount (accounts : list Account) (currentIndex : nat)
    (onSave : bool) (modelId : option string) (now : Z) : Effect StickyRead :=
  let accounts := (clearExpiredLimits accounts now).1 in
  let accounts := (clearExpiredSoftLimits accounts now).1 in
  if (length accounts =? 0)%nat then mkEffect (mkStickyRead None currentIndex false) accounts 0%nat
  else
    let index := clampIndex accounts currentIndex in
    if isAccountUsable (accounts !! index) modelId now then
      let accounts := updateAt index (set_lastUsed (Some now)) accounts in
      let softLimited :=
        if truthyStr modelId then
          match accounts !! index with
          | Some a => isSoftLimited a modelId SOFT_LIMIT_THRESHOLD now
          | None => false
          end
        else false in
      mkEffect (mkStickyRead (accounts !! index) index softLimited) accounts
               (if onSave then 1%nat else 0%nat)
    else mkEffect (mkStickyRead None index false) accounts 0%nat.

Definition shouldWaitForCurrentAccount (accounts : list Account) (currentIndex : nat)
    (modelId : option string) (now : Z) : WaitInfo :=
  if (length accounts =? 0)%nat then mkWaitInfo false 0 None
  else
    let index := clampIndex accounts currentIndex in
    match accounts !! index with
    | None => mkWaitInfo false 0 None
    | Some account =>
        if isInvalid account then mkWaitInfo false 0 None
        else
          let waitMs :=
            if truthyStr modelId then
              match modelRateLimits account with
              | Some limits =>
                  match limits !! propKey modelId with
                  | Some limit =>
                      if rl_isRateLimited limit && truthyNum (rl_resetTime limit)
                      then toNum (rl_resetTime limit) - now
                      else 0
                  | None => 0
                  end
              | None => 0
              end
            else 0 in
          if (0 <? waitMs) && (waitMs <=? MAX_WAIT_BEFORE_ERROR_MS)
          then mkWaitInfo true waitMs (Some account)
          else mkWaitInfo false 0 (Some account)
    end.

Definition pickStickyAccount (accounts : list Account) (currentIndex : nat) (onSave : bool)
    (modelId : option string) (softLimitEnabled : bool) (now : Z) : Effect StickyPick :=
  let s := getCurrentStickyAccount accounts currentIndex onSave modelId now in
  let stickyIndex := sr_newIndex (ret s) in
  match sr_account (ret s) with
  | Some stickyAccount =>
      (* [stickyAccount] is a reference to [accounts[stickyIndex]] *)
      let keep (accounts : list Account) (n : nat) :=
        mkEffect (mkStickyPick (accounts !! stickyIndex) 0 stickyIndex) accounts n in
      if softLimitEnabled && sr_isSoftLimited (ret s) && truthyStr modelId then
        let preferred :=
          getPreferredAccounts (accountsAfter s) modelId SOFT_LIMIT_THRESHOLD now in
        if (0 <? length preferred)%nat then
          let p := pickNext (accountsAfter s) currentIndex onSave modelId true now in
          match sel_account (ret p) with
          | Some nextAccount =>
              if negb (String.eqb (email nextAccount) (email stickyAccount)) then
                mkEffect (mkStickyPick (Some nextAccount) 0 (sel_newIndex (ret p)))
                         (accountsAfter p) (saves s + saves p)
              else keep (accountsAfter p) (saves s + saves p)%nat
          | None => keep (accountsAfter p) (saves s + saves p)%nat
          end
        else keep (accountsAfter s) (saves s)
      else keep (accountsAfter s) (saves s)
  | None =>
      (* the part of the body from [shouldWaitForCurrentAccount] on *)
      let waitOrRotate (accounts : list Account) (n : nat) :=
        let waitInfo := shouldWaitForCurrentAccount accounts currentIndex modelId now in
        if shouldWait waitInfo then
          mkEffect (mkStickyPick None (wi_waitMs waitInfo) currentIndex) accounts n
        else
          let p := pickNext accounts currentIndex onSave modelId softLimitEnabled now in
          mkEffect (mkStickyPick (sel_account (ret p)) 0 (sel_newIndex (ret p)))
                   (accountsAfter p) (n + saves p) in
      let available := getAvailableAccounts (accountsAfter s) modelId now in
      if (0 <? length available)%nat then
        let p := pickNext (accountsAfter s) currentIndex onSave modelId softLimitEnabled now in
        match sel_account (ret p) with
        | Some nextAccount =>
            mkEffect (mkStickyPick (Some nextAccount) 0 (sel_newIndex (ret p)))
                     (accountsAfter p) (saves s + saves p)
        | None => waitOrRotate (accountsAfter p) (saves s + saves p)%nat
        end
      else waitOrRotate (accountsAfter s) (saves s)
  end.

End Selection.

(** ** index.js: the [AccountManager] facade *)

(** The private fields of the class. *)
Record AccountManager := mkAccountManager {
  m_accounts : list Account;
  m_currentIndex : nat;
  m_configPath : string;
  m_settings : Settings;
  m_initialized : bool;
  m_softLimitEnabled : bool;
  m_softLimitThreshold : Q;
  m_tokenCache : gmap string (string * Z);
  m_projectCache : gmap string string
}.

(** One element of [getStatus().accounts]. *)
Record AccountStatus := mkAccountStatus {
  as_email : string;
  as_source : string;
  as_modelRateLimits : gmap string RateLimitState;
  as_modelSoftLimits : gmap string SoftLimitState;
  as_isInvalid : bool;
  as_invalidReason : option string;
  as_lastUsed : option Z
}.

(** The object returned by [getStatus]. *)
Record Status := mkStatus {
  st_total : nat;
  st_available : nat;
  st_rateLimited : nat;
  st_softLimited : nat;
  st_invalid : nat;
  st_softLimitEnabled : bool;
  st_softLimitThreshold : Q;
  st_summary : string;
  st_accounts : list AccountStatus
}.

(** [limit.isSoftLimited && (!limit.resetTime || limit.resetTime > Date.now())] *)
Definition softActive (now : Z) (limit : SoftLimitState) : bool :=
  sl_isSoftLimited limit &&
  (negb (truthyNum (sl_resetTime limit)) || (now <? toNum (sl_resetTime limit))).

(** The projection applied to each account by [getStatus]. *)
Definition accountStatus (a : Account) : AccountStatus :=
  mkAccountStatus
    (email a)
    (source a)
    (match modelRateLimits a with Some l => l | None => ∅ end)
    (match modelSoftLimits a with Some l => l | None => ∅ end)
    (isInvalid a || false)
    (if truthyStr (invalidReason a) then invalidReason a else None)
    (lastUsed a).

Definition getStatus (m : AccountManager) (now : Z) : Status :=
  let available := getAvailableAccounts (m_accounts m) None now in
  let invalid := getInvalidAccounts (m_accounts m) in
  let rateLimited :=
    List.filter (fun a =>
      match modelRateLimits a with
      | None => false
      | Some limits => someValue (limitActive now) limits
      end) (m_accounts m) in
  let softLimited :=
    List.filter (fun a =>
      match modelSoftLimits a with
      | None => false
      | Some limits => someValue (softActive now) limits
      end) (m_accounts m) in
  mkStatus
    (length (m_accounts m))
    (length available)
    (length rateLimited)
    (length softLimited)
    (length invalid)
    (m_softLimitEnabled m)
    (m_softLimitThreshold m)
    (pretty (length (m_accounts m)) ++ " total, " ++
     pretty (length available) ++ " available, " ++
     pretty (length rateLimited) ++ " rate-limited, " ++
     pretty (length softLimited) ++ " soft-limited, " ++
     pretty (length invalid) ++ " invalid")
    (map accountStatus (m_accounts m)).

(** [getAllAccounts]: the account objects themselves. *)
Definition getAllAccounts (m : AccountManager) : list Account := m_accounts m.

(** The class imports the functions of the two modules under other names;
    inside [Manager] they are referred to as follows. *)
Abbreviation rate_clearExpiredLimits := clearExpiredLimits (only parsing).
Abbreviation rate_markRateLimited := markRateLimited (only parsing).
Abbreviation rate_markInvalid := markInvalid (only parsing).
Abbreviation rate_getMinWaitTimeMs := getMinWaitTimeMs (only parsing).
Abbreviation rate_isSoftLimited := isSoftLimited (only parsing).
Abbreviation rate_markSoftLimited := markSoftLimited (only parsing).
Abbreviation rate_clearSoftLimit := clearSoftLimit (only parsing).
Abbreviation rate_updateSoftLimitStatus := updateSoftLimitStatus (only parsing).
Abbreviation sel_pickNext := pickNext (only parsing).
Abbreviation sel_getCurrentStickyAccount := getCurrentStickyAccount (only parsing).
Abbreviation sel_shouldWaitForCurrentAccount := shouldWaitForCurrentAccount (only parsing).
Abbreviation sel_pickStickyAccount := pickStickyAccount (only parsing).

(** *** The methods of the class

    A method returns its value together with the manager as the call leaves
    it and the number of [saveToDisk] calls it triggered ([saveToDisk] is
    asynchronous and never awaited). *)
Record MgrEffect (R : Type) := mkMgrEffect {
  mret : R;
  managerAfter : AccountManager;
  diskSaves : nat
}.
Arguments mkMgrEffect {R} _ _ _.
Arguments mret {R} _.
Arguments managerAfter {R} _.
Arguments diskSaves {R} _.

Definition set_accounts (v : list Account) (m : AccountManager) : AccountManager :=
  mkAccountManager v (m_currentIndex m) (m_configPath m) (m_settings m) (m_initialized m)
                   (m_softLimitEnabled m) (m_softLimitThreshold m) (m_tokenCache m)
                   (m_projectCache m).

Definition set_selection (v : list Account) (i : nat) (m : AccountManager) : AccountManager :=
  mkAccountManager v i (m_configPath m) (m_settings m) (m_initialized m)
                   (m_softLimitEnabled m) (m_softLimitThreshold m) (m_tokenCache m)
                   (m_projectCache m).

(** [{ account, waitMs }], the value of the method [pickStickyAccount]. *)
Record StickyChoice := mkStickyChoice {
  sc_account : option Account;
  sc_waitMs : Z
}.

Module Manager.

Section Methods.

Variable DEFAULT_COOLDOWN_MS : Z.
Variable MAX_WAIT_BEFORE_ERROR_MS : Z.
Variable SOFT_LIMIT_THRESHOLD : Q.
Variable Date_getTime : string -> option Z.

(** [threshold !== null && threshold >= 0 && threshold <= 1] *)
Definition validThreshold (threshold : option Q) : bool :=
  match threshold with
  | None => false
  | Some t => Qle_bool 0 t && Qle_bool t 1
  end.

Definition setSoftLimitEnabled (m : AccountManager) (enabled : bool) (threshold : option Q)
  : AccountManager :=
  mkAccountManager (m_accounts m) (m_currentIndex m) (m_configPath m) (m_settings m)
                   (m_initialized m) enabled
                   (match threshold with
                    | Some t => if validThreshold threshold then t else m_softLimitThreshold m
                    | None => m_softLimitThreshold m
                    end)
                   (m_tokenCache m) (m_projectCache m).

Definition getAccountCount (m : AccountManager) : nat := length (m_accounts m).

Definition clearExpiredLimits (m : AccountManager) (now : Z) : MgrEffect nat :=
  let r1 := rate_clearExpiredLimits (m_accounts m) now in
  let r2 := clearExpiredSoftLimits r1.1 now in
  let cleared := (r1.2 + r2.2)%nat in
  mkMgrEffect cleared (set_accounts r2.1 m) (if (0 <? cleared)%nat then 1%nat else 0%nat).

Definition pickNext (m : AccountManager) (modelId : option string) (now : Z)
  : MgrEffect (option Account) :=
  let p := sel_pickNext SOFT_LIMIT_THRESHOLD (m_accounts m) (m_currentIndex m) true modelId
                        (m_softLimitEnabled m) now in
  mkMgrEffect (sel_account (ret p))
              (set_selection (accountsAfter p) (sel_newIndex (ret p)) m)
              (saves p).

Definition getCurrentStickyAccount (m : AccountManager) (modelId : option string) (now : Z)
  : MgrEffect (option Account) :=
  let s := sel_getCurrentStickyAccount SOFT_LIMIT_THRESHOLD (m_accounts m) (m_currentIndex m)
                                       true modelId now in
  mkMgrEffect (sr_account (ret s))
              (set_selection (accountsAfter s) (sr_newIndex (ret s)) m)
              (saves s).

Definition shouldWaitForCurrentAccount (m : AccountManager) (modelId : option string) (now : Z)
  : WaitInfo :=
  sel_shouldWaitForCurrentAccount MAX_WAIT_BEFORE_ERROR_MS (m_accounts m) (m_currentIndex m)
                                  modelId now.

Definition pickStickyAccount (m : AccountManager) (modelId : option string) (now : Z)
  : MgrEffect StickyChoice :=
  let p := sel_pickStickyAccount MAX_WAIT_BEFORE_ERROR_MS SOFT_LIMIT_THRESHOLD (m_accounts m)
                                 (m_currentIndex m) true modelId (m_softLimitEnabled m) now in
  mkMgrEffect (mkStickyChoice (sp_account (ret p)) (sp_waitMs (ret p)))
              (set_selection (accountsAfter p) (sp_newIndex (ret p)) m)
              (saves p).

Definition markRateLimited (m : AccountManager) (e : string) (resetMs : option Z)
    (modelId : option string) (now : Z) : MgrEffect unit :=
  let r := rate_markRateLimited DEFAULT_COOLDOWN_MS (m_accounts m) e resetMs (m_settings m)
                                modelId now in
  mkMgrEffect tt (set_accounts r.1 m) 1%nat.

Definition markInvalid (m : AccountManager) (e : string) (reason : string) (now : Z)
  : MgrEffect unit :=
  let r := rate_markInvalid (m_accounts m) e reason now in
  mkMgrEffect tt (set_accounts r.1 m) 1%nat.

Definition getMinWaitTimeMs (m : AccountManager) (modelId : option string) (now : Z) : Z :=
  rate_getMinWaitTimeMs DEFAULT_COOLDOWN_MS (m_accounts m) modelId now.

(** [this.#accounts.find(a => a.email === email)] *)
Definition findAccount (m : AccountManager) (e : string) : option Account :=
  match findIndexByEmail (m_accounts m) e with
  | Some i => m_accounts m !! i
  | None => None
  end.

Definition isSoftLimited (m : AccountManager) (e : string) (modelId : option string) (now : Z)
  : bool :=
  match findAccount m e with
  | None => false
  | Some account => rate_isSoftLimited account modelId (m_softLimitThreshold m) now
  end.

Definition markSoftLimited (m : AccountManager) (e : string) (modelId : option string)
    (remainingFraction : option Q) (resetTime : option string) (now : Z) : MgrEffect unit :=
  let r := rate_markSoftLimited Date_getTime (m_accounts m) e modelId remainingFraction
                                resetTime (m_softLimitThreshold m) now in
  mkMgrEffect tt (set_accounts r.1 m) 1%nat.

Definition clearSoftLimit (m : AccountManager) (e : string) (modelId : option string)
  : MgrEffect unit :=
  let r := rate_clearSoftLimit (m_accounts m) e modelId in
  mkMgrEffect tt (set_accounts r.1 m) 1%nat.

Definition updateSoftLimitStatus (m : AccountManager) (e : string) (modelId : option string)
    (remainingFraction : option Q) (resetTime : option string) (now : Z)
  : MgrEffect SoftLimitUpdate :=
  let r := rate_updateSoftLimitStatus Date_getTime (m_accounts m) e modelId remainingFraction
                                      resetTime (m_softLimitThreshold m) now in
  mkMgrEffect r.2 (set_accounts r.1 m) (if changed r.2 then 1%nat else 0%nat).

End Methods.

End Manager.

(** ** cloudcode: quota probe and soft-limit check

    [fetchAvailableModels] performs the HTTP call; its outcome is the
    argument [data] of [getModelQuotas] and, one level up, the argument
    [probe] of [checkAndUpdateSoftLimit] ([None]: the call threw). *)

(** [modelData.quotaInfo] *)
Record QuotaInfo := mkQuotaInfo {
  qi_remainingFraction : option Q;
  qi_resetTime : option string
}.

(** One value of [data.models]. *)
Record ModelData := mkModelData {
  displayName : option string;
  quotaInfo : option QuotaInfo
}.

(** The response object of [fetchAvailableModels]. *)
Record ModelsResponse := mkModelsResponse {
  models : option (gmap string ModelData)
}.

(** [{ remainingFraction, resetTime }], one value of the result of
    [getModelQuotas]. *)
Record Quota := mkQuota {
  q_remainingFraction : option Q;
  q_resetTime : option string
}.

(** [{ checked, isSoftLimited, remainingFraction }] *)
Record SoftLimitCheck := mkSoftLimitCheck {
  checked : bool;
  chk_isSoftLimited : bool;
  chk_remainingFraction : option Q
}.

Section CloudCode.

(** [getModelFamily] of [constants.js], which is not part of the sources. *)
Variable getModelFamily : string -> string.
Variable Date_getTime : string -> option Z.

Definition isSupportedModel (modelId : string) : bool :=
  let family := getModelFamily modelId in
  String.eqb family "claude" || String.eqb family "gemini".

(** The body of the loop of [getModelQuotas] on one entry: [None] when the
    entry is skipped. *)
Definition quotaOf (kv : string * ModelData) : option Quota :=
  if negb (isSupportedModel kv.1) then None
  else
    match quotaInfo kv.2 with
    | Some info => Some (mkQuota (qi_remainingFraction info) (qi_resetTime info))
    | None => None
    end.

Definition getModelQuotas (data : option ModelsResponse) : gmap string Quota :=
  match data with
  | None => ∅
  | Some d =>
      match models d with
      | None => ∅
      | Some ms => map_imap (fun k md => quotaOf (k, md)) ms
      end
  end.

Definition checkAndUpdateSoftLimit (probe : option (gmap string Quota)) (account : Account)
    (modelId : option string) (accountManager : AccountManager) (now : Z)
  : MgrEffect SoftLimitCheck :=
  if negb (m_softLimitEnabled accountManager) then
    mkMgrEffect (mkSoftLimitCheck false false None) accountManager 0%nat
  else
    match probe with
    | None => mkMgrEffect (mkSoftLimitCheck false false None) accountManager 0%nat
    | Some quotas =>
        match quotas !! propKey modelId with
        | None => mkMgrEffect (mkSoftLimitCheck true false None) accountManager 0%nat
        | Some quota =>
            match q_remainingFraction quota with
            | None => mkMgrEffect (mkSoftLimitCheck true false None) accountManager 0%nat
            | Some fraction =>
                let u := Manager.updateSoftLimitStatus Date_getTime accountManager
                           (email account) modelId (Some fraction) (q_resetTime quota) now in
                mkMgrEffect (mkSoftLimitCheck true (upd_isSoftLimited (mret u)) (Some fraction))
                            (managerAfter u) (diskSaves u)
            end
        end
    end.

End CloudCode.


(** ** Sample pool states *)

(** A fresh account: valid, no limit state, never used. *)
Definition freshAccount (e : string) : Account :=
  mkAccount e "oauth" false None None None None None ∅.

(** An account marked invalid. *)
Definition invalidAccount (e : string) : Account :=
  mkAccount e "oauth" true (Some "Unknown error") (Some 0) None None None ∅.

(** An account whose only limit state is a hard limit for [m] until [t]. *)
Definition hardLimitedAccount (e m : string) (t : Z) : Account :=
  set_modelRateLimits (Some {[ m := mkRateLimitState true (Some t) ]}) (freshAccount e).

(** An account whose only limit state is a soft limit for [m] at 10%. *)
Definition softLimitedAccount (e m : string) (markedAt : Z) : Account :=
  set_modelSoftLimits (Some {[ m := mkSoftLimitState true (Some (1 # 10)) None markedAt ]})
                      (freshAccount e).

(** [accounts[i].modelRateLimits[m]] and [accounts[i].modelSoftLimits[m]],
    [None] when any link is missing. *)
Definition hardLimitOf (accounts : list Account) (i : nat) (m : string) : option RateLimitState :=
  match accounts !! i with
  | Some a => match modelRateLimits a with Some limits => limits !! m | None => None end
  | None => None
  end.

Definition softLimitOf (accounts : list Account) (i : nat) (m : string) : option SoftLimitState :=
  match accounts !! i with
  | Some a => match modelSoftLimits a with Some limits => limits !! m | None => None end
  | None => None
  end.

(** ** Vocabulary of the statements *)

(** An account as [clearExpiredLimits] followed by [clearExpiredSoftLimits]
    leaves it. *)
Definition swept (now : Z) (a : Account) : Account :=
  expireSoftLimits now (expireLimits now a).

(** The test applied by the scan that [pickNext] returns from: preferred
    accounts when soft limits are enabled, a model is given and some account
    is preferred; hard-available accounts otherwise. *)
Definition wanted (SOFT_LIMIT_THRESHOLD : Q) (now : Z) (modelId : option string)
    (accounts : list Account) (softLimitEnabled : bool) (a : option Account) : bool :=
  if softLimitEnabled && truthyStr modelId &&
     (0 <? length (getPreferredAccounts accounts modelId SOFT_LIMIT_THRESHOLD now))%nat
  then isAccountPreferred SOFT_LIMIT_THRESHOLD a modelId now
  else isAccountUsable a modelId now.

(** Two account objects that agree on every property but the credential
    material. *)
Definition sameButCredentials (a b : Account) : Prop :=
  set_credentials (credentials b) a = b.

(** What no limit operation touches: who the account is, its validity and
    its credential material. *)
Definition identityOf (a : Account)
  : string * string * bool * option string * option Z * Credentials :=
  (email a, source a, isInvalid a, invalidReason a, invalidAt a, credentials a).

(** The wait that the loop of [getMinWaitTimeMs] reads off one account:
    [limit.resetTime - now] when the model id is truthy, the account has an
    entry for it with [limit.isRateLimited && limit.resetTime] truthy, and
    the difference is positive. *)
Definition positiveWait (modelId : option string) (now : Z) (account : Account) : option Z :=
  if truthyStr modelId then
    match modelRateLimits account with
    | Some limits =>
        match limits !! propKey modelId with
        | Some limit =>
            if rl_isRateLimited limit && truthyNum (rl_resetTime limit)
               && (0 <? toNum (rl_resetTime limit) - now)
            then Some (toNum (rl_resetTime limit) - now)
            else None
        | None => None
        end
    | None => None
    end
  else None.

(** Two account sequences with the same accounts in the same order, the same
    validity and the same hard limits; they may differ in soft limits and
    [lastUsed]. *)
Definition sameHardState (l1 l2 : list Account) : Prop :=
  map identityOf l1 = map identityOf l2 /\
  map modelRateLimits l1 = map modelRateLimits l2.

(** What every outcome of [pickStickyAccount] satisfies: a returned account
    is valid, not hard-limited, comes with no wait and sits in the array at
    the returned cursor; no returned account means that nothing is
    available, the cursor is the one given and the wait is 0 or a short
    wait; the accounts keep their identity. *)
Definition stickyPost (MAX_WAIT_BEFORE_ERROR_MS : Z) (modelId : option string) (now : Z)
    (accounts : list Account) (currentIndex : nat) (r : Effect StickyPick) : Prop :=
  (forall a, sp_account (ret r) = Some a ->
     isInvalid a = false /\ hardLimited a modelId now = false /\
     sp_waitMs (ret r) = 0 /\
     (sp_newIndex (ret r) < length accounts)%nat /\
     accountsAfter r !! sp_newIndex (ret r) = Some a) /\
  (sp_account (ret r) = None ->
   getAvailableAccounts accounts modelId now = [] /\
   sp_newIndex (ret r) = currentIndex /\
   (sp_waitMs (ret r) = 0 \/ 0 < sp_waitMs (ret r) <= MAX_WAIT_BEFORE_ERROR_MS)) /\
  map identityOf (accountsAfter r) = map identityOf accounts.

(** The reset instant that [markSoftLimited] stores does not make the new
    entry expired on arrival: it is absent, zero, or after [now]. *)
Definition resetNotPast (reset : option Z) (now : Z) : Prop :=
  forall t, reset = Some t -> t <> 0 -> now < t.

(** * Properties *)

(** ** Lists and scans *)

Lemma lookup_map {A B} (f : A -> B) (l : list A) (i : nat) :
  map f l !! i = f <$> (l !! i).
Proof. exact (list_lookup_fmap f l i). Qed.

Lemma filter_nil_forallb {A} (f : A -> bool) (l : list A) :
  List.filter f l = [] <-> forallb (fun x => negb (f x)) l = true.
Proof.
  induction l as [|x l IH]; simpl; [tauto|].
  destruct (f x); simpl; [split; discriminate | exact IH].
Qed.

Lemma forallb_congr {A} (f g : A -> bool) (l : list A) :
  (forall x, f x = g x) -> forallb f l = forallb g l.
Proof. intros H. induction l as [|x l IH]; simpl; [reflexivity|]. by rewrite H, IH. Qed.

Lemma filter_map_ext {A} (f g : A -> bool) (h : A -> A) (l : list A) :
  (forall x, g (h x) = f x) ->
  List.filter g (map h l) = map h (List.filter f l).
Proof.
  intros Hfg. induction l as [|x l IH]; simpl; [reflexivity|].
  rewrite Hfg. destruct (f x); simpl; congruence.
Qed.

Lemma elem_of_filter_bool {A} (f : A -> bool) (l : list A) (x : A) :
  x ∈ List.filter f l <-> x ∈ l /\ f x = true.
Proof. rewrite !list_elem_of_In. apply filter_In. Qed.

Lemma findIndexByEmail_Some accounts e i :
  findIndexByEmail accounts e = Some i ->
  exists a, accounts !! i = Some a /\ email a = e /\
            forall j b, (j < i)%nat -> accounts !! j = Some b -> email b <> e.
Proof.
  revert i. induction accounts as [|a rest IH]; intros i; simpl; [discriminate|].
  destruct (String.eqb (email a) e) eqn:E.
  - intros [= <-]. exists a. apply String.eqb_eq in E. repeat split; auto. intros; lia.
  - destruct (findIndexByEmail rest e) as [k|]; [|discriminate].
    intros [= <-]. destruct (IH k eq_refl) as (b & Hb & He & Hlt).
    exists b. repeat split; auto.
    intros [|j] c Hj; simpl.
    + intros [= <-]. apply String.eqb_neq. exact E.
    + apply Hlt. lia.
Qed.

Lemma findIndexByEmail_None accounts e :
  findIndexByEmail accounts e = None -> forall a, a ∈ accounts -> email a <> e.
Proof.
  induction accounts as [|a rest IH]; simpl; intros H b Hb.
  - by apply not_elem_of_nil in Hb.
  - destruct (String.eqb (email a) e) eqn:E; [discriminate|].
    destruct (findIndexByEmail rest e); [discriminate|].
    apply elem_of_cons in Hb as [-> | Hb]; [by apply String.eqb_neq | by apply IH].
Qed.

Lemma findIndexByEmail_elem accounts e a :
  a ∈ accounts -> email a = e -> exists i, findIndexByEmail accounts e = Some i.
Proof.
  intros Ha He. destruct (findIndexByEmail accounts e) as [i|] eqn:E; [eauto|].
  exfalso. exact (findIndexByEmail_None _ _ E a Ha He).
Qed.

(** ** Scenarios of the specification, by evaluation *)

(** All three accounts soft-limited for [m]: [pickNext] falls through to the
    first hard-available account in scan order. *)
Example pickNext_all_soft_limited :
  let p := pickNext (1 # 5)
             [softLimitedAccount "A" "m" 0; softLimitedAccount "B" "m" 0;
              softLimitedAccount "C" "m" 0] 0 true (Some "m") true 1000 in
  sel_newIndex (ret p) = 1%nat /\ (email <$> sel_account (ret p)) = Some "B" /\
  saves p = 1%nat.
Proof. vm_compute. repeat split. Qed.

(** Accounts limited until [now + 2000] and [now + 5000]. *)
Example getMinWaitTimeMs_two_limited :
  getMinWaitTimeMs 60000
    [hardLimitedAccount "A" "m" 3000; hardLimitedAccount "B" "m" 6000] (Some "m") 1000 = 2000.
Proof. reflexivity. Qed.

(** The soft-limit boundary is strict. *)
Example shouldBeSoftLimited_boundary :
  shouldBeSoftLimited (Some (1 # 5)) (1 # 5) = false /\
  shouldBeSoftLimited (Some (19 # 100)) (1 # 5) = true /\
  shouldBeSoftLimited (Some (-1 # 100)) (1 # 5) = false.
Proof. repeat split. Qed.

(** A second update with the same fraction reports no change. *)
Example updateSoftLimitStatus_twice :
  let u1 := updateSoftLimitStatus (fun _ => None) [freshAccount "A"] "A" (Some "m")
              (Some (1 # 10)) None (1 # 5) 1000 in
  let u2 := updateSoftLimitStatus (fun _ => None) u1.1 "A" (Some "m")
              (Some (1 # 10)) None (1 # 5) 1001 in
  u1.2 = mkSoftLimitUpdate true true /\ u2.2 = mkSoftLimitUpdate false true.
Proof. vm_compute. split; reflexivity. Qed.

(** ** The expiry sweeps preserve what the selectors read *)

Section Sweeps.

Variable now : Z.

Lemma sweeps_map accounts :
  (clearExpiredSoftLimits (clearExpiredLimits accounts now).1 now).1 = map (swept now) accounts.
Proof. simpl. by rewrite map_map. Qed.

Lemma expireLimit_active limit :
  limitActive now (expireLimit now limit) = limitActive now limit.
Proof.
  unfold expireLimit, limitExpired, limitActive.
  destruct limit as [[] rt]; simpl; [|reflexivity].
  destruct (Z.leb_spec (toNum rt) now); simpl; [|reflexivity].
  symmetry. apply Z.ltb_ge. lia.
Qed.

Lemma expireLimit_keeps_active limit :
  limitActive now limit = true -> expireLimit now limit = limit.
Proof.
  unfold expireLimit, limitExpired, limitActive.
  destruct limit as [[] rt]; simpl; [|reflexivity].
  intros H%Z.ltb_lt. destruct (Z.leb_spec (toNum rt) now); [lia | reflexivity].
Qed.

Lemma hardLimited_expireLimits a modelId :
  hardLimited (expireLimits now a) modelId now = hardLimited a modelId now.
Proof.
  unfold hardLimited, expireLimits. destruct (truthyStr modelId); [|reflexivity].
  destruct (modelRateLimits a) as [limits|] eqn:E; simpl; [|by rewrite E].
  rewrite lookup_fmap. destruct (limits !! propKey modelId); simpl; [|reflexivity].
  apply expireLimit_active.
Qed.

Lemma hardLimited_expireSoftLimits a modelId :
  hardLimited (expireSoftLimits now a) modelId now = hardLimited a modelId now.
Proof. unfold hardLimited, expireSoftLimits. by destruct (modelSoftLimits a). Qed.

Lemma isSoftLimited_expireLimits a modelId thr :
  isSoftLimited (expireLimits now a) modelId thr now = isSoftLimited a modelId thr now.
Proof. unfold isSoftLimited, expireLimits. by destruct (modelRateLimits a). Qed.

Lemma isSoftLimited_expireSoftLimits a modelId thr :
  isSoftLimited (expireSoftLimits now a) modelId thr now = isSoftLimited a modelId thr now.
Proof.
  unfold isSoftLimited, expireSoftLimits. destruct (negb (truthyStr modelId)); [reflexivity|].
  destruct (modelSoftLimits a) as [limits|] eqn:E; simpl; [|by rewrite E].
  rewrite map_lookup_filter.
  destruct (limits !! propKey modelId) as [limit|]; simpl; [|reflexivity].
  unfold softEntryExpired.
  destruct (sl_isSoftLimited limit) eqn:F, (softExpired now limit) eqn:X; simpl;
    rewrite ?option_guard_True, ?option_guard_False by (simpl; congruence); simpl;
    rewrite ?F, ?X; reflexivity.
Qed.

Lemma isInvalid_swept a : isInvalid (swept now a) = isInvalid a.
Proof.
  unfold swept, expireSoftLimits, expireLimits.
  by destruct a as [? ? ? ? ? [?|] [?|] ? ?].
Qed.

Lemma email_swept a : email (swept now a) = email a.
Proof.
  unfold swept, expireSoftLimits, expireLimits.
  by destruct a as [? ? ? ? ? [?|] [?|] ? ?].
Qed.

Lemma credentials_swept a : credentials (swept now a) = credentials a.
Proof.
  unfold swept, expireSoftLimits, expireLimits.
  by destruct a as [? ? ? ? ? [?|] [?|] ? ?].
Qed.

Lemma hardLimited_swept a modelId : hardLimited (swept now a) modelId now = hardLimited a modelId now.
Proof. unfold swept. by rewrite hardLimited_expireSoftLimits, hardLimited_expireLimits. Qed.

Lemma isSoftLimited_swept a modelId thr :
  isSoftLimited (swept now a) modelId thr now = isSoftLimited a modelId thr now.
Proof. unfold swept. by rewrite isSoftLimited_expireSoftLimits, isSoftLimited_expireLimits. Qed.

End Sweeps.

Create Rewrite HintDb sweeps.
#[export] Hint Rewrite isInvalid_swept email_swept credentials_swept hardLimited_swept
  isSoftLimited_swept : sweeps.

(** ** Availability queries *)

(** For a truthy model id the callback of [isAllRateLimited] is the negation
    of the callback of [getAvailableAccounts]. *)
Lemma allRateLimited_callback acc modelId now :
  truthyStr modelId = true ->
  (if isInvalid acc then true
   else match (match modelRateLimits acc with Some l => l | None => ∅ end) !! propKey modelId with
        | Some limit => limitActive now limit
        | None => false
        end)
  = negb (if isInvalid acc then false else if hardLimited acc modelId now then false else true).
Proof.
  intros Ht. unfold hardLimited. rewrite Ht.
  destruct (isInvalid acc); [reflexivity|].
  destruct (modelRateLimits acc) as [limits|].
  - destruct (limits !! propKey modelId) as [limit|]; [|reflexivity].
    by destruct (limitActive now limit).
  - by rewrite lookup_empty.
Qed.

(** C1, as amended.  For every non-empty account sequence and every model id
    that is neither null nor the empty string, [isAllRateLimited] returns
    true if and only if [getAvailableAccounts] returns the empty list. *)
Theorem isAllRateLimited_iff_none_available
    (accounts : list Account) (m : string) (now : Z) :
  accounts <> [] ->
  m <> "" ->
  isAllRateLimited accounts (Some m) now = true <->
  getAvailableAccounts accounts (Some m) now = [].
Proof.
  intros Hne Hm.
  assert (Ht : truthyStr (Some m) = true) by (by destruct m).
  unfold isAllRateLimited, getAvailableAccounts.
  destruct accounts as [|a rest]; [done|].
  change (length (a :: rest) =? 0)%nat with false. cbv iota.
  rewrite Ht. cbv [negb]. cbv iota.
  rewrite filter_nil_forallb.
  erewrite forallb_congr; [reflexivity|].
  intros acc. apply allRateLimited_callback, Ht.
Qed.

Lemma isAllRateLimited_iff_none_available_witness :
  isAllRateLimited [hardLimitedAccount "A" "m" 2000; invalidAccount "B"] (Some "m") 1000 = true <->
  getAvailableAccounts [hardLimitedAccount "A" "m" 2000; invalidAccount "B"] (Some "m") 1000 = [].
Proof. apply isAllRateLimited_iff_none_available; discriminate. Defined.

(** C1 as stated fails for the empty string, which is not null but is falsy:
    over one invalid account [getAvailableAccounts] is empty while
    [isAllRateLimited] answers false. *)
Lemma C1_counterexample :
  [invalidAccount "A"] <> [] /\
  ~ (isAllRateLimited [invalidAccount "A"] (Some "") 1000 = true <->
     getAvailableAccounts [invalidAccount "A"] (Some "") 1000 = []).
Proof.
  split; [discriminate|]. intros [_ H].
  assert (E : getAvailableAccounts [invalidAccount "A"] (Some "") 1000 = []) by reflexivity.
  specialize (H E). discriminate H.
Qed.

(** C7, as amended.  With a null model id [isAllRateLimited] returns false
    for every non-empty account sequence; for the empty sequence it returns
    true, the emptiness test coming first. *)
Theorem isAllRateLimited_null_model (now : Z) :
  (forall accounts : list Account,
      accounts <> [] -> isAllRateLimited accounts None now = false) /\
  isAllRateLimited [] None now = true.
Proof.
  split; [|reflexivity].
  intros [|a rest] Hne; [done|reflexivity].
Qed.

Lemma isAllRateLimited_null_model_witness :
  isAllRateLimited [freshAccount "A"] None 1000 = false.
Proof. apply (proj1 (isAllRateLimited_null_model 1000)). discriminate. Defined.

(** C7 as stated fails on the empty sequence. *)
Lemma C7_counterexample : ~ (isAllRateLimited [] None 1000 = false).
Proof. discriminate. Qed.

(** C8, as amended.  For every non-empty account sequence [isAllSoftLimited]
    considers only the hard-available accounts: it returns false when there
    is none, and otherwise returns true if and only if every hard-available
    account is soft-limited for the model.  For the empty sequence it
    returns true. *)
Theorem isAllSoftLimited_spec
    (accounts : list Account) (modelId : option string) (threshold : Q) (now : Z) :
  (accounts = [] -> isAllSoftLimited accounts modelId threshold now = true) /\
  (accounts <> [] ->
   (getAvailableAccounts accounts modelId now = [] ->
    isAllSoftLimited accounts modelId threshold now = false) /\
   (getAvailableAccounts accounts modelId now <> [] ->
    (isAllSoftLimited accounts modelId threshold now = true <->
     forall a, a ∈ getAvailableAccounts accounts modelId now ->
               isSoftLimited a modelId threshold now = true))).
Proof.
  split; [intros ->; reflexivity|].
  intros Hne. unfold isAllSoftLimited.
  destruct accounts as [|a0 rest]; [done|].
  change (length (a0 :: rest) =? 0)%nat with false. cbv iota.
  set (available := getAvailableAccounts (a0 :: rest) modelId now).
  destruct (truthyStr modelId) eqn:Ht; simpl.
  - split.
    + intros ->. reflexivity.
    + intros Hav. destruct available as [|b l] eqn:E; [done|].
      change (length (b :: l) =? 0)%nat with false. cbv iota.
      rewrite forallb_forall. split; intros H x Hx; apply H; by apply list_elem_of_In.
  - split; [reflexivity|].
    intros Hav. split; [discriminate|].
    intros H. destruct available as [|b l]; [done|].
    specialize (H b (list_elem_of_here _ _)).
    unfold isSoftLimited in H. rewrite Ht in H. discriminate H.
Qed.

Lemma isAllSoftLimited_spec_witness :
  isAllSoftLimited [softLimitedAccount "A" "m" 0; invalidAccount "B"] (Some "m") (1 # 5) 1000 = true.
Proof.
  destruct (isAllSoftLimited_spec [softLimitedAccount "A" "m" 0; invalidAccount "B"]
              (Some "m") (1 # 5) 1000) as [_ H].
  destruct H as [_ H]; [discriminate|].
  apply H.
  - discriminate.
  - intros a Ha. apply list_elem_of_In in Ha. simpl in Ha.
    destruct Ha as [<- | []]. reflexivity.
Defined.

(** C8 as stated fails on the empty sequence, where no account is
    hard-available and the answer is true. *)
Lemma C8_counterexample :
  getAvailableAccounts [] (Some "m") 1000 = [] /\
  ~ (isAllSoftLimited [] (Some "m") (1 # 5) 1000 = false).
Proof. split; [reflexivity | discriminate]. Qed.

(** C10.  [isSoftLimited] gives the same answer for any two thresholds: it
    is true exactly when the model id is truthy, the account stores a
    soft-limit entry for it whose flag is set, and the entry's reset time,
    if set, is still in the future. *)
Theorem isSoftLimited_ignores_threshold
    (account : Account) (modelId : option string) (t1 t2 : Q) (now : Z) :
  isSoftLimited account modelId t1 now = isSoftLimited account modelId t2 now /\
  (isSoftLimited account modelId t1 now = true <->
   exists m limits limit,
     modelId = Some m /\ m <> "" /\
     modelSoftLimits account = Some limits /\
     limits !! m = Some limit /\
     sl_isSoftLimited limit = true /\
     (forall t, sl_resetTime limit = Some t -> t <> 0 -> now < t)).
Proof.
  split; [reflexivity|].
  unfold isSoftLimited, softExpired. split.
  - destruct modelId as [[|c m]|]; simpl; try discriminate.
    destruct (modelSoftLimits account) as [limits|]; [|discriminate].
    destruct (limits !! String c m) as [limit|] eqn:L; [|discriminate].
    destruct (sl_isSoftLimited limit) eqn:F; simpl; [|discriminate].
    destruct (sl_resetTime limit) as [t|] eqn:R; simpl.
    + destruct (Z.eqb_spec t 0); simpl.
      * intros _. exists (String c m), limits, limit. repeat split; auto.
        intros t' Ht' Hz. congruence.
      * destruct (Z.leb_spec t now); [discriminate|].
        intros _. exists (String c m), limits, limit. repeat split; auto.
        intros t' Ht' _. assert (t' = t) by congruence. lia.
    + intros _. exists (String c m), limits, limit. repeat split; auto.
      intros t' Ht'. congruence.
  - intros (m & limits & limit & -> & Hm & -> & L & F & Hr).
    destruct m as [|c m]; [done|]. simpl. simpl in L. rewrite L, F. simpl.
    destruct (sl_resetTime limit) as [t|]; simpl; [|reflexivity].
    destruct (Z.eqb_spec t 0) as [|Hz]; simpl; [reflexivity|].
    specialize (Hr t eq_refl Hz). destruct (Z.leb_spec t now); [lia | reflexivity].
Qed.

(** ** Marking a hard limit *)

(** C6, as amended.  When some account has the given email,
    [markRateLimited] returns true and sets the hard-limit entry for
    [modelId] of the first such account to
    [{isRateLimited: true, resetTime: now + d}], whatever that entry was
    before; [d] is [resetMs] when that is neither null nor zero, otherwise
    [settings.cooldownDurationMs] when that is neither null nor zero,
    otherwise the default cooldown constant. *)
Theorem markRateLimited_sets_limit
    (DEFAULT_COOLDOWN_MS : Z) (accounts : list Account) (e : string) (resetMs : option Z)
    (settings : Settings) (modelId : option string) (now : Z) (a : Account) :
  a ∈ accounts ->
  email a = e ->
  exists (i : nat) (account : Account) (d : Z),
    accounts !! i = Some account /\ email account = e /\
    (forall j b, (j < i)%nat -> accounts !! j = Some b -> email b <> e) /\
    ((forall ms, resetMs = Some ms -> ms <> 0 -> d = ms) /\
     (resetMs = None \/ resetMs = Some 0 ->
      forall c, cooldownDurationMs settings = Some c -> c <> 0 -> d = c) /\
     (resetMs = None \/ resetMs = Some 0 ->
      cooldownDurationMs settings = None \/ cooldownDurationMs settings = Some 0 ->
      d = DEFAULT_COOLDOWN_MS)) /\
    markRateLimited DEFAULT_COOLDOWN_MS accounts e resetMs settings modelId now =
      (<[i := set_modelRateLimits
                (Some (<[propKey modelId := mkRateLimitState true (Some (now + d))]>
                         (match modelRateLimits account with Some l => l | None => ∅ end)))
                account]> accounts,
       true) /\
    (forall account' limits',
        (markRateLimited DEFAULT_COOLDOWN_MS accounts e resetMs settings modelId now).1 !! i
          = Some account' ->
        modelRateLimits account' = Some limits' ->
        limits' !! propKey modelId = Some (mkRateLimitState true (Some (now + d)))).
Proof.
  intros Ha He.
  destruct (findIndexByEmail_elem accounts e a Ha He) as [i Hi].
  destruct (findIndexByEmail_Some accounts e i Hi) as (account & Hacc & Hem & Hfirst).
  exists i, account, (cooldownMs DEFAULT_COOLDOWN_MS resetMs settings).
  assert (Hmark :
    markRateLimited DEFAULT_COOLDOWN_MS accounts e resetMs settings modelId now =
      (<[i := set_modelRateLimits
                (Some (<[propKey modelId :=
                           mkRateLimitState true
                             (Some (now + cooldownMs DEFAULT_COOLDOWN_MS resetMs settings))]>
                         (match modelRateLimits account with Some l => l | None => ∅ end)))
                account]> accounts,
       true)).
  { unfold markRateLimited, updateAt. by rewrite Hi, Hacc. }
  split; [exact Hacc|]. split; [exact Hem|]. split; [exact Hfirst|].
  split; [|split; [exact Hmark|]].
  - unfold cooldownMs. repeat split.
    + intros ms -> Hms. simpl. by destruct (Z.eqb_spec ms 0).
    + intros [-> | ->] c -> Hc; simpl; by destruct (Z.eqb_spec c 0).
    + intros [-> | ->] [-> | ->]; reflexivity.
  - rewrite Hmark. simpl. intros account' limits' Hl Hm.
    rewrite list_lookup_insert_eq in Hl by (by eapply lookup_lt_Some).
    injection Hl as <-. simpl in Hm. injection Hm as <-.
    apply lookup_insert_eq.
Qed.

Lemma markRateLimited_sets_limit_witness :
  exists (i : nat) (account : Account) (d : Z),
    [freshAccount "A"; freshAccount "B"] !! i = Some account /\ email account = "B" /\
    (forall j b, (j < i)%nat ->
                 [freshAccount "A"; freshAccount "B"] !! j = Some b -> email b <> "B") /\
    ((forall ms, Some 1000 = Some ms -> ms <> 0 -> d = ms) /\
     (Some 1000 = None \/ Some 1000 = Some 0 ->
      forall c, cooldownDurationMs (mkSettings None) = Some c -> c <> 0 -> d = c) /\
     (Some 1000 = None \/ Some 1000 = Some 0 ->
      cooldownDurationMs (mkSettings None) = None \/
      cooldownDurationMs (mkSettings None) = Some 0 ->
      d = 60000)) /\
    markRateLimited 60000 [freshAccount "A"; freshAccount "B"] "B" (Some 1000)
                    (mkSettings None) (Some "m") 5000 =
      (<[i := set_modelRateLimits
                (Some (<[propKey (Some "m") := mkRateLimitState true (Some (5000 + d))]>
                         (match modelRateLimits account with Some l => l | None => ∅ end)))
                account]> [freshAccount "A"; freshAccount "B"],
       true) /\
    (forall account' limits',
        (markRateLimited 60000 [freshAccount "A"; freshAccount "B"] "B" (Some 1000)
                         (mkSettings None) (Some "m") 5000).1 !! i = Some account' ->
        modelRateLimits account' = Some limits' ->
        limits' !! propKey (Some "m") = Some (mkRateLimitState true (Some (5000 + d)))).
Proof.
  apply (markRateLimited_sets_limit 60000 [freshAccount "A"; freshAccount "B"] "B"
           (Some 1000) (mkSettings None) (Some "m") 5000 (freshAccount "B")).
  - apply list_elem_of_In. simpl. auto.
  - reflexivity.
Defined.

(** C6 as stated fails for [resetMs = 0]: the operator is [||], so a zero
    reset duration gives way to the configured cooldown and the reset time
    is not [now + 0]. *)
Lemma C6_counterexample :
  let r := markRateLimited 60000 [freshAccount "A"] "A" (Some 0)
                           (mkSettings (Some 30000)) (Some "m") 1000 in
  r.2 = true /\
  hardLimitOf r.1 0 "m" = Some (mkRateLimitState true (Some 31000)) /\
  ~ (hardLimitOf r.1 0 "m" = Some (mkRateLimitState true (Some (1000 + 0)))).
Proof.
  assert (E : hardLimitOf (markRateLimited 60000 [freshAccount "A"] "A" (Some 0)
                             (mkSettings (Some 30000)) (Some "m") 1000).1 0 "m"
              = Some (mkRateLimitState true (Some 31000))) by (vm_compute; reflexivity).
  cbv zeta. split; [reflexivity|]. split; [exact E|].
  rewrite E. discriminate.
Qed.

(** ** Updating the soft-limit status *)

(** C5, as amended.  With a null [remainingFraction], [updateSoftLimitStatus]
    never records a soft limit.  It changes nothing and returns
    [changed = false] when no account has the email or when the first account
    with the email is not soft-limited for the model.  When that account is
    soft-limited for the model, its entry for the model is deleted and the
    result is [{changed: true, isSoftLimited: false}]. *)
Theorem updateSoftLimitStatus_null_fraction
    (Date_getTime : string -> option Z)
    (accounts : list Account) (e : string) (modelId : option string)
    (resetTime : option string) (threshold : Q) (now : Z) :
  (findIndexByEmail accounts e = None ->
   updateSoftLimitStatus Date_getTime accounts e modelId None resetTime threshold now
     = (accounts, mkSoftLimitUpdate false false)) /\
  (forall i account,
      findIndexByEmail accounts e = Some i ->
      accounts !! i = Some account ->
      (isSoftLimited account modelId threshold now = false ->
       updateSoftLimitStatus Date_getTime accounts e modelId None resetTime threshold now
         = (accounts, mkSoftLimitUpdate false false)) /\
      (isSoftLimited account modelId threshold now = true ->
       exists limits,
         modelSoftLimits account = Some limits /\
         updateSoftLimitStatus Date_getTime accounts e modelId None resetTime threshold now
           = (<[i := set_modelSoftLimits (Some (delete (propKey modelId) limits)) account]>
                accounts,
              mkSoftLimitUpdate true false))).
Proof.
  split.
  - intros H. unfold updateSoftLimitStatus. by rewrite H.
  - intros i account Hi Hacc. unfold updateSoftLimitStatus. rewrite Hi, Hacc. simpl.
    split; intros Hs; rewrite Hs; simpl; [reflexivity|].
    unfold isSoftLimited in Hs.
    destruct (negb (truthyStr modelId)); [discriminate|].
    destruct (modelSoftLimits account) as [limits|] eqn:Hl; [|discriminate].
    destruct (limits !! propKey modelId) as [limit|] eqn:Hk; [|discriminate].
    exists limits. split; [reflexivity|].
    unfold clearSoftLimit. by rewrite Hi, Hacc, Hl, Hk.
Qed.

Lemma updateSoftLimitStatus_null_fraction_witness :
  updateSoftLimitStatus (fun _ => None) [freshAccount "A"] "B" (Some "m") None None (1 # 5) 1000
    = ([freshAccount "A"], mkSoftLimitUpdate false false).
Proof.
  apply (proj1 (updateSoftLimitStatus_null_fraction (fun _ => None) [freshAccount "A"] "B"
                  (Some "m") None (1 # 5) 1000)).
  reflexivity.
Defined.

(** C5 as stated fails on an account that is soft-limited for the model: a
    null fraction makes [shouldBeSoftLimited] false, so the entry is cleared
    and [changed] is true. *)
Lemma C5_counterexample :
  let accounts := [softLimitedAccount "A" "m" 0] in
  let r := updateSoftLimitStatus (fun _ => None) accounts "A" (Some "m") None None (1 # 5) 1000 in
  changed r.2 = true /\
  softLimitOf r.1 0 "m" = None /\
  softLimitOf accounts 0 "m" = Some (mkSoftLimitState true (Some (1 # 10)) None 0) /\
  ~ (changed r.2 = false /\ r.1 = accounts).
Proof.
  cbv zeta. split; [reflexivity|]. split; [vm_compute; reflexivity|].
  split; [vm_compute; reflexivity|].
  intros [H _]. discriminate H.
Qed.

(** ** The status snapshot *)

Lemma Forall2_filter_length {A} (R : A -> A -> Prop) (f : A -> bool) (l1 l2 : list A) :
  (forall a b, R a b -> f a = f b) ->
  Forall2 R l1 l2 ->
  length (List.filter f l1) = length (List.filter f l2).
Proof.
  intros Hf H. induction H as [|a b l1 l2 Hab _ IH]; simpl; [reflexivity|].
  rewrite (Hf a b Hab). destruct (f b); simpl; congruence.
Qed.

Lemma Forall2_map_eq {A B} (R : A -> A -> Prop) (h : A -> B) (l1 l2 : list A) :
  (forall a b, R a b -> h a = h b) ->
  Forall2 R l1 l2 ->
  map h l1 = map h l2.
Proof.
  intros Hh H. induction H as [|a b l1 l2 Hab _ IH]; simpl; [reflexivity|].
  by rewrite (Hh a b Hab), IH.
Qed.

(** C9.  The per-account records of [getStatus] are built from [email],
    [source], [modelRateLimits], [modelSoftLimits], [isInvalid],
    [invalidReason] and [lastUsed] alone: replacing the credential material
    of an account leaves its record unchanged, and two managers whose
    accounts differ only in credential material (and which may differ in
    token cache, project cache, settings, cursor and configuration path)
    produce the same snapshot. *)
Theorem getStatus_hides_credentials (m1 m2 : AccountManager) (now : Z) :
  Forall2 sameButCredentials (m_accounts m1) (m_accounts m2) ->
  m_softLimitEnabled m1 = m_softLimitEnabled m2 ->
  m_softLimitThreshold m1 = m_softLimitThreshold m2 ->
  getStatus m1 now = getStatus m2 now /\
  (forall a c, accountStatus (set_credentials c a) = accountStatus a) /\
  st_accounts (getStatus m1 now) = map accountStatus (m_accounts m1).
Proof.
  intros Hacc Hen Hthr.
  split; [|split; [reflexivity | reflexivity]].
  unfold getStatus, getAvailableAccounts, getInvalidAccounts.
  rewrite Hen, Hthr.
  rewrite (Forall2_length _ _ _ Hacc).
  rewrite (Forall2_map_eq sameButCredentials accountStatus _ _
             ltac:(by intros a b <-) Hacc).
  rewrite !(fun f Hf => Forall2_filter_length sameButCredentials f _ _ Hf Hacc);
    first reflexivity; by intros a b <-.
Qed.

Lemma getStatus_hides_credentials_witness :
  getStatus (mkAccountManager
               [set_credentials {[ "refreshToken" := "secret-1" ]} (freshAccount "A")]
               0 "accounts.json" (mkSettings None) true true (1 # 5)
               {[ "A" := ("token-1", 10) ]} ∅) 1000
  = getStatus (mkAccountManager
               [set_credentials {[ "apiKey" := "secret-2" ]} (freshAccount "A")]
               0 "accounts.json" (mkSettings None) true true (1 # 5) ∅ ∅) 1000.
Proof.
  apply getStatus_hides_credentials.
  - repeat constructor.
  - reflexivity.
  - reflexivity.
Defined.

(** ** Forward scans *)

Section Scans.

Local Open Scope nat_scope.

Variable test : option Account -> bool.
Variable accounts : list Account.
Variable index : nat.

Lemma scanLoop_Some i fuel idx :
  scanLoop test accounts index i fuel = Some idx ->
  exists k, i <= k < i + fuel /\ idx = (index + k) mod length accounts /\
            test (accounts !! idx) = true /\
            forall j, i <= j < k -> test (accounts !! ((index + j) mod length accounts)) = false.
Proof.
  revert i. induction fuel as [|fuel IH]; intros i; simpl; [discriminate|].
  destruct (test (accounts !! ((index + i) mod length accounts))) eqn:E.
  - intros [= <-]. exists i. repeat split; [lia | lia | exact E | intros; lia].
  - intros H. destruct (IH _ H) as (k & Hk & -> & Ht & Hj).
    exists k. repeat split; [lia | lia | exact Ht |].
    intros j Hjr. destruct (decide (j = i)) as [-> | Hne]; [exact E | apply Hj; lia].
Qed.

Lemma scanLoop_None i fuel :
  scanLoop test accounts index i fuel = None ->
  forall j, i <= j < i + fuel -> test (accounts !! ((index + j) mod length accounts)) = false.
Proof.
  revert i. induction fuel as [|fuel IH]; intros i; simpl; [intros; lia|].
  destruct (test (accounts !! ((index + i) mod length accounts))) eqn:E; [discriminate|].
  intros H j Hj. destruct (decide (j = i)) as [-> | Hne]; [exact E | apply (IH _ H); lia].
Qed.

Lemma scan_reaches (n x : nat) :
  x < n -> exists j, 1 <= j <= n /\ (index + j) mod n = x.
Proof.
  intros Hx. assert (Hr : index mod n < n) by (apply Nat.mod_upper_bound; lia).
  destruct (le_lt_dec x (index mod n)) as [Hle | Hlt].
  - exists (x + n - index mod n). split; [lia|].
    rewrite <- Nat.Div0.add_mod_idemp_l.
    replace (index mod n + (x + n - index mod n)) with (x + 1 * n) by lia.
    rewrite Nat.Div0.mod_add. apply Nat.mod_small; lia.
  - exists (x - index mod n). split; [lia|].
    rewrite <- Nat.Div0.add_mod_idemp_l.
    replace (index mod n + (x - index mod n)) with x by lia.
    apply Nat.mod_small; lia.
Qed.

(** One full cycle finds an account that passes the test when there is one. *)
Lemma scanLoop_complete a :
  a ∈ accounts -> test (Some a) = true ->
  exists idx, scanLoop test accounts index 1 (length accounts) = Some idx.
Proof.
  intros Ha Ht. apply list_elem_of_lookup in Ha as [x Hx].
  destruct (scanLoop test accounts index 1 (length accounts)) as [idx|] eqn:E; [eauto|].
  exfalso. pose proof (lookup_lt_Some _ _ _ Hx) as Hlt.
  destruct (scan_reaches (length accounts) x Hlt) as (j & Hj & Hmod).
  pose proof (scanLoop_None _ _ E j ltac:(lia)) as Hf.
  rewrite Hmod, Hx in Hf. congruence.
Qed.

End Scans.

Lemma scanLoop_map (f : Account -> Account) (test test' : option Account -> bool)
    (accounts : list Account) (index i fuel : nat) :
  (forall o, test (f <$> o) = test' o) ->
  scanLoop test (map f accounts) index i fuel = scanLoop test' accounts index i fuel.
Proof.
  intros H. revert i. induction fuel as [|fuel IH]; intros i; simpl; [reflexivity|].
  rewrite length_map, lookup_map, H, IH. reflexivity.
Qed.

(** ** Round-robin selection *)

Section PickNext.

Variable SOFT_LIMIT_THRESHOLD : Q.
Variable now : Z.
Variable modelId : option string.

Lemma isAccountUsable_swept o :
  isAccountUsable (swept now <$> o) modelId now = isAccountUsable o modelId now.
Proof.
  destruct o as [a|]; simpl; [|reflexivity].
  by autorewrite with sweeps.
Qed.

Lemma isAccountPreferred_swept o :
  isAccountPreferred SOFT_LIMIT_THRESHOLD (swept now <$> o) modelId now
  = isAccountPreferred SOFT_LIMIT_THRESHOLD o modelId now.
Proof.
  unfold isAccountPreferred. rewrite isAccountUsable_swept.
  destruct o as [a|]; simpl; [|reflexivity].
  by autorewrite with sweeps.
Qed.

Lemma isAccountPreferred_usable o :
  isAccountPreferred SOFT_LIMIT_THRESHOLD o modelId now = true ->
  isAccountUsable o modelId now = true.
Proof. unfold isAccountPreferred. by destruct (isAccountUsable o modelId now). Qed.

Lemma getAvailableAccounts_filter accounts :
  getAvailableAccounts accounts modelId now
  = List.filter (fun a => isAccountUsable (Some a) modelId now) accounts.
Proof. reflexivity. Qed.

Lemma getPreferredAccounts_filter accounts :
  getPreferredAccounts accounts modelId SOFT_LIMIT_THRESHOLD now
  = List.filter (fun a => isAccountPreferred SOFT_LIMIT_THRESHOLD (Some a) modelId now) accounts.
Proof.
  unfold getPreferredAccounts. apply filter_ext. intros a.
  unfold isAccountPreferred, isAccountUsable.
  destruct (isInvalid a); [reflexivity|].
  destruct (hardLimited a modelId now); [reflexivity|]. simpl.
  destruct (truthyStr modelId); simpl; [|reflexivity].
  by destruct (isSoftLimited a modelId SOFT_LIMIT_THRESHOLD now).
Qed.

Lemma getAvailableAccounts_swept accounts :
  getAvailableAccounts (map (swept now) accounts) modelId now
  = map (swept now) (getAvailableAccounts accounts modelId now).
Proof.
  rewrite !getAvailableAccounts_filter. apply filter_map_ext.
  intros a. exact (isAccountUsable_swept (Some a)).
Qed.

Lemma getPreferredAccounts_swept accounts :
  getPreferredAccounts (map (swept now) accounts) modelId SOFT_LIMIT_THRESHOLD now
  = map (swept now) (getPreferredAccounts accounts modelId SOFT_LIMIT_THRESHOLD now).
Proof.
  rewrite !getPreferredAccounts_filter. apply filter_map_ext.
  intros a. exact (isAccountPreferred_swept (Some a)).
Qed.

Lemma clampIndex_swept accounts currentIndex :
  clampIndex (map (swept now) accounts) currentIndex = clampIndex accounts currentIndex.
Proof. unfold clampIndex. by rewrite length_map. Qed.

Lemma filter_nonempty_elem {A} (f : A -> bool) (l : list A) :
  List.filter f l <> [] -> exists a, a ∈ l /\ f a = true.
Proof.
  destruct (List.filter f l) as [|a r] eqn:E; [done|]. intros _.
  exists a. apply elem_of_filter_bool. rewrite E. apply list_elem_of_here.
Qed.

Lemma useAccount_swept accounts idx b onSave :
  accounts !! idx = Some b ->
  useAccount (map (swept now) accounts) idx onSave now
  = mkEffect (mkSelection (Some (set_lastUsed (Some now) (swept now b))) idx)
             (<[idx := set_lastUsed (Some now) (swept now b)]> (map (swept now) accounts))
             (if onSave then 1%nat else 0%nat).
Proof.
  intros Hb. unfold useAccount, updateAt. rewrite lookup_map, Hb. simpl.
  rewrite list_lookup_insert_eq; [reflexivity|].
  rewrite length_map. by eapply lookup_lt_Some.
Qed.

(** What [pickNext] does: nothing beyond the sweeps when no account is
    hard-available, and otherwise it returns from the first index, in forward
    order after the clamped cursor, whose account passes [wanted]. *)
Lemma pickNext_cases accounts currentIndex onSave softLimitEnabled :
  let p := pickNext SOFT_LIMIT_THRESHOLD accounts currentIndex onSave modelId
                    softLimitEnabled now in
  let n := length accounts in
  let index := clampIndex accounts currentIndex in
  (getAvailableAccounts accounts modelId now = [] /\
   p = mkEffect (mkSelection None currentIndex) (map (swept now) accounts) 0%nat) \/
  (getAvailableAccounts accounts modelId now <> [] /\
   exists i b,
     (1 <= i <= n)%nat /\
     accounts !! ((index + i) mod n)%nat = Some b /\
     wanted SOFT_LIMIT_THRESHOLD now modelId accounts softLimitEnabled (Some b) = true /\
     (forall j, (1 <= j < i)%nat ->
                wanted SOFT_LIMIT_THRESHOLD now modelId accounts softLimitEnabled (accounts !! ((index + j) mod n)%nat) = false) /\
     p = mkEffect
           (mkSelection (Some (set_lastUsed (Some now) (swept now b))) ((index + i) mod n)%nat)
           (<[((index + i) mod n)%nat := set_lastUsed (Some now) (swept now b)]>
              (map (swept now) accounts))
           (if onSave then 1%nat else 0%nat)).
Proof.
  intros p n index. subst p n index. unfold pickNext. rewrite sweeps_map.
  rewrite getAvailableAccounts_swept, getPreferredAccounts_swept, clampIndex_swept.
  rewrite !length_map.
  set (index := clampIndex accounts currentIndex).
  destruct (getAvailableAccounts accounts modelId now) as [|a0 av] eqn:Hav.
  { left. split; reflexivity. }
  right. split; [discriminate|].
  change (length (a0 :: av) =? 0)%nat with false. cbv iota.
  rewrite !(scanLoop_map (swept now) _ _ _ _ _ _ isAccountUsable_swept).
  rewrite !(scanLoop_map (swept now) _ _ _ _ _ _ isAccountPreferred_swept).
  (* the scan over usable accounts succeeds *)
  assert (Husable : exists a, a ∈ accounts /\ isAccountUsable (Some a) modelId now = true).
  { apply (filter_nonempty_elem (fun a => isAccountUsable (Some a) modelId now)).
    rewrite <- getAvailableAccounts_filter, Hav. discriminate. }
  destruct Husable as (au & Hau & Htu).
  destruct (scanLoop_complete (fun a => isAccountUsable a modelId now) accounts index au Hau Htu)
    as [idxu Hscanu].
  unfold wanted.
  destruct (softLimitEnabled && truthyStr modelId) eqn:Hsoft; simpl.
  - destruct (getPreferredAccounts accounts modelId SOFT_LIMIT_THRESHOLD now)
      as [|p0 pr] eqn:Hpref; simpl.
    + rewrite Hscanu.
      destruct (scanLoop_Some _ _ _ _ _ _ Hscanu) as (k & Hk & -> & Ht & Hj).
      destruct (accounts !! ((index + k) mod length accounts)%nat) as [b|] eqn:Hb;
        [|discriminate Ht].
      exists k, b. repeat split; [lia | lia | exact Hb | exact Ht | |].
      * intros j Hjr. apply Hj. lia.
      * by apply useAccount_swept.
    + assert (Hp : exists a, a ∈ accounts /\
                isAccountPreferred SOFT_LIMIT_THRESHOLD (Some a) modelId now = true).
      { apply (filter_nonempty_elem
                 (fun a => isAccountPreferred SOFT_LIMIT_THRESHOLD (Some a) modelId now)).
        rewrite <- getPreferredAccounts_filter, Hpref. discriminate. }
      destruct Hp as (ap & Hap & Htp).
      destruct (scanLoop_complete
                  (fun a => isAccountPreferred SOFT_LIMIT_THRESHOLD a modelId now)
                  accounts index ap Hap Htp) as [idxp Hscanp].
      rewrite Hscanp.
      destruct (scanLoop_Some _ _ _ _ _ _ Hscanp) as (k & Hk & -> & Ht & Hj).
      destruct (accounts !! ((index + k) mod length accounts)%nat) as [b|] eqn:Hb;
        [|discriminate Ht].
      exists k, b. repeat split; [lia | lia | exact Hb | exact Ht | |].
      * intros j Hjr. apply Hj. lia.
      * by apply useAccount_swept.
  - rewrite Hscanu.
    destruct (scanLoop_Some _ _ _ _ _ _ Hscanu) as (k & Hk & -> & Ht & Hj).
    destruct (accounts !! ((index + k) mod length accounts)%nat) as [b|] eqn:Hb;
        [|discriminate Ht].
    exists k, b. repeat split; [lia | lia | exact Hb | exact Ht | |].
    + intros j Hjr. apply Hj. lia.
    + by apply useAccount_swept.
Qed.

End PickNext.

(** The account one step after the clamped cursor is returned when it is
    preferred. *)
Lemma pickNext_next_preferred (SOFT_LIMIT_THRESHOLD : Q) (accounts : list Account)
    (currentIndex : nat) (onSave : bool) (modelId : option string) (softLimitEnabled : bool)
    (now : Z) (b : Account) :
  accounts !! ((clampIndex accounts currentIndex + 1) mod length accounts)%nat = Some b ->
  isAccountPreferred SOFT_LIMIT_THRESHOLD (Some b) modelId now = true ->
  ret (pickNext SOFT_LIMIT_THRESHOLD accounts currentIndex onSave modelId softLimitEnabled now)
  = mkSelection (Some (set_lastUsed (Some now) (swept now b)))
                ((clampIndex accounts currentIndex + 1) mod length accounts)%nat.
Proof.
  intros Hb Hp.
  pose proof (isAccountPreferred_usable _ _ _ _ Hp) as Hu.
  assert (Hw : wanted SOFT_LIMIT_THRESHOLD now modelId accounts softLimitEnabled (Some b) = true).
  { unfold wanted. by destruct (_ && _ && _). }
  destruct (pickNext_cases SOFT_LIMIT_THRESHOLD now modelId accounts currentIndex onSave
              softLimitEnabled) as [[Hav _] | (_ & i & b' & Hi & Hb' & _ & Hmin & ->)].
  - exfalso.
    assert (Hin : b ∈ getAvailableAccounts accounts modelId now).
    { rewrite getAvailableAccounts_filter. apply elem_of_filter_bool.
      split; [|exact Hu]. apply list_elem_of_lookup. eauto. }
    rewrite Hav in Hin. by apply not_elem_of_nil in Hin.
  - destruct (decide (i = 1%nat)) as [-> | Hne].
    + rewrite Hb in Hb'. injection Hb' as <-. reflexivity.
    + exfalso. specialize (Hmin 1%nat ltac:(lia)). rewrite Hb, Hw in Hmin. discriminate.
Qed.

(** C2, as amended.  Whenever [pickNext] returns an account, that account is
    not invalid and, when the queried model id is a non-empty string, the
    account has no hard-limit entry for it that is rate-limited with a reset
    time in the future. *)
Theorem pickNext_never_unusable
    (SOFT_LIMIT_THRESHOLD : Q) (accounts : list Account) (currentIndex : nat) (onSave : bool)
    (modelId : option string) (softLimitEnabled : bool) (now : Z) (a : Account) :
  sel_account
    (ret (pickNext SOFT_LIMIT_THRESHOLD accounts currentIndex onSave modelId softLimitEnabled now))
    = Some a ->
  isInvalid a = false /\
  (forall m limits limit,
      modelId = Some m -> m <> "" ->
      modelRateLimits a = Some limits ->
      limits !! m = Some limit ->
      ~ (rl_isRateLimited limit = true /\
         exists t, rl_resetTime limit = Some t /\ now < t)).
Proof.
  intros H.
  destruct (pickNext_cases SOFT_LIMIT_THRESHOLD now modelId accounts currentIndex onSave
              softLimitEnabled) as [[_ E] | (_ & i & b & Hi & Hb & Hw & _ & E)];
    rewrite E in H; simpl in H; [discriminate|].
  injection H as <-.
  assert (Hu : isAccountUsable (Some b) modelId now = true).
  { unfold wanted in Hw. destruct (_ && _ && _) in Hw;
      [by apply isAccountPreferred_usable in Hw | exact Hw]. }
  simpl in Hu.
  destruct (isInvalid b) eqn:Hinv; [discriminate|].
  destruct (hardLimited b modelId now) eqn:Hh; [discriminate|].
  split; [simpl; by rewrite isInvalid_swept|].
  intros m limits limit -> Hm Hl Hk (Hr & t & Ht & Hlt).
  pose proof (hardLimited_swept now b (Some m)) as Hs. rewrite Hh in Hs.
  unfold hardLimited in Hs. simpl in Hl. rewrite Hl in Hs. simpl in Hs.
  destruct m as [|c m]; [done|]. rewrite Hk in Hs.
  unfold limitActive in Hs. rewrite Hr, Ht in Hs. simpl in Hs.
  apply Z.ltb_ge in Hs. lia.
Qed.

Lemma pickNext_never_unusable_witness :
  isInvalid (set_lastUsed (Some 1000) (freshAccount "B")) = false /\
  (forall m limits limit,
      Some "m" = Some m -> m <> "" ->
      modelRateLimits (set_lastUsed (Some 1000) (freshAccount "B")) = Some limits ->
      limits !! m = Some limit ->
      ~ (rl_isRateLimited limit = true /\
         exists t, rl_resetTime limit = Some t /\ 1000 < t)).
Proof.
  apply (pickNext_never_unusable (1 # 5)
           [hardLimitedAccount "A" "m" 2000; freshAccount "B"; invalidAccount "C"]
           0 true (Some "m") true 1000).
  reflexivity.
Defined.

(** C2 as stated fails for the empty string, which the selectors treat as
    no model at all: an account limited under the key [""] by
    [markRateLimited] is returned by [pickNext] for that model id while its
    limit is active. *)
Lemma C2_counterexample :
  let accounts :=
    (markRateLimited 60000 [freshAccount "A"] "A" (Some 1000) (mkSettings None) (Some "") 1000).1 in
  exists a limits limit,
    sel_account (ret (pickNext (1 # 5) accounts 0 true (Some "") true 1000)) = Some a /\
    modelRateLimits a = Some limits /\
    limits !! "" = Some limit /\
    rl_isRateLimited limit = true /\
    rl_resetTime limit = Some 2000 /\
    1000 < 2000.
Proof.
  cbv zeta.
  exists (set_lastUsed (Some 1000) (hardLimitedAccount "A" "" 2000)),
         {[ "" := mkRateLimitState true (Some 2000) ]},
         (mkRateLimitState true (Some 2000)).
  repeat split.
Qed.

(** C3.  When some account is hard-available, [pickNext] returns the account
    at the smallest offset [1 <= i <= n] after the clamped cursor, in forward
    wrap-around order, that passes the scan in force: the preferred accounts
    when soft limits are enabled, a model is given and a preferred account
    exists, the hard-available accounts otherwise; the new cursor is that
    account's index.  In particular, over three accounts with cursor 0, the
    first of them hard-limited for [m] and the second carrying no limit for
    [m], the second is returned with new cursor 1; and with cursor 1 the
    third is returned with new cursor 2 when it carries no limit, whatever
    the state of the account at index 0. *)
Theorem pickNext_forward_order (SOFT_LIMIT_THRESHOLD : Q) :
  (forall (accounts : list Account) (currentIndex : nat) (onSave : bool)
          (modelId : option string) (softLimitEnabled : bool) (now : Z),
      getAvailableAccounts accounts modelId now <> [] ->
      exists (i : nat) (b : Account),
        (1 <= i <= length accounts)%nat /\
        accounts !! ((clampIndex accounts currentIndex + i) mod length accounts)%nat = Some b /\
        wanted SOFT_LIMIT_THRESHOLD now modelId accounts softLimitEnabled (Some b) = true /\
        (forall j, (1 <= j < i)%nat ->
           wanted SOFT_LIMIT_THRESHOLD now modelId accounts softLimitEnabled
                  (accounts !! ((clampIndex accounts currentIndex + j) mod length accounts)%nat)
           = false) /\
        ret (pickNext SOFT_LIMIT_THRESHOLD accounts currentIndex onSave modelId
                      softLimitEnabled now)
        = mkSelection (Some (set_lastUsed (Some now) (swept now b)))
                      ((clampIndex accounts currentIndex + i) mod length accounts)%nat) /\
  (forall (A B C : Account) (m : string) (onSave softLimitEnabled : bool) (now : Z),
      hardLimited A (Some m) now = true ->
      isInvalid B = false ->
      hardLimited B (Some m) now = false ->
      isSoftLimited B (Some m) SOFT_LIMIT_THRESHOLD now = false ->
      ret (pickNext SOFT_LIMIT_THRESHOLD [A; B; C] 0 onSave (Some m) softLimitEnabled now)
      = mkSelection (Some (set_lastUsed (Some now) (swept now B))) 1) /\
  (forall (A B C : Account) (modelId : option string) (onSave softLimitEnabled : bool) (now : Z),
      isInvalid C = false ->
      hardLimited C modelId now = false ->
      isSoftLimited C modelId SOFT_LIMIT_THRESHOLD now = false ->
      ret (pickNext SOFT_LIMIT_THRESHOLD [A; B; C] 1 onSave modelId softLimitEnabled now)
      = mkSelection (Some (set_lastUsed (Some now) (swept now C))) 2).
Proof.
  split; [|split].
  - intros accounts currentIndex onSave modelId softLimitEnabled now Hav.
    destruct (pickNext_cases SOFT_LIMIT_THRESHOLD now modelId accounts currentIndex onSave
                softLimitEnabled) as [[Hnil _] | (_ & i & b & Hi & Hb & Hw & Hmin & ->)];
      [done|].
    exists i, b. repeat split; try assumption; lia.
  - intros A B C m onSave softLimitEnabled now _ Hinv Hhard Hsoft.
    apply (pickNext_next_preferred SOFT_LIMIT_THRESHOLD [A; B; C] 0); [reflexivity|].
    unfold isAccountPreferred, isAccountUsable. rewrite Hinv, Hhard, Hsoft.
    by destruct (truthyStr (Some m)).
  - intros A B C modelId onSave softLimitEnabled now Hinv Hhard Hsoft.
    apply (pickNext_next_preferred SOFT_LIMIT_THRESHOLD [A; B; C] 1); [reflexivity|].
    unfold isAccountPreferred, isAccountUsable. rewrite Hinv, Hhard, Hsoft.
    by destruct (truthyStr modelId).
Qed.

Lemma pickNext_forward_order_witness :
  (exists (i : nat) (b : Account),
      (1 <= i <= 3)%nat /\
      [hardLimitedAccount "A" "m" 2000; softLimitedAccount "B" "m" 0; freshAccount "C"]
        !! ((0 + i) mod 3)%nat = Some b /\
      wanted (1 # 5) 1000 (Some "m")
             [hardLimitedAccount "A" "m" 2000; softLimitedAccount "B" "m" 0; freshAccount "C"]
             true (Some b) = true /\
      (forall j, (1 <= j < i)%nat ->
         wanted (1 # 5) 1000 (Some "m")
                [hardLimitedAccount "A" "m" 2000; softLimitedAccount "B" "m" 0; freshAccount "C"]
                true
                ([hardLimitedAccount "A" "m" 2000; softLimitedAccount "B" "m" 0; freshAccount "C"]
                   !! ((0 + j) mod 3)%nat) = false) /\
      ret (pickNext (1 # 5)
             [hardLimitedAccount "A" "m" 2000; softLimitedAccount "B" "m" 0; freshAccount "C"]
             0 true (Some "m") true 1000)
      = mkSelection (Some (set_lastUsed (Some 1000) (swept 1000 b))) ((0 + i) mod 3)%nat) /\
  ret (pickNext (1 # 5) [hardLimitedAccount "A" "m" 2000; freshAccount "B"; freshAccount "C"]
                0 true (Some "m") true 1000)
  = mkSelection (Some (set_lastUsed (Some 1000) (swept 1000 (freshAccount "B")))) 1.
Proof.
  split.
  - apply (proj1 (pickNext_forward_order (1 # 5))
             [hardLimitedAccount "A" "m" 2000; softLimitedAccount "B" "m" 0; freshAccount "C"]
             0%nat true (Some "m") true 1000).
    vm_compute. discriminate.
  - apply (proj1 (proj2 (pickNext_forward_order (1 # 5)))); reflexivity.
Defined.

(** ** Sticky selection *)

Lemma modelRateLimits_swept now a :
  modelRateLimits (swept now a)
  = match modelRateLimits a with
    | Some limits => Some (expireLimit now <$> limits)
    | None => None
    end.
Proof. unfold swept, expireSoftLimits, expireLimits. by destruct a as [? ? ? ? ? [?|] [?|] ? ?]. Qed.

Section Sticky.

Variable MAX_WAIT_BEFORE_ERROR_MS : Z.
Variable SOFT_LIMIT_THRESHOLD : Q.

(** The sticky read when the account at the clamped cursor is not usable. *)
Lemma getCurrentStickyAccount_unusable accounts currentIndex onSave modelId now :
  accounts <> [] ->
  isAccountUsable (accounts !! clampIndex accounts currentIndex) modelId now = false ->
  getCurrentStickyAccount SOFT_LIMIT_THRESHOLD accounts currentIndex onSave modelId now
  = mkEffect (mkStickyRead None (clampIndex accounts currentIndex) false)
             (map (swept now) accounts) 0%nat.
Proof.
  intros Hne Hu. unfold getCurrentStickyAccount. rewrite sweeps_map, length_map.
  destruct accounts as [|a0 rest] eqn:E; [done|].
  change (length (a0 :: rest) =? 0)%nat with false. cbv iota.
  rewrite clampIndex_swept, lookup_map, isAccountUsable_swept, Hu. reflexivity.
Qed.

(** The wait decision on swept accounts when the account at the clamped
    cursor is valid and carries an active hard limit. *)
Lemma shouldWaitForCurrentAccount_limited accounts currentIndex m now acc limits limit t :
  0 <= now ->
  accounts !! clampIndex accounts currentIndex = Some acc ->
  isInvalid acc = false ->
  m <> "" ->
  modelRateLimits acc = Some limits ->
  limits !! m = Some limit ->
  rl_isRateLimited limit = true ->
  rl_resetTime limit = Some t ->
  0 < t - now <= MAX_WAIT_BEFORE_ERROR_MS ->
  shouldWaitForCurrentAccount MAX_WAIT_BEFORE_ERROR_MS (map (swept now) accounts)
                              currentIndex (Some m) now
  = mkWaitInfo true (t - now) (Some (swept now acc)).
Proof.
  intros Hnow Hacc Hinv Hm Hl Hk Hr Ht Hw.
  unfold shouldWaitForCurrentAccount. rewrite length_map.
  destruct accounts as [|a0 rest] eqn:E; [by rewrite lookup_nil in Hacc|]. rewrite <- E in *.
  replace (length accounts =? 0)%nat with false by (by rewrite E).
  rewrite clampIndex_swept, lookup_map, Hacc. simpl.
  rewrite isInvalid_swept, Hinv, modelRateLimits_swept, Hl. simpl.
  destruct m as [|c m]; [done|]. rewrite lookup_fmap, Hk. simpl.
  rewrite expireLimit_keeps_active
    by (unfold limitActive; rewrite Hr, Ht; simpl; apply Z.ltb_lt; lia).
  rewrite Hr, Ht. simpl.
  replace (t =? 0) with false by (symmetry; apply Z.eqb_neq; lia). simpl.
  replace (0 <? t - now) with true by (symmetry; apply Z.ltb_lt; lia).
  replace (t - now <=? MAX_WAIT_BEFORE_ERROR_MS) with true by (symmetry; apply Z.leb_le; lia).
  reflexivity.
Qed.

End Sticky.

(** C4, as amended.  If the account at the clamped cursor is not invalid and
    is hard-limited for the given model with remaining wait [w = t - now],
    [0 < w <= MAX_WAIT_BEFORE_ERROR_MS], and no account is hard-available,
    then [pickStickyAccount] returns no account, [waitMs = w] and the cursor
    it was given; [onSave] is not invoked. *)
Theorem pickStickyAccount_waits
    (MAX_WAIT_BEFORE_ERROR_MS : Z) (SOFT_LIMIT_THRESHOLD : Q)
    (accounts : list Account) (currentIndex : nat) (onSave : bool) (m : string)
    (softLimitEnabled : bool) (now : Z)
    (acc : Account) (limits : gmap string RateLimitState) (limit : RateLimitState) (t : Z) :
  0 <= now ->
  accounts !! clampIndex accounts currentIndex = Some acc ->
  isInvalid acc = false ->
  modelRateLimits acc = Some limits ->
  limits !! m = Some limit ->
  rl_isRateLimited limit = true ->
  rl_resetTime limit = Some t ->
  0 < t - now <= MAX_WAIT_BEFORE_ERROR_MS ->
  getAvailableAccounts accounts (Some m) now = [] ->
  let r := pickStickyAccount MAX_WAIT_BEFORE_ERROR_MS SOFT_LIMIT_THRESHOLD accounts currentIndex
                             onSave (Some m) softLimitEnabled now in
  ret r = mkStickyPick None (t - now) currentIndex /\ saves r = 0%nat.
Proof.
  intros Hnow Hacc Hinv Hl Hk Hr Ht Hw Hav r. subst r.
  assert (Hin : acc ∈ accounts) by (apply list_elem_of_lookup; eauto).
  assert (Hu : isAccountUsable (Some acc) (Some m) now = false).
  { destruct (isAccountUsable (Some acc) (Some m) now) eqn:Hu; [|reflexivity]. exfalso.
    assert (Hx : acc ∈ getAvailableAccounts accounts (Some m) now).
    { rewrite getAvailableAccounts_filter. apply elem_of_filter_bool. by split. }
    rewrite Hav in Hx. by apply not_elem_of_nil in Hx. }
  assert (Hm : m <> "").
  { intros ->. simpl in Hu. by rewrite Hinv in Hu. }
  assert (Hne : accounts <> []) by (intros ->; by apply not_elem_of_nil in Hin).
  unfold pickStickyAccount.
  rewrite (getCurrentStickyAccount_unusable SOFT_LIMIT_THRESHOLD accounts currentIndex onSave
             (Some m) now Hne) by (by rewrite Hacc).
  cbn [ret sr_account sr_newIndex accountsAfter saves].
  rewrite getAvailableAccounts_swept, Hav.
  change (0 <? length (map (swept now) []))%nat with false. cbv iota.
  rewrite (shouldWaitForCurrentAccount_limited MAX_WAIT_BEFORE_ERROR_MS accounts currentIndex
             m now acc limits limit t) by assumption.
  split; reflexivity.
Qed.

Lemma pickStickyAccount_waits_witness :
  let r := pickStickyAccount 120000 (1 # 5)
             [hardLimitedAccount "A" "m" 6000; invalidAccount "B"; invalidAccount "C"]
             0 true (Some "m") true 1000 in
  ret r = mkStickyPick None (6000 - 1000) 0 /\ saves r = 0%nat.
Proof.
  apply (pickStickyAccount_waits 120000 (1 # 5)
           [hardLimitedAccount "A" "m" 6000; invalidAccount "B"; invalidAccount "C"]
           0%nat true "m" true 1000 (hardLimitedAccount "A" "m" 6000)
           {[ "m" := mkRateLimitState true (Some 6000) ]}
           (mkRateLimitState true (Some 6000)) 6000);
    try reflexivity; try lia.
Defined.

(** C4 as stated fails when the account at the cursor is invalid as well as
    hard-limited: [shouldWaitForCurrentAccount] answers "do not wait" for an
    invalid account, and the result carries [waitMs = 0]. *)
Lemma C4_counterexample :
  let A := set_invalid "token revoked" 500 (hardLimitedAccount "A" "m" 6000) in
  let accounts := [A; invalidAccount "B"; invalidAccount "C"] in
  let r := pickStickyAccount 120000 (1 # 5) accounts 0 true (Some "m") true 1000 in
  hardLimitOf accounts 0 "m" = Some (mkRateLimitState true (Some 6000)) /\
  0 < 6000 - 1000 <= 120000 /\
  getAvailableAccounts accounts (Some "m") 1000 = [] /\
  ret r = mkStickyPick None 0 0 /\
  ~ (ret r = mkStickyPick None (6000 - 1000) 0).
Proof.
  cbv zeta. split; [vm_compute; reflexivity|]. split; [lia|]. split; [reflexivity|].
  assert (E : ret (pickStickyAccount 120000 (1 # 5)
                     [set_invalid "token revoked" 500 (hardLimitedAccount "A" "m" 6000);
                      invalidAccount "B"; invalidAccount "C"] 0 true (Some "m") true 1000)
              = mkStickyPick None 0 0) by (vm_compute; reflexivity).
  split; [exact E|]. rewrite E. discriminate.
Qed.

(** * Further properties of the rate-limit tracker *)

(** ** Maps of limit entries *)

Lemma filter_all_false {A} (p : A -> bool) (l : list A) :
  (forall x, In x l -> p x = false) -> List.filter p l = [].
Proof.
  induction l as [|x l IH]; simpl; intros H; [reflexivity|].
  rewrite (H x (or_introl eq_refl)). apply IH. intros y Hy. apply H. by right.
Qed.

Lemma filter_nil_all_false {A} (p : A -> bool) (l : list A) :
  List.filter p l = [] -> forall x, In x l -> p x = false.
Proof.
  induction l as [|x l IH]; simpl; intros H y Hy; [done|].
  destruct (p x) eqn:E; [discriminate|].
  destruct Hy as [<- | Hy]; [exact E | by apply IH].
Qed.

Lemma In_values {V} (m : gmap string V) (v : V) :
  In v (map snd (map_to_list m)) <-> exists k, m !! k = Some v.
Proof.
  rewrite in_map_iff. split.
  - intros ([k v'] & <- & Hin). exists k.
    apply elem_of_map_to_list. by apply list_elem_of_In.
  - intros [k Hk]. exists (k, v). split; [reflexivity|].
    apply list_elem_of_In. by apply elem_of_map_to_list.
Qed.

Lemma countValues_zero {V} (p : V -> bool) (m : gmap string V) :
  countValues p m = 0%nat <-> forall k v, m !! k = Some v -> p v = false.
Proof.
  unfold countValues. split.
  - intros H k v Hk. apply length_zero_iff_nil in H.
    apply (filter_nil_all_false p _ H). apply In_values. eauto.
  - intros H. rewrite filter_all_false; [reflexivity|].
    intros v [k Hk]%In_values. eauto.
Qed.

Lemma list_sum_zero (l : list nat) :
  list_sum l = 0%nat <-> forall n, In n l -> n = 0%nat.
Proof.
  induction l as [|x l IH]; simpl.
  - split; [intros _ n [] | reflexivity].
  - split.
    + intros H n [<- | Hn]; [lia|]. apply IH; [lia | exact Hn].
    + intros H. rewrite (H x (or_introl eq_refl)). simpl. apply IH.
      intros n Hn. apply H. by right.
Qed.

Lemma map_id_on {A} (f : A -> A) (l : list A) :
  map f l = l <-> forall x, In x l -> f x = x.
Proof.
  induction l as [|x l IH]; simpl.
  - split; [intros _ y [] | reflexivity].
  - split.
    + intros [= Hx Hl] y [<- | Hy]; [exact Hx | by apply IH].
    + intros H. rewrite (H x (or_introl eq_refl)). f_equal. apply IH.
      intros y Hy. apply H. by right.
Qed.

Lemma fmap_id_on {V} (f : V -> V) (m : gmap string V) :
  f <$> m = m <-> forall k v, m !! k = Some v -> f v = v.
Proof.
  split.
  - intros H k v Hk. assert (E : (f <$> m) !! k = m !! k) by (by rewrite H).
    rewrite lookup_fmap, Hk in E. simpl in E. congruence.
  - intros H. apply map_eq. intros k. rewrite lookup_fmap.
    destruct (m !! k) as [v|] eqn:Hk; simpl; [|reflexivity]. f_equal. eauto.
Qed.

Lemma set_modelRateLimits_same a limits :
  modelRateLimits a = Some limits -> set_modelRateLimits (Some limits) a = a.
Proof. destruct a. simpl. by intros ->. Qed.

Lemma set_modelSoftLimits_same a limits :
  modelSoftLimits a = Some limits -> set_modelSoftLimits (Some limits) a = a.
Proof. destruct a. simpl. by intros ->. Qed.

(** ** The hard-limit sweep *)

Lemma limitExpired_expireLimit now limit : limitExpired now (expireLimit now limit) = false.
Proof.
  unfold expireLimit. destruct (limitExpired now limit) eqn:E; [reflexivity | exact E].
Qed.

Lemma expireLimit_fixed now limit :
  expireLimit now limit = limit <-> limitExpired now limit = false.
Proof.
  unfold expireLimit. destruct (limitExpired now limit) eqn:E.
  - split; [|discriminate]. intros H. rewrite <- H in E.
    unfold limitExpired in E. simpl in E. discriminate.
  - tauto.
Qed.

Lemma expireLimits_fixed now a :
  expireLimits now a = a <->
  forall limits k limit,
    modelRateLimits a = Some limits -> limits !! k = Some limit -> limitExpired now limit = false.
Proof.
  unfold expireLimits. destruct (modelRateLimits a) as [limits|] eqn:E.
  - split.
    + intros H limits' k limit [= <-] Hk.
      assert (Hm : expireLimit now <$> limits = limits).
      { assert (X : modelRateLimits (set_modelRateLimits (Some (expireLimit now <$> limits)) a)
                    = modelRateLimits a) by (by rewrite H).
        simpl in X. rewrite E in X. congruence. }
      apply expireLimit_fixed. by apply (proj1 (fmap_id_on _ _) Hm k).
    + intros H. replace (expireLimit now <$> limits) with limits.
      * by apply set_modelRateLimits_same.
      * symmetry. apply fmap_id_on. intros k limit Hk. apply expireLimit_fixed. eauto.
  - split; [intros _ limits k limit [=] | reflexivity].
Qed.

Lemma expireLimits_entries now a limits k limit :
  modelRateLimits (expireLimits now a) = Some limits -> limits !! k = Some limit ->
  limitExpired now limit = false.
Proof.
  unfold expireLimits. destruct (modelRateLimits a) as [l|] eqn:E; simpl.
  - intros [= <-]. rewrite lookup_fmap. destruct (l !! k); simpl; [|discriminate].
    intros [= <-]. apply limitExpired_expireLimit.
  - rewrite E. discriminate.
Qed.

Lemma clearExpiredLimits_count_zero accounts now :
  (clearExpiredLimits accounts now).2 = 0%nat <->
  forall a, In a accounts -> expireLimits now a = a.
Proof.
  simpl. rewrite list_sum_zero. split.
  - intros H a Ha. apply expireLimits_fixed. intros limits k limit Hl Hk.
    specialize (H _ (in_map _ _ _ Ha)). simpl in H. rewrite Hl in H.
    by apply (proj1 (countValues_zero _ _) H k).
  - intros H n [a [<- Ha]]%in_map_iff.
    destruct (modelRateLimits a) as [limits|] eqn:Hl; [|reflexivity].
    apply countValues_zero. intros k limit Hk.
    by apply (proj1 (expireLimits_fixed now a) (H a Ha) limits k).
Qed.

(** X1.  [clearExpiredLimits] leaves no expired entry behind, reports zero
    exactly when it changed nothing, is a no-op when repeated at the same
    instant, and does not change which accounts are available. *)
Theorem clearExpiredLimits_sweeps (accounts : list Account) (now : Z) :
  (forall a limits k limit,
      a ∈ (clearExpiredLimits accounts now).1 ->
      modelRateLimits a = Some limits -> limits !! k = Some limit ->
      ~ (rl_isRateLimited limit = true /\ toNum (rl_resetTime limit) <= now)) /\
  ((clearExpiredLimits accounts now).2 = 0%nat <-> (clearExpiredLimits accounts now).1 = accounts) /\
  clearExpiredLimits (clearExpiredLimits accounts now).1 now
    = ((clearExpiredLimits accounts now).1, 0%nat) /\
  (forall modelId,
      getAvailableAccounts (clearExpiredLimits accounts now).1 modelId now
      = map (expireLimits now) (getAvailableAccounts accounts modelId now)).
Proof.
  assert (Hent : forall a, In a (map (expireLimits now) accounts) -> expireLimits now a = a).
  { intros a [b [<- _]]%in_map_iff. apply expireLimits_fixed.
    intros limits k limit. apply expireLimits_entries. }
  split; [|split; [|split]].
  - intros a limits k limit Ha Hl Hk [Hr Ht]. simpl in Ha.
    apply list_elem_of_In, in_map_iff in Ha as [b [<- _]].
    pose proof (expireLimits_entries now b limits k limit Hl Hk) as E.
    unfold limitExpired in E. rewrite Hr in E. simpl in E.
    apply Z.leb_gt in E. lia.
  - rewrite clearExpiredLimits_count_zero. simpl. symmetry. apply map_id_on.
  - apply injective_projections.
    + simpl. by apply map_id_on.
    + by apply clearExpiredLimits_count_zero.
  - intros modelId. simpl. unfold getAvailableAccounts. apply filter_map_ext.
    intros a. rewrite hardLimited_expireLimits.
    unfold expireLimits. by destruct (modelRateLimits a).
Qed.

(** ** The soft-limit sweep *)

Lemma softEntryExpired_spec now limit :
  softEntryExpired now limit = true <->
  sl_isSoftLimited limit = true /\
  exists t, sl_resetTime limit = Some t /\ t <> 0 /\ t <= now.
Proof.
  unfold softEntryExpired, softExpired.
  destruct (sl_isSoftLimited limit); simpl; [|split; [discriminate | intros [? _]; discriminate]].
  destruct (sl_resetTime limit) as [t|]; simpl.
  - destruct (Z.eqb_spec t 0) as [-> | Hz]; simpl.
    + split; [discriminate|]. intros (_ & t & [= <-] & Hne & _). done.
    + rewrite Z.leb_le. split.
      * intros H. split; [reflexivity|]. exists t. auto.
      * intros (_ & t' & [= <-] & _ & H). exact H.
  - split; [discriminate|]. intros (_ & t & [=] & _).
Qed.

Lemma expireSoftLimits_entries now a limits k limit :
  modelSoftLimits (expireSoftLimits now a) = Some limits -> limits !! k = Some limit ->
  softEntryExpired now limit = false.
Proof.
  unfold expireSoftLimits. destruct (modelSoftLimits a) as [l|] eqn:E; simpl.
  - intros [= <-]. intros [_ H]%map_lookup_filter_Some. exact H.
  - rewrite E. discriminate.
Qed.

Lemma expireSoftLimits_fixed now a :
  expireSoftLimits now a = a <->
  forall limits k limit,
    modelSoftLimits a = Some limits -> limits !! k = Some limit ->
    softEntryExpired now limit = false.
Proof.
  split.
  - intros H limits k limit Hl Hk. rewrite <- H in Hl.
    by apply (expireSoftLimits_entries now a limits k).
  - intros H. unfold expireSoftLimits.
    destruct (modelSoftLimits a) as [limits|] eqn:E; [|reflexivity].
    rewrite map_filter_id; [by apply set_modelSoftLimits_same|].
    intros k limit Hk. simpl. eauto.
Qed.

Lemma clearExpiredSoftLimits_count_zero accounts now :
  (clearExpiredSoftLimits accounts now).2 = 0%nat <->
  forall a, In a accounts -> expireSoftLimits now a = a.
Proof.
  simpl. rewrite list_sum_zero. split.
  - intros H a Ha. apply expireSoftLimits_fixed. intros limits k limit Hl Hk.
    specialize (H _ (in_map _ _ _ Ha)). simpl in H. rewrite Hl in H.
    by apply (proj1 (countValues_zero _ _) H k).
  - intros H n [a [<- Ha]]%in_map_iff.
    destruct (modelSoftLimits a) as [limits|] eqn:Hl; [|reflexivity].
    apply countValues_zero. intros k limit Hk.
    by apply (proj1 (expireSoftLimits_fixed now a) (H a Ha) limits k).
Qed.

(** X2.  [clearExpiredSoftLimits] deletes exactly the entries whose flag is
    set and whose reset time is set and not after [now]; it reports zero
    exactly when it changed nothing, is a no-op when repeated at the same
    instant, and does not change the answer of [isSoftLimited] for any
    account and model. *)
Theorem clearExpiredSoftLimits_sweeps (accounts : list Account) (now : Z) :
  (forall i a limits k,
      accounts !! i = Some a -> modelSoftLimits a = Some limits ->
      softLimitOf (clearExpiredSoftLimits accounts now).1 i k
      = match limits !! k with
        | Some limit => if softEntryExpired now limit then None else Some limit
        | None => None
        end) /\
  (forall a limits k limit,
      a ∈ (clearExpiredSoftLimits accounts now).1 ->
      modelSoftLimits a = Some limits -> limits !! k = Some limit ->
      ~ (sl_isSoftLimited limit = true /\
         exists t, sl_resetTime limit = Some t /\ t <> 0 /\ t <= now)) /\
  ((clearExpiredSoftLimits accounts now).2 = 0%nat <->
   (clearExpiredSoftLimits accounts now).1 = accounts) /\
  clearExpiredSoftLimits (clearExpiredSoftLimits accounts now).1 now
    = ((clearExpiredSoftLimits accounts now).1, 0%nat) /\
  (forall modelId threshold,
      map (fun a => isSoftLimited a modelId threshold now) (clearExpiredSoftLimits accounts now).1
      = map (fun a => isSoftLimited a modelId threshold now) accounts).
Proof.
  assert (Hent : forall a, In a (map (expireSoftLimits now) accounts) ->
                           expireSoftLimits now a = a).
  { intros a [b [<- _]]%in_map_iff. apply expireSoftLimits_fixed.
    intros limits k limit. apply expireSoftLimits_entries. }
  split; [|split; [|split; [|split]]].
  - intros i a limits k Ha Hl. unfold softLimitOf. simpl.
    rewrite lookup_map, Ha. simpl. unfold expireSoftLimits. rewrite Hl. simpl.
    rewrite map_lookup_filter. destruct (limits !! k) as [limit|]; simpl; [|reflexivity].
    destruct (softEntryExpired now limit) eqn:E.
    + rewrite option_guard_False by (simpl; congruence). reflexivity.
    + rewrite option_guard_True by (simpl; congruence). reflexivity.
  - intros a limits k limit Ha Hl Hk Hexp. simpl in Ha.
    apply list_elem_of_In, in_map_iff in Ha as [b [<- _]].
    pose proof (expireSoftLimits_entries now b limits k limit Hl Hk) as E.
    apply softEntryExpired_spec in Hexp. congruence.
  - rewrite clearExpiredSoftLimits_count_zero. simpl. symmetry. apply map_id_on.
  - apply injective_projections.
    + simpl. by apply map_id_on.
    + by apply clearExpiredSoftLimits_count_zero.
  - intros modelId threshold. simpl. rewrite map_map. apply map_ext.
    intros a. apply isSoftLimited_expireSoftLimits.
Qed.

(** ** Clearing every hard limit *)

Lemma hardLimited_reset a modelId t :
  hardLimited
    (match modelRateLimits a with
     | Some limits =>
         set_modelRateLimits (Some ((fun _ => mkRateLimitState false None) <$> limits)) a
     | None => a
     end) modelId t = false.
Proof.
  unfold hardLimited. destruct (truthyStr modelId); [|reflexivity].
  destruct (modelRateLimits a) as [limits|] eqn:E; simpl; [|by rewrite E].
  rewrite lookup_fmap. by destruct (limits !! propKey modelId).
Qed.

(** X3.  After [resetAllRateLimits] no account is hard-limited for any model
    at any instant: the available accounts are exactly the ones that are not
    invalid, whatever the model.  Every entry is kept, cleared; validity and
    soft limits are untouched, so an invalid account stays unavailable. *)
Theorem resetAllRateLimits_frees_all (accounts : list Account) :
  (forall modelId t,
      getAvailableAccounts (resetAllRateLimits accounts) modelId t
      = List.filter (fun a => negb (isInvalid a)) (resetAllRateLimits accounts)) /\
  (forall i a limits k,
      accounts !! i = Some a -> modelRateLimits a = Some limits ->
      hardLimitOf (resetAllRateLimits accounts) i k
      = match limits !! k with
        | Some _ => Some (mkRateLimitState false None)
        | None => None
        end) /\
  map identityOf (resetAllRateLimits accounts) = map identityOf accounts /\
  map modelSoftLimits (resetAllRateLimits accounts) = map modelSoftLimits accounts.
Proof.
  split; [|split; [|split]].
  - intros modelId t. unfold getAvailableAccounts, resetAllRateLimits.
    apply filter_ext_in. intros a [b [<- _]]%in_map_iff.
    rewrite hardLimited_reset.
    by destruct (isInvalid _).
  - intros i a limits k Ha Hl. unfold hardLimitOf, resetAllRateLimits.
    rewrite lookup_map, Ha. simpl. rewrite Hl. simpl. rewrite lookup_fmap.
    by destruct (limits !! k).
  - unfold resetAllRateLimits. rewrite map_map. apply map_ext.
    intros a. by destruct (modelRateLimits a).
  - unfold resetAllRateLimits. rewrite map_map. apply map_ext.
    intros a. by destruct (modelRateLimits a).
Qed.

(** ** Marking accounts *)

Lemma findIndexByEmail_unknown accounts e :
  (forall a, a ∈ accounts -> email a <> e) -> findIndexByEmail accounts e = None.
Proof.
  intros H. destruct (findIndexByEmail accounts e) as [i|] eqn:E; [|reflexivity].
  destruct (findIndexByEmail_Some _ _ _ E) as (a & Ha & He & _).
  exfalso. apply (H a); [|exact He]. apply list_elem_of_lookup. eauto.
Qed.

Lemma findIndexByEmail_emails l1 l2 e :
  map email l1 = map email l2 -> findIndexByEmail l1 e = findIndexByEmail l2 e.
Proof.
  revert l2. induction l1 as [|a l1 IH]; intros [|b l2]; simpl; try discriminate; [reflexivity|].
  intros [= Hab Hl]. rewrite Hab, (IH l2 Hl). reflexivity.
Qed.

Lemma map_insert_same {A B} (g : A -> B) (l : list A) (i : nat) (a x : A) :
  l !! i = Some a -> g x = g a -> map g (<[i := x]> l) = map g l.
Proof.
  intros Ha Hg. change (g <$> <[i := x]> l = g <$> l).
  rewrite list_fmap_insert, Hg. apply list_insert_id.
  by rewrite list_lookup_fmap, Ha.
Qed.

Lemma map_updateAt_same {B} (g : Account -> B) (f : Account -> Account) (l : list Account) i :
  (forall a, g (f a) = g a) -> map g (updateAt i f l) = map g l.
Proof.
  intros H. unfold updateAt. destruct (l !! i) as [a|] eqn:E; [|reflexivity].
  by apply (map_insert_same g l i a).
Qed.

Lemma lookup_updateAt (f : Account -> Account) (l : list Account) i a :
  l !! i = Some a -> updateAt i f l !! i = Some (f a).
Proof.
  intros Ha. unfold updateAt. rewrite Ha.
  apply list_lookup_insert_eq. by eapply lookup_lt_Some.
Qed.

Lemma lookup_updateAt_ne (f : Account -> Account) (l : list Account) i j :
  i <> j -> updateAt i f l !! j = l !! j.
Proof.
  intros Hne. unfold updateAt. destruct (l !! i); [|reflexivity].
  by apply list_lookup_insert_ne.
Qed.

Lemma not_available_of_limited (accounts : list Account) a modelId t :
  isAccountUsable (Some a) modelId t = false -> a ∉ getAvailableAccounts accounts modelId t.
Proof.
  intros Hu Hin. rewrite getAvailableAccounts_filter in Hin.
  apply elem_of_filter_bool in Hin as [_ Hin]. congruence.
Qed.

(** X4.  An email that no account carries makes every mutating operation of
    the tracker a no-op that reports failure. *)
Theorem unknown_email_is_noop
    (DEFAULT_COOLDOWN_MS : Z) (Date_getTime : string -> option Z)
    (accounts : list Account) (e : string) (resetMs : option Z) (settings : Settings)
    (modelId : option string) (reason : string) (remainingFraction : option Q)
    (resetTime : option string) (threshold : Q) (now : Z) :
  (forall a, a ∈ accounts -> email a <> e) ->
  markRateLimited DEFAULT_COOLDOWN_MS accounts e resetMs settings modelId now = (accounts, false) /\
  markInvalid accounts e reason now = (accounts, false) /\
  markSoftLimited Date_getTime accounts e modelId remainingFraction resetTime threshold now
    = (accounts, false) /\
  clearSoftLimit accounts e modelId = (accounts, false) /\
  updateSoftLimitStatus Date_getTime accounts e modelId remainingFraction resetTime threshold now
    = (accounts, mkSoftLimitUpdate false false).
Proof.
  intros H%findIndexByEmail_unknown.
  unfold markRateLimited, markInvalid, markSoftLimited, clearSoftLimit, updateSoftLimitStatus.
  rewrite H. repeat split.
Qed.

Lemma unknown_email_is_noop_witness :
  markRateLimited 60000 [freshAccount "A"; freshAccount "B"] "C" (Some 1000) (mkSettings None)
                  (Some "m") 5000
  = ([freshAccount "A"; freshAccount "B"], false).
Proof.
  refine (proj1 (unknown_email_is_noop 60000 (fun _ => None) [freshAccount "A"; freshAccount "B"]
                   "C" (Some 1000) (mkSettings None) (Some "m") "revoked" (Some (1 # 10)) None
                   (1 # 5) 5000 _)).
  intros a Ha%list_elem_of_In. simpl in Ha.
  destruct Ha as [<- | [<- | []]]; discriminate.
Defined.

(** X5.  [markRateLimited] on a non-empty model id makes the first account
    with the email hard-limited for that model exactly until
    [now + cooldown]: it is unavailable for the model before that instant and
    no longer limited from it on.  Its limits for other models, every other
    account, and the marked account's identity and soft limits are
    unchanged. *)
Theorem markRateLimited_window
    (DEFAULT_COOLDOWN_MS : Z) (accounts : list Account) (e : string) (resetMs : option Z)
    (settings : Settings) (m : string) (now : Z) (a0 : Account) :
  a0 ∈ accounts ->
  email a0 = e ->
  m <> "" ->
  exists (i : nat) (a a' : Account),
    accounts !! i = Some a /\ email a = e /\
    (markRateLimited DEFAULT_COOLDOWN_MS accounts e resetMs settings (Some m) now).1 !! i
      = Some a' /\
    (forall t, hardLimited a' (Some m) t = true <->
               t < now + cooldownMs DEFAULT_COOLDOWN_MS resetMs settings) /\
    (forall t, t < now + cooldownMs DEFAULT_COOLDOWN_MS resetMs settings ->
               a' ∉ getAvailableAccounts
                      (markRateLimited DEFAULT_COOLDOWN_MS accounts e resetMs settings
                                       (Some m) now).1 (Some m) t) /\
    (forall m' t, m' <> m -> hardLimited a' (Some m') t = hardLimited a (Some m') t) /\
    (forall j, j <> i ->
               (markRateLimited DEFAULT_COOLDOWN_MS accounts e resetMs settings (Some m) now).1 !! j
               = accounts !! j) /\
    identityOf a' = identityOf a /\ modelSoftLimits a' = modelSoftLimits a /\
    lastUsed a' = lastUsed a.
Proof.
  intros Ha0 He Hm.
  destruct (findIndexByEmail_elem accounts e a0 Ha0 He) as [i Hi].
  destruct (findIndexByEmail_Some accounts e i Hi) as (a & Ha & Hem & _).
  set (d := cooldownMs DEFAULT_COOLDOWN_MS resetMs settings).
  set (a' := set_modelRateLimits
               (Some (<[m := mkRateLimitState true (Some (now + d))]>
                        (match modelRateLimits a with Some l => l | None => ∅ end))) a).
  assert (Hmark : (markRateLimited DEFAULT_COOLDOWN_MS accounts e resetMs settings (Some m) now).1
                  = updateAt i (fun account =>
                      set_modelRateLimits
                        (Some (<[m := mkRateLimitState true (Some (now + d))]>
                                 (match modelRateLimits account with Some l => l | None => ∅ end)))
                        account) accounts).
  { unfold markRateLimited. by rewrite Hi. }
  assert (Ht : truthyStr (Some m) = true) by (by destruct m).
  assert (Hwin : forall t, hardLimited a' (Some m) t = true <-> t < now + d).
  { intros t. unfold hardLimited. rewrite Ht. simpl. rewrite lookup_insert_eq.
    unfold limitActive. simpl. apply Z.ltb_lt. }
  exists i, a, a'. rewrite Hmark.
  split; [exact Ha|]. split; [exact Hem|].
  split; [by rewrite (lookup_updateAt _ _ _ a Ha)|].
  split; [exact Hwin|].
  split.
  { intros t Hlt. apply not_available_of_limited. simpl.
    rewrite (proj2 (Hwin t) Hlt). by destruct (isInvalid a). }
  split.
  { intros m' t Hne. unfold hardLimited.
    destruct (truthyStr (Some m')); [|reflexivity]. simpl.
    rewrite lookup_insert_ne by congruence.
    destruct (modelRateLimits a); [reflexivity | by rewrite lookup_empty]. }
  split; [intros j Hj; by apply lookup_updateAt_ne|].
  repeat split.
Qed.

Lemma markRateLimited_window_witness :
  exists (i : nat) (a a' : Account),
    [freshAccount "A"; freshAccount "B"] !! i = Some a /\ email a = "B" /\
    (markRateLimited 60000 [freshAccount "A"; freshAccount "B"] "B" (Some 1000)
                     (mkSettings None) (Some "m") 5000).1 !! i = Some a' /\
    (forall t, hardLimited a' (Some "m") t = true <->
               t < 5000 + cooldownMs 60000 (Some 1000) (mkSettings None)) /\
    (forall t, t < 5000 + cooldownMs 60000 (Some 1000) (mkSettings None) ->
               a' ∉ getAvailableAccounts
                      (markRateLimited 60000 [freshAccount "A"; freshAccount "B"] "B" (Some 1000)
                                       (mkSettings None) (Some "m") 5000).1 (Some "m") t) /\
    (forall m' t, m' <> "m" -> hardLimited a' (Some m') t = hardLimited a (Some m') t) /\
    (forall j, j <> i ->
               (markRateLimited 60000 [freshAccount "A"; freshAccount "B"] "B" (Some 1000)
                                (mkSettings None) (Some "m") 5000).1 !! j
               = [freshAccount "A"; freshAccount "B"] !! j) /\
    identityOf a' = identityOf a /\ modelSoftLimits a' = modelSoftLimits a /\
    lastUsed a' = lastUsed a.
Proof.
  apply (markRateLimited_window 60000 [freshAccount "A"; freshAccount "B"] "B" (Some 1000)
           (mkSettings None) "m" 5000 (freshAccount "B")).
  - apply list_elem_of_In. simpl. auto.
  - reflexivity.
  - discriminate.
Defined.

(** X6.  [markInvalid] on a known email returns true and stamps the first
    account with the email as invalid with the reason and [now]; from then
    on that account is neither usable, available nor preferred for any
    model at any instant.  Its limit state and every other account are
    unchanged, and an account that was invalid stays invalid. *)
Theorem markInvalid_excludes
    (accounts : list Account) (e reason : string) (now : Z) (a0 : Account) :
  a0 ∈ accounts ->
  email a0 = e ->
  (markInvalid accounts e reason now).2 = true /\
  exists (i : nat) (a : Account),
    accounts !! i = Some a /\ email a = e /\
    (markInvalid accounts e reason now).1 = <[i := set_invalid reason now a]> accounts /\
    isInvalid (set_invalid reason now a) = true /\
    invalidReason (set_invalid reason now a) = Some reason /\
    invalidAt (set_invalid reason now a) = Some now /\
    modelRateLimits (set_invalid reason now a) = modelRateLimits a /\
    modelSoftLimits (set_invalid reason now a) = modelSoftLimits a /\
    (forall modelId threshold t,
        isAccountUsable (Some (set_invalid reason now a)) modelId t = false /\
        (set_invalid reason now a ∉ getAvailableAccounts (markInvalid accounts e reason now).1
                                      modelId t) /\
        (set_invalid reason now a ∉ getPreferredAccounts (markInvalid accounts e reason now).1
                                      modelId threshold t)) /\
    map email (markInvalid accounts e reason now).1 = map email accounts /\
    (forall j b, accounts !! j = Some b -> isInvalid b = true ->
                 exists b', (markInvalid accounts e reason now).1 !! j = Some b' /\
                            isInvalid b' = true).
Proof.
  intros Ha0 He.
  destruct (findIndexByEmail_elem accounts e a0 Ha0 He) as [i Hi].
  destruct (findIndexByEmail_Some accounts e i Hi) as (a & Ha & Hem & _).
  assert (Hmark : markInvalid accounts e reason now
                  = (<[i := set_invalid reason now a]> accounts, true)).
  { unfold markInvalid, updateAt. by rewrite Hi, Ha. }
  rewrite Hmark. simpl. split; [reflexivity|].
  exists i, a. repeat split; try assumption.
  - by apply not_available_of_limited.
  - intros Hin. rewrite getPreferredAccounts_filter in Hin.
    apply elem_of_filter_bool in Hin as [_ Hin]. discriminate Hin.
  - by apply (map_insert_same email accounts i a).
  - intros j b Hb Hinv. destruct (decide (i = j)) as [<- | Hne].
    + exists (set_invalid reason now a). split; [|reflexivity].
      apply list_lookup_insert_eq. by eapply lookup_lt_Some.
    + exists b. split; [|exact Hinv]. by rewrite list_lookup_insert_ne.
Qed.

Lemma markInvalid_excludes_witness :
  (markInvalid [freshAccount "A"; freshAccount "B"] "B" "token revoked" 5000).2 = true.
Proof.
  apply (markInvalid_excludes [freshAccount "A"; freshAccount "B"] "B" "token revoked" 5000
           (freshAccount "B")).
  - apply list_elem_of_In. simpl. auto.
  - reflexivity.
Defined.

(** ** Soft limits never touch availability *)

Lemma sameHardState_cons a b l1 l2 :
  sameHardState (a :: l1) (b :: l2) <->
  identityOf a = identityOf b /\ modelRateLimits a = modelRateLimits b /\ sameHardState l1 l2.
Proof.
  unfold sameHardState. simpl. split.
  - intros [H1 H2].
    pose proof (f_equal (hd (identityOf a)) H1) as Ha.
    pose proof (f_equal (@tl _) H1) as Hl1.
    pose proof (f_equal (hd (modelRateLimits a)) H2) as Hb.
    pose proof (f_equal (@tl _) H2) as Hl2.
    simpl in *. auto.
  - intros (-> & -> & -> & ->). split; reflexivity.
Qed.

Lemma sameHardState_length l1 l2 : sameHardState l1 l2 -> length l1 = length l2.
Proof. intros [H _]. apply (f_equal (@length _)) in H. by rewrite !length_map in H. Qed.

Lemma hardLimited_same a b modelId t :
  modelRateLimits a = modelRateLimits b -> hardLimited a modelId t = hardLimited b modelId t.
Proof. unfold hardLimited. by intros ->. Qed.

Lemma sameHardState_available l1 l2 modelId t :
  sameHardState l1 l2 ->
  map email (getAvailableAccounts l1 modelId t) = map email (getAvailableAccounts l2 modelId t).
Proof.
  revert l2. induction l1 as [|a l1 IH]; intros [|b l2] H;
    try (apply sameHardState_length in H; discriminate); [reflexivity|].
  apply sameHardState_cons in H as (Hid & Hrl & H).
  unfold getAvailableAccounts in *. simpl.
  rewrite (hardLimited_same a b modelId t Hrl).
  assert (isInvalid a = isInvalid b) as -> by (unfold identityOf in Hid; congruence).
  assert (email a = email b) as He by (unfold identityOf in Hid; congruence).
  destruct (isInvalid b); [by apply IH|].
  destruct (hardLimited b modelId t); [by apply IH|].
  simpl. rewrite He. f_equal. by apply IH.
Qed.

Lemma sameHardState_allRateLimited l1 l2 modelId t :
  sameHardState l1 l2 -> isAllRateLimited l1 modelId t = isAllRateLimited l2 modelId t.
Proof.
  intros H. unfold isAllRateLimited. rewrite (sameHardState_length _ _ H).
  destruct (length l2 =? 0)%nat; [reflexivity|].
  destruct (negb (truthyStr modelId)); [reflexivity|].
  revert l2 H. induction l1 as [|a l1 IH]; intros [|b l2] H;
    try (apply sameHardState_length in H; discriminate); [reflexivity|].
  apply sameHardState_cons in H as (Hid & Hrl & H). simpl.
  assert (isInvalid a = isInvalid b) as -> by (unfold identityOf in Hid; congruence).
  rewrite Hrl, (IH l2 H). reflexivity.
Qed.

Lemma sameHardState_minWait l1 l2 modelId t acc :
  sameHardState l1 l2 ->
  fold_left (minWaitStep modelId t) l1 acc = fold_left (minWaitStep modelId t) l2 acc.
Proof.
  revert l2 acc. induction l1 as [|a l1 IH]; intros [|b l2] acc H;
    try (apply sameHardState_length in H; discriminate); [reflexivity|].
  apply sameHardState_cons in H as (_ & Hrl & H). simpl.
  replace (minWaitStep modelId t acc a) with (minWaitStep modelId t acc b)
    by (unfold minWaitStep; by rewrite Hrl).
  by apply IH.
Qed.

Lemma identityOf_soft v a : identityOf (set_modelSoftLimits v a) = identityOf a.
Proof. reflexivity. Qed.

Lemma sameHardState_map (f : Account -> Account) l :
  (forall a, identityOf (f a) = identityOf a) ->
  (forall a, modelRateLimits (f a) = modelRateLimits a) ->
  sameHardState (map f l) l.
Proof.
  intros H1 H2. split; rewrite map_map; apply map_ext; auto.
Qed.

Lemma sameHardState_insert l i a x :
  l !! i = Some a -> identityOf x = identityOf a -> modelRateLimits x = modelRateLimits a ->
  sameHardState (<[i := x]> l) l.
Proof. intros Ha H1 H2. split; by apply (map_insert_same _ l i a). Qed.

Lemma sameHardState_refl l : sameHardState l l.
Proof. by split. Qed.

Lemma markSoftLimited_sameHardState P accounts e modelId fraction resetTime threshold now :
  sameHardState (markSoftLimited P accounts e modelId fraction resetTime threshold now).1 accounts.
Proof.
  unfold markSoftLimited. destruct (findIndexByEmail accounts e) as [i|]; simpl;
    [|apply sameHardState_refl].
  unfold updateAt. destruct (accounts !! i) as [a|] eqn:Ha; [|apply sameHardState_refl].
  by apply (sameHardState_insert accounts i a).
Qed.

Lemma clearSoftLimit_sameHardState accounts e modelId :
  sameHardState (clearSoftLimit accounts e modelId).1 accounts.
Proof.
  unfold clearSoftLimit. destruct (findIndexByEmail accounts e) as [i|]; simpl;
    [|apply sameHardState_refl].
  destruct (accounts !! i) as [a|] eqn:Ha; [|apply sameHardState_refl].
  destruct (modelSoftLimits a) as [limits|]; [|apply sameHardState_refl].
  destruct (limits !! propKey modelId); [|apply sameHardState_refl].
  by apply (sameHardState_insert accounts i a).
Qed.

Lemma updateSoftLimitStatus_sameHardState P accounts e modelId fraction resetTime threshold now :
  sameHardState
    (updateSoftLimitStatus P accounts e modelId fraction resetTime threshold now).1 accounts.
Proof.
  unfold updateSoftLimitStatus. destruct (findIndexByEmail accounts e) as [i|] eqn:Hi; simpl;
    [|apply sameHardState_refl].
  destruct (accounts !! i) as [a|]; [|apply sameHardState_refl].
  destruct (_ && negb _); [apply markSoftLimited_sameHardState|].
  destruct (negb _ && _); [apply clearSoftLimit_sameHardState | apply sameHardState_refl].
Qed.

(** X7.  No soft-limit operation changes availability.  [markSoftLimited],
    [clearSoftLimit], [clearExpiredSoftLimits] and [updateSoftLimitStatus]
    leave every account's identity, validity and hard limits as they were;
    and sequences that agree on those give the same available accounts, the
    same [isAllRateLimited] and the same [getMinWaitTimeMs] for every model
    and instant. *)
Theorem soft_limits_never_touch_availability
    (DEFAULT_COOLDOWN_MS : Z) (Date_getTime : string -> option Z)
    (accounts : list Account) (e : string) (modelId : option string)
    (remainingFraction : option Q) (resetTime : option string) (threshold : Q) (now : Z) :
  sameHardState
    (markSoftLimited Date_getTime accounts e modelId remainingFraction resetTime threshold now).1
    accounts /\
  sameHardState (clearSoftLimit accounts e modelId).1 accounts /\
  sameHardState (clearExpiredSoftLimits accounts now).1 accounts /\
  sameHardState
    (updateSoftLimitStatus Date_getTime accounts e modelId remainingFraction resetTime
                           threshold now).1 accounts /\
  (forall (l1 l2 : list Account) (m : option string) (t : Z),
      sameHardState l1 l2 ->
      map email (getAvailableAccounts l1 m t) = map email (getAvailableAccounts l2 m t) /\
      isAllRateLimited l1 m t = isAllRateLimited l2 m t /\
      getMinWaitTimeMs DEFAULT_COOLDOWN_MS l1 m t = getMinWaitTimeMs DEFAULT_COOLDOWN_MS l2 m t).
Proof.
  split; [apply markSoftLimited_sameHardState|].
  split; [apply clearSoftLimit_sameHardState|].
  split.
  { simpl. apply sameHardState_map; intros a; unfold expireSoftLimits;
      by destruct (modelSoftLimits a). }
  split; [apply updateSoftLimitStatus_sameHardState|].
  intros l1 l2 m t H. split; [by apply sameHardState_available|].
  split; [by apply sameHardState_allRateLimited|].
  unfold getMinWaitTimeMs.
  rewrite (sameHardState_allRateLimited l1 l2 m t H), (sameHardState_minWait l1 l2 m t None H).
  reflexivity.
Qed.

(** ** The minimum wait *)

Lemma minWaitStep_positiveWait modelId now acc a :
  minWaitStep modelId now acc a
  = match positiveWait modelId now a with
    | Some w => match acc with
                | Some x => if w <? x then Some w else acc
                | None => Some w
                end
    | None => acc
    end.
Proof.
  unfold minWaitStep, positiveWait.
  destruct (truthyStr modelId); [|reflexivity].
  destruct (modelRateLimits a) as [limits|]; [|reflexivity].
  destruct (limits !! propKey modelId) as [limit|]; [|reflexivity].
  destruct (rl_isRateLimited limit && truthyNum (rl_resetTime limit)); simpl; [|reflexivity].
  destruct (0 <? toNum (rl_resetTime limit) - now); simpl; [|reflexivity].
  by destruct acc.
Qed.

Lemma positiveWait_pos modelId now a w : positiveWait modelId now a = Some w -> 0 < w.
Proof.
  unfold positiveWait.
  destruct (truthyStr modelId); [|discriminate].
  destruct (modelRateLimits a) as [limits|]; [|discriminate].
  destruct (limits !! propKey modelId) as [limit|]; [|discriminate].
  destruct (rl_isRateLimited limit && truthyNum (rl_resetTime limit)); simpl; [|discriminate].
  destruct (Z.ltb_spec 0 (toNum (rl_resetTime limit) - now)); [|discriminate].
  intros [= <-]. assumption.
Qed.

(** The loop of [getMinWaitTimeMs] from any accumulator: the result is the
    least of the accumulator and the waits read off the accounts. *)
Lemma minWait_fold modelId now accounts acc :
  match fold_left (minWaitStep modelId now) accounts acc with
  | None => acc = None /\ forall a, In a accounts -> positiveWait modelId now a = None
  | Some r =>
      (acc = Some r \/ exists a, In a accounts /\ positiveWait modelId now a = Some r) /\
      (forall x, acc = Some x -> r <= x) /\
      (forall a w, In a accounts -> positiveWait modelId now a = Some w -> r <= w)
  end.
Proof.
  revert acc. induction accounts as [|a l IH]; intros acc; simpl.
  - destruct acc as [x|].
    + split; [by left|]. split; [intros y [= <-]; lia | intros ? ? []].
    + split; [reflexivity | intros ? []].
  - specialize (IH (minWaitStep modelId now acc a)).
    rewrite minWaitStep_positiveWait in IH |- *.
    destruct (fold_left _ l _) as [r|].
    + destruct IH as (Hsrc & Hacc & Hall).
      destruct (positiveWait modelId now a) as [w|] eqn:Hw.
      * destruct acc as [x|].
        -- destruct (Z.ltb_spec w x).
           ++ split; [|split].
              ** destruct Hsrc as [[= <-] | (b & Hb & Hr)]; right; eauto.
              ** intros y [= <-]. specialize (Hacc w eq_refl). lia.
              ** intros b v [<- | Hb] Hv; [|eauto].
                 rewrite Hw in Hv. injection Hv as <-. by apply Hacc.
           ++ split; [|split].
              ** destruct Hsrc as [Hs | (b & Hb & Hr)]; [by left | right; eauto].
              ** exact Hacc.
              ** intros b v [<- | Hb] Hv; [|eauto].
                 rewrite Hw in Hv. injection Hv as <-. specialize (Hacc x eq_refl). lia.
        -- split; [|split].
           ++ destruct Hsrc as [[= <-] | (b & Hb & Hr)]; right; eauto.
           ++ discriminate.
           ++ intros b v [<- | Hb] Hv; [|eauto].
              rewrite Hw in Hv. injection Hv as <-. by apply Hacc.
      * split; [|split].
        -- destruct Hsrc as [Hs | (b & Hb & Hr)]; [by left | right; eauto].
        -- exact Hacc.
        -- intros b v [<- | Hb] Hv; [congruence | eauto].
    + destruct IH as (Hnone & Hall).
      destruct (positiveWait modelId now a) as [w|] eqn:Hw.
      * destruct acc as [x|]; [destruct (w <? x)|]; discriminate.
      * split; [exact Hnone|]. intros b [<- | Hb]; [exact Hw | eauto].
Qed.

(** X8.  [getMinWaitTimeMs] is 0 unless [isAllRateLimited] holds.  When it
    holds, the result is the least positive remaining wait among the
    hard-limit entries for the model, invalid accounts included: it is
    positive, attained by some account and below every other positive wait;
    when no account has a positive wait it is the default cooldown, which is
    also the answer for the empty sequence. *)
Theorem getMinWaitTimeMs_is_least_wait
    (DEFAULT_COOLDOWN_MS : Z) (accounts : list Account) (modelId : option string) (now : Z) :
  (isAllRateLimited accounts modelId now = false ->
   getMinWaitTimeMs DEFAULT_COOLDOWN_MS accounts modelId now = 0) /\
  (isAllRateLimited accounts modelId now = true ->
   ((forall a, a ∈ accounts -> positiveWait modelId now a = None) /\
    getMinWaitTimeMs DEFAULT_COOLDOWN_MS accounts modelId now = DEFAULT_COOLDOWN_MS) \/
   (0 < getMinWaitTimeMs DEFAULT_COOLDOWN_MS accounts modelId now /\
    (exists a, a ∈ accounts /\
               positiveWait modelId now a
               = Some (getMinWaitTimeMs DEFAULT_COOLDOWN_MS accounts modelId now)) /\
    (forall a w, a ∈ accounts -> positiveWait modelId now a = Some w ->
                 getMinWaitTimeMs DEFAULT_COOLDOWN_MS accounts modelId now <= w))) /\
  getMinWaitTimeMs DEFAULT_COOLDOWN_MS [] modelId now = DEFAULT_COOLDOWN_MS.
Proof.
  split; [|split; [|reflexivity]].
  - intros H. unfold getMinWaitTimeMs. by rewrite H.
  - intros H. unfold getMinWaitTimeMs. rewrite H. simpl.
    pose proof (minWait_fold modelId now accounts None) as F.
    destruct (fold_left (minWaitStep modelId now) accounts None) as [r|].
    + right. destruct F as ([Hs | (a & Ha & Hr)] & _ & Hall); [discriminate|].
      split; [by apply (positiveWait_pos modelId now a)|].
      split; [exists a; split; [by apply list_elem_of_In | exact Hr]|].
      intros b w Hb%list_elem_of_In Hw. eauto.
    + left. destruct F as [_ Hall]. split; [|reflexivity].
      intros a Ha%list_elem_of_In. eauto.
Qed.

(** ** Preferred accounts and soft limits *)

Lemma filter_filter_bool {A} (f g : A -> bool) (l : list A) :
  List.filter g (List.filter f l) = List.filter (fun x => f x && g x) l.
Proof.
  induction l as [|x l IH]; simpl; [reflexivity|].
  destruct (f x); simpl; [|exact IH]. destruct (g x); simpl; congruence.
Qed.

Lemma isSoftLimited_falsy a modelId threshold now :
  truthyStr modelId = false -> isSoftLimited a modelId threshold now = false.
Proof. unfold isSoftLimited. by intros ->. Qed.

Lemma getPreferredAccounts_of_available accounts modelId threshold now :
  getPreferredAccounts accounts modelId threshold now
  = List.filter (fun a => negb (isSoftLimited a modelId threshold now))
                (getAvailableAccounts accounts modelId now).
Proof.
  unfold getPreferredAccounts, getAvailableAccounts. rewrite filter_filter_bool.
  apply filter_ext. intros a.
  destruct (isInvalid a); [reflexivity|].
  destruct (hardLimited a modelId now); [reflexivity|]. simpl.
  destruct (truthyStr modelId) eqn:Ht; simpl.
  - by destruct (isSoftLimited a modelId threshold now).
  - by rewrite isSoftLimited_falsy.
Qed.

(** X9.  The preferred accounts are the available accounts that are not
    soft-limited, in the same order; without a model id (null or empty) they
    are all the available accounts.  For a non-empty account sequence
    [isAllSoftLimited] holds exactly when some account is available and none
    is preferred. *)
Theorem getPreferredAccounts_refines_available
    (accounts : list Account) (modelId : option string) (threshold : Q) (now : Z) :
  getPreferredAccounts accounts modelId threshold now
  = List.filter (fun a => negb (isSoftLimited a modelId threshold now))
                (getAvailableAccounts accounts modelId now) /\
  (truthyStr modelId = false ->
   getPreferredAccounts accounts modelId threshold now
   = getAvailableAccounts accounts modelId now) /\
  (accounts <> [] ->
   (isAllSoftLimited accounts modelId threshold now = true <->
    getAvailableAccounts accounts modelId now <> [] /\
    getPreferredAccounts accounts modelId threshold now = [])).
Proof.
  split; [apply getPreferredAccounts_of_available|]. split.
  - intros Ht. rewrite getPreferredAccounts_of_available.
    rewrite <- (filter_ext (fun _ => true)) at 1.
    + induction (getAvailableAccounts accounts modelId now) as [|x l IH]; simpl; congruence.
    + intros a. by rewrite isSoftLimited_falsy.
  - intros Hne. rewrite getPreferredAccounts_of_available.
    unfold isAllSoftLimited. destruct accounts as [|a0 rest]; [done|].
    change (length (a0 :: rest) =? 0)%nat with false. cbv iota.
    set (available := getAvailableAccounts (a0 :: rest) modelId now).
    destruct (truthyStr modelId) eqn:Ht; simpl.
    + destruct available as [|b l] eqn:E.
      * simpl. split; [discriminate | intros [H _]; done].
      * change (length (b :: l) =? 0)%nat with false. cbv iota.
        rewrite filter_nil_forallb. split.
        -- intros H. split; [discriminate|].
           erewrite forallb_congr; [exact H|]. intros x. simpl. by rewrite negb_involutive.
        -- intros [_ H]. erewrite forallb_congr; [exact H|].
           intros x. simpl. by rewrite negb_involutive.
    + split; [discriminate|]. intros [Hav Hnil]. exfalso.
      destruct available as [|b l]; [done|]. simpl in Hnil.
      rewrite isSoftLimited_falsy in Hnil by exact Ht. discriminate.
Qed.

Lemma getPreferredAccounts_refines_available_witness :
  isAllSoftLimited [softLimitedAccount "A" "m" 0; hardLimitedAccount "B" "m" 9000] (Some "m")
                   (1 # 5) 1000 = true <->
  getAvailableAccounts [softLimitedAccount "A" "m" 0; hardLimitedAccount "B" "m" 9000]
                       (Some "m") 1000 <> [] /\
  getPreferredAccounts [softLimitedAccount "A" "m" 0; hardLimitedAccount "B" "m" 9000]
                       (Some "m") (1 # 5) 1000 = [].
Proof.
  apply (proj2 (proj2 (getPreferredAccounts_refines_available
                         [softLimitedAccount "A" "m" 0; hardLimitedAccount "B" "m" 9000]
                         (Some "m") (1 # 5) 1000))).
  discriminate.
Defined.

(** ** Marking and clearing a soft limit *)

Lemma isSoftLimited_entry a m limits limit threshold t :
  m <> "" ->
  modelSoftLimits a = Some limits -> limits !! m = Some limit ->
  sl_isSoftLimited limit = true ->
  (isSoftLimited a (Some m) threshold t = true <-> resetNotPast (sl_resetTime limit) t).
Proof.
  intros Hm Hl Hk Hf. unfold isSoftLimited, resetNotPast, softExpired.
  destruct m as [|c m]; [done|]. simpl. rewrite Hl. simpl in Hk. rewrite Hk, Hf. simpl.
  destruct (sl_resetTime limit) as [r|]; simpl.
  - destruct (Z.eqb_spec r 0) as [-> | Hz]; simpl.
    + split; [|reflexivity]. intros _ t' [= <-] Hne. done.
    + destruct (Z.leb_spec r t) as [Hle | Hgt]; split; try discriminate; try reflexivity.
      * intros Hr. specialize (Hr r eq_refl Hz). lia.
      * intros _ t' [= <-] _. lia.
  - split; [|reflexivity]. intros _ t' [=].
Qed.

(** X10.  [markSoftLimited] on a known email and a non-empty model id stores
    [{isSoftLimited: true, remainingFraction, resetTime, markedAt: now}]
    for the model on the first account with the email, replacing any earlier
    entry; [isSoftLimited] then holds at an instant exactly when the stored
    reset time is absent, zero or later than it.  A following
    [clearSoftLimit] returns true and removes the entry, after which
    [isSoftLimited] is false and a second [clearSoftLimit] is a no-op that
    returns false. *)
Theorem markSoftLimited_then_clear
    (Date_getTime : string -> option Z) (accounts : list Account) (e m : string)
    (remainingFraction : option Q) (resetTime : option string) (threshold : Q) (now : Z)
    (a0 : Account) :
  a0 ∈ accounts ->
  email a0 = e ->
  m <> "" ->
  let marked := markSoftLimited Date_getTime accounts e (Some m) remainingFraction resetTime
                                threshold now in
  let cleared := clearSoftLimit marked.1 e (Some m) in
  exists (i : nat) (a : Account),
    accounts !! i = Some a /\ email a = e /\
    marked.2 = true /\
    softLimitOf marked.1 i m
      = Some (mkSoftLimitState true remainingFraction (parsedReset Date_getTime resetTime) now) /\
    (forall a' t, marked.1 !! i = Some a' ->
       (isSoftLimited a' (Some m) threshold t = true <->
        resetNotPast (parsedReset Date_getTime resetTime) t)) /\
    cleared.2 = true /\
    softLimitOf cleared.1 i m = None /\
    (forall a'' t, cleared.1 !! i = Some a'' -> isSoftLimited a'' (Some m) threshold t = false) /\
    clearSoftLimit cleared.1 e (Some m) = (cleared.1, false).
Proof.
  intros Ha0 He Hm marked cleared.
  destruct (findIndexByEmail_elem accounts e a0 Ha0 He) as [i Hi].
  destruct (findIndexByEmail_Some accounts e i Hi) as (a & Ha & Hem & _).
  set (entry := mkSoftLimitState true remainingFraction (parsedReset Date_getTime resetTime) now).
  set (limits := <[m := entry]> (match modelSoftLimits a with Some l => l | None => ∅ end)).
  assert (Hlt : (i < length accounts)%nat) by (by eapply lookup_lt_Some).
  assert (Hmarked : marked = (<[i := set_modelSoftLimits (Some limits) a]> accounts, true)).
  { subst marked. unfold markSoftLimited, updateAt. by rewrite Hi, Ha. }
  assert (Hi1 : findIndexByEmail marked.1 e = Some i).
  { rewrite <- Hi. apply findIndexByEmail_emails. rewrite Hmarked. simpl.
    by apply (map_insert_same email accounts i a). }
  assert (Hcleared :
    cleared = (<[i := set_modelSoftLimits (Some (delete m limits)) a]> accounts, true)).
  { subst cleared. unfold clearSoftLimit. rewrite Hi1, Hmarked. simpl.
    rewrite list_lookup_insert_eq by exact Hlt. simpl.
    subst limits. rewrite lookup_insert_eq.
    by rewrite list_insert_insert_eq. }
  exists i, a. rewrite Hcleared, Hmarked. simpl.
  split; [exact Ha|]. split; [exact Hem|]. split; [reflexivity|].
  split.
  { unfold softLimitOf. rewrite list_lookup_insert_eq by exact Hlt. simpl.
    subst limits. apply lookup_insert_eq. }
  split.
  { intros a' t. rewrite list_lookup_insert_eq by exact Hlt. intros [= <-].
    apply (isSoftLimited_entry _ m limits entry); auto.
    subst limits. apply lookup_insert_eq. }
  split; [reflexivity|].
  split.
  { unfold softLimitOf. rewrite list_lookup_insert_eq by exact Hlt. simpl.
    apply lookup_delete_eq. }
  split.
  { intros a'' t. rewrite list_lookup_insert_eq by exact Hlt. intros [= <-].
    unfold isSoftLimited. destruct m as [|c m]; [done|]. simpl.
    by rewrite lookup_delete_eq. }
  unfold clearSoftLimit.
  replace (findIndexByEmail (<[i := set_modelSoftLimits (Some (delete m limits)) a]> accounts) e)
    with (Some i).
  - rewrite list_lookup_insert_eq by exact Hlt. simpl.
    by rewrite lookup_delete_eq.
  - rewrite <- Hi. symmetry. apply findIndexByEmail_emails.
    by apply (map_insert_same email accounts i a).
Qed.

Lemma markSoftLimited_then_clear_witness :
  softLimitOf (markSoftLimited (fun _ => Some 9000) [freshAccount "A"; freshAccount "B"] "B"
                               (Some "m") (Some (1 # 10)) (Some "2026-01-01T00:00:00Z")
                               (1 # 5) 1000).1 1 "m"
  = Some (mkSoftLimitState true (Some (1 # 10)) (Some 9000) 1000).
Proof.
  destruct (markSoftLimited_then_clear (fun _ => Some 9000) [freshAccount "A"; freshAccount "B"]
              "B" "m" (Some (1 # 10)) (Some "2026-01-01T00:00:00Z") (1 # 5) 1000
              (freshAccount "B"))
    as (i & a & Ha & He & _).
  - apply list_elem_of_In. simpl. auto.
  - reflexivity.
  - discriminate.
  - reflexivity.
Defined.

(** ** The soft-limit update *)

Lemma shouldBeSoftLimited_spec fraction threshold :
  shouldBeSoftLimited fraction threshold = true <->
  exists q, fraction = Some q /\ (0 <= q)%Q /\ (q < threshold)%Q.
Proof.
  unfold shouldBeSoftLimited. destruct fraction as [q|].
  - destruct (Qlt_le_dec q threshold) as [Hlt | Hge]; simpl.
    + rewrite Qle_bool_iff. split.
      * intros H. exists q. auto.
      * intros (q' & [= <-] & H & _). exact H.
    + split; [discriminate|]. intros (q' & [= <-] & _ & Hlt).
      exfalso. exact (Qlt_not_le _ _ Hlt Hge).
  - split; [discriminate|]. intros (q & [=] & _).
Qed.

(** X11.  On a known email [updateSoftLimitStatus] reports as
    [isSoftLimited] the threshold test on the fraction, which holds exactly
    for [0 <= fraction < threshold], and reports [changed] exactly when
    that differs from what [isSoftLimited] answered before the call. *)
Theorem updateSoftLimitStatus_reports_transition
    (Date_getTime : string -> option Z) (accounts : list Account) (e : string)
    (modelId : option string) (remainingFraction : option Q) (resetTime : option string)
    (threshold : Q) (now : Z) (i : nat) (account : Account) :
  findIndexByEmail accounts e = Some i ->
  accounts !! i = Some account ->
  let r := updateSoftLimitStatus Date_getTime accounts e modelId remainingFraction resetTime
                                 threshold now in
  (upd_isSoftLimited r.2 = true <->
   exists q, remainingFraction = Some q /\ (0 <= q)%Q /\ (q < threshold)%Q) /\
  (changed r.2 = true <->
   upd_isSoftLimited r.2 <> isSoftLimited account modelId threshold now) /\
  (changed r.2 = false -> r.1 = accounts).
Proof.
  intros Hi Ha r. subst r. rewrite <- shouldBeSoftLimited_spec.
  unfold updateSoftLimitStatus. rewrite Hi, Ha.
  destruct (shouldBeSoftLimited remainingFraction threshold),
           (isSoftLimited account modelId threshold now); simpl;
    repeat split; try discriminate; try congruence; try tauto.
Qed.

Lemma updateSoftLimitStatus_reports_transition_witness :
  upd_isSoftLimited
    (updateSoftLimitStatus (fun _ => None) [freshAccount "A"] "A" (Some "m") (Some (1 # 10))
                           None (1 # 5) 1000).2 = true <->
  exists q, Some (1 # 10) = Some q /\ (0 <= q)%Q /\ (q < 1 # 5)%Q.
Proof.
  apply (updateSoftLimitStatus_reports_transition (fun _ => None) [freshAccount "A"] "A"
           (Some "m") (Some (1 # 10)) None (1 # 5) 1000 0%nat (freshAccount "A"));
    reflexivity.
Defined.



(** * Further properties of the selectors *)

Lemma identityOf_swept now a : identityOf (swept now a) = identityOf a.
Proof.
  unfold swept, expireSoftLimits, expireLimits.
  by destruct a as [? ? ? ? ? [?|] [?|] ? ?].
Qed.

Lemma map_identityOf_swept now accounts :
  map identityOf (map (swept now) accounts) = map identityOf accounts.
Proof. rewrite map_map. apply map_ext. intros a. apply identityOf_swept. Qed.

Lemma map_identityOf_stamped now accounts idx b :
  accounts !! idx = Some b ->
  map identityOf (<[idx := set_lastUsed (Some now) (swept now b)]> (map (swept now) accounts))
  = map identityOf accounts.
Proof.
  intros Hb. rewrite (map_insert_same identityOf _ idx (swept now b)).
  - apply map_identityOf_swept.
  - by rewrite lookup_map, Hb.
  - reflexivity.
Qed.

(** X13.  [pickNext] returns no account exactly when no account is
    hard-available; then the cursor it returns is the one it was given and
    [onSave] is not invoked.  When it returns an account, the new cursor is
    a valid index at which the account array holds the returned account,
    the account is stamped with [lastUsed = now], [onSave] is invoked once
    when given, and no account is added, removed, reordered or changed in
    identity or validity. *)
Theorem pickNext_null_iff_none_available
    (SOFT_LIMIT_THRESHOLD : Q) (accounts : list Account) (currentIndex : nat) (onSave : bool)
    (modelId : option string) (softLimitEnabled : bool) (now : Z) :
  let p := pickNext SOFT_LIMIT_THRESHOLD accounts currentIndex onSave modelId
                    softLimitEnabled now in
  (sel_account (ret p) = None <-> getAvailableAccounts accounts modelId now = []) /\
  (sel_account (ret p) = None ->
   sel_newIndex (ret p) = currentIndex /\ saves p = 0%nat /\
   accountsAfter p = map (swept now) accounts) /\
  (forall a, sel_account (ret p) = Some a ->
     (sel_newIndex (ret p) < length accounts)%nat /\
     accountsAfter p !! sel_newIndex (ret p) = Some a /\
     lastUsed a = Some now /\
     (exists b, accounts !! sel_newIndex (ret p) = Some b /\ identityOf a = identityOf b) /\
     saves p = (if onSave then 1%nat else 0%nat)) /\
  map identityOf (accountsAfter p) = map identityOf accounts.
Proof.
  intros p. subst p.
  destruct (pickNext_cases SOFT_LIMIT_THRESHOLD now modelId accounts currentIndex onSave
              softLimitEnabled) as [[Hav ->] | (Hav & i & b & Hi & Hb & _ & _ & ->)]; simpl.
  - split; [tauto|]. split; [auto|]. split; [discriminate|]. apply map_identityOf_swept.
  - pose proof (lookup_lt_Some _ _ _ Hb) as Hlt.
    split; [split; [discriminate | done]|]. split; [discriminate|].
    split; [|by apply map_identityOf_stamped].
    intros a [= <-]. split; [exact Hlt|].
    split; [apply list_lookup_insert_eq; by rewrite length_map|].
    split; [reflexivity|]. split; [|reflexivity].
    exists b. split; [exact Hb|]. simpl. apply identityOf_swept.
Qed.

(** X14.  Soft limits are a preference that [pickNext] honours whenever it
    can: with soft limits enabled, a truthy model id and at least one
    preferred account, the account returned is not soft-limited for the
    model; with no preferred account but some available account it still
    returns an account. *)
Theorem pickNext_prefers_unlimited
    (SOFT_LIMIT_THRESHOLD : Q) (accounts : list Account) (currentIndex : nat) (onSave : bool)
    (modelId : option string) (now : Z) :
  truthyStr modelId = true ->
  let p := pickNext SOFT_LIMIT_THRESHOLD accounts currentIndex onSave modelId true now in
  (getPreferredAccounts accounts modelId SOFT_LIMIT_THRESHOLD now <> [] ->
   exists a, sel_account (ret p) = Some a /\
             isSoftLimited a modelId SOFT_LIMIT_THRESHOLD now = false) /\
  (getPreferredAccounts accounts modelId SOFT_LIMIT_THRESHOLD now = [] ->
   getAvailableAccounts accounts modelId now <> [] ->
   exists a, sel_account (ret p) = Some a /\
             isSoftLimited a modelId SOFT_LIMIT_THRESHOLD now = true).
Proof.
  intros Ht p. subst p.
  destruct (pickNext_cases SOFT_LIMIT_THRESHOLD now modelId accounts currentIndex onSave true)
    as [[Hav ->] | (Hav & i & b & Hi & Hb & Hw & _ & ->)]; simpl.
  - split.
    + intros Hp. exfalso. apply Hp.
      by rewrite getPreferredAccounts_of_available, Hav.
    + intros _ Hne. done.
  - unfold wanted in Hw. rewrite Ht in Hw. simpl in Hw.
    assert (Hin : b ∈ accounts) by (apply list_elem_of_lookup; eauto).
    split.
    + intros Hp.
      destruct (getPreferredAccounts accounts modelId SOFT_LIMIT_THRESHOLD now) eqn:E; [done|].
      simpl in Hw. exists (set_lastUsed (Some now) (swept now b)). split; [reflexivity|].
      change (isSoftLimited (swept now b) modelId SOFT_LIMIT_THRESHOLD now = false).
      rewrite isSoftLimited_swept.
      unfold isAccountPreferred in Hw.
      destruct (isAccountUsable (Some b) modelId now); [|discriminate].
      rewrite Ht in Hw. simpl in Hw.
      by destruct (isSoftLimited b modelId SOFT_LIMIT_THRESHOLD now).
    + intros Hp _. rewrite Hp in Hw. simpl in Hw.
      exists (set_lastUsed (Some now) (swept now b)). split; [reflexivity|].
      change (isSoftLimited (swept now b) modelId SOFT_LIMIT_THRESHOLD now = true).
      rewrite isSoftLimited_swept.
      destruct (isSoftLimited b modelId SOFT_LIMIT_THRESHOLD now) eqn:Hs; [reflexivity|].
      exfalso.
      assert (Hx : b ∈ getPreferredAccounts accounts modelId SOFT_LIMIT_THRESHOLD now).
      { rewrite getPreferredAccounts_filter. apply elem_of_filter_bool. split; [exact Hin|].
        unfold isAccountPreferred.
        change (isAccountUsable (Some b) modelId now = true) in Hw.
        by rewrite Hw, Ht, Hs. }
      rewrite Hp in Hx. by apply not_elem_of_nil in Hx.
Qed.

Lemma pickNext_prefers_unlimited_witness :
  exists a,
    sel_account (ret (pickNext (1 # 5)
                        [freshAccount "A"; softLimitedAccount "B" "m" 0; freshAccount "C"]
                        0 true (Some "m") true 1000)) = Some a /\
    isSoftLimited a (Some "m") (1 # 5) 1000 = false.
Proof.
  apply (proj1 (pickNext_prefers_unlimited (1 # 5)
                  [freshAccount "A"; softLimitedAccount "B" "m" 0; freshAccount "C"]
                  0%nat true (Some "m") 1000 eq_refl)).
  vm_compute. discriminate.
Defined.

(** ** The sticky read and the wait decision *)

Lemma clampIndex_lt accounts currentIndex :
  accounts <> [] -> (clampIndex accounts currentIndex < length accounts)%nat.
Proof.
  intros Hne. unfold clampIndex.
  destruct (Nat.leb_spec (length accounts) currentIndex); [|assumption].
  destruct accounts; [done | simpl; lia].
Qed.

Lemma getCurrentStickyAccount_usable SOFT_LIMIT_THRESHOLD accounts currentIndex onSave modelId
    now acc :
  accounts !! clampIndex accounts currentIndex = Some acc ->
  isAccountUsable (Some acc) modelId now = true ->
  getCurrentStickyAccount SOFT_LIMIT_THRESHOLD accounts currentIndex onSave modelId now
  = mkEffect
      (mkStickyRead (Some (set_lastUsed (Some now) (swept now acc)))
                    (clampIndex accounts currentIndex)
                    (isSoftLimited acc modelId SOFT_LIMIT_THRESHOLD now))
      (<[clampIndex accounts currentIndex := set_lastUsed (Some now) (swept now acc)]>
         (map (swept now) accounts))
      (if onSave then 1%nat else 0%nat).
Proof.
  intros Hacc Hu. unfold getCurrentStickyAccount. rewrite sweeps_map, length_map.
  destruct accounts as [|a0 rest] eqn:E; [by rewrite lookup_nil in Hacc|]. rewrite <- E in *.
  replace (length accounts =? 0)%nat with false by (by rewrite E).
  rewrite clampIndex_swept, lookup_map, isAccountUsable_swept, Hacc, Hu.
  unfold updateAt. rewrite lookup_map, Hacc. simpl fmap. cbv iota.
  rewrite list_lookup_insert_eq by (rewrite length_map; by eapply lookup_lt_Some).
  f_equal. f_equal.
  change (isSoftLimited (set_lastUsed (Some now) (swept now acc)) modelId SOFT_LIMIT_THRESHOLD now)
    with (isSoftLimited (swept now acc) modelId SOFT_LIMIT_THRESHOLD now).
  rewrite isSoftLimited_swept.
  destruct (truthyStr modelId) eqn:Ht; [reflexivity|].
  symmetry. by apply isSoftLimited_falsy.
Qed.

(** X15.  [getCurrentStickyAccount] reads the account at the clamped cursor
    and nothing else.  On a non-empty array the cursor it returns is the
    clamped one, a valid index; the account there is returned, stamped with
    [lastUsed = now] and with its soft-limit status reported, exactly when it
    is usable, and otherwise no account is returned and [onSave] is not
    invoked.  On the empty array it returns no account and the cursor it
    was given. *)
Theorem getCurrentStickyAccount_reads_cursor
    (SOFT_LIMIT_THRESHOLD : Q) (accounts : list Account) (currentIndex : nat) (onSave : bool)
    (modelId : option string) (now : Z) :
  let s := getCurrentStickyAccount SOFT_LIMIT_THRESHOLD accounts currentIndex onSave modelId
                                   now in
  (accounts = [] -> s = mkEffect (mkStickyRead None currentIndex false) [] 0%nat) /\
  (accounts <> [] ->
   sr_newIndex (ret s) = clampIndex accounts currentIndex /\
   (sr_newIndex (ret s) < length accounts)%nat /\
   exists acc,
     accounts !! clampIndex accounts currentIndex = Some acc /\
     (isAccountUsable (Some acc) modelId now = true ->
      sr_account (ret s) = Some (set_lastUsed (Some now) (swept now acc)) /\
      sr_isSoftLimited (ret s) = isSoftLimited acc modelId SOFT_LIMIT_THRESHOLD now /\
      accountsAfter s !! sr_newIndex (ret s) = sr_account (ret s) /\
      saves s = (if onSave then 1%nat else 0%nat)) /\
     (isAccountUsable (Some acc) modelId now = false ->
      sr_account (ret s) = None /\ sr_isSoftLimited (ret s) = false /\
      accountsAfter s = map (swept now) accounts /\ saves s = 0%nat)) /\
  map identityOf (accountsAfter s) = map identityOf accounts.
Proof.
  intros s. subst s. split; [intros ->; reflexivity|].
  destruct accounts as [|a0 rest] eqn:E; [split; [done | reflexivity]|]. rewrite <- E.
  assert (Hne : accounts <> []) by (by rewrite E).
  pose proof (clampIndex_lt accounts currentIndex Hne) as Hlt.
  destruct (lookup_lt_is_Some_2 _ _ Hlt) as [acc Hacc].
  destruct (isAccountUsable (Some acc) modelId now) eqn:Hu.
  - rewrite (getCurrentStickyAccount_usable _ _ _ _ _ _ acc Hacc Hu).
    cbn [ret sr_account sr_newIndex sr_isSoftLimited accountsAfter saves].
    split; [|by apply map_identityOf_stamped].
    intros _. split; [reflexivity|]. split; [exact Hlt|].
    exists acc. split; [exact Hacc|]. split; [|intros Hf; congruence].
    intros _. repeat split.
    apply list_lookup_insert_eq. by rewrite length_map.
  - rewrite (getCurrentStickyAccount_unusable SOFT_LIMIT_THRESHOLD accounts currentIndex onSave
               modelId now Hne) by (by rewrite Hacc).
    cbn [ret sr_account sr_newIndex sr_isSoftLimited accountsAfter saves].
    split; [|apply map_identityOf_swept].
    intros _. split; [reflexivity|]. split; [exact Hlt|].
    exists acc. split; [exact Hacc|]. split; [intros Hf; congruence|].
    intros _. repeat split.
Qed.

(** X16.  [shouldWaitForCurrentAccount] recommends waiting only for a valid
    account at the clamped cursor whose entry for a truthy model id is
    rate-limited with a reset time [t] such that
    [0 < t - now <= MAX_WAIT_BEFORE_ERROR_MS], and then reports exactly
    that wait; in every other case the reported wait is 0.  It never
    recommends waiting for an invalid account or on an empty array. *)
Theorem shouldWaitForCurrentAccount_bounds
    (MAX_WAIT_BEFORE_ERROR_MS : Z) (accounts : list Account) (currentIndex : nat)
    (modelId : option string) (now : Z) :
  let w := shouldWaitForCurrentAccount MAX_WAIT_BEFORE_ERROR_MS accounts currentIndex modelId
                                       now in
  (shouldWait w = true ->
   0 < wi_waitMs w <= MAX_WAIT_BEFORE_ERROR_MS /\
   exists a limits limit t,
     wi_account w = Some a /\
     accounts !! clampIndex accounts currentIndex = Some a /\
     isInvalid a = false /\ truthyStr modelId = true /\
     modelRateLimits a = Some limits /\ limits !! propKey modelId = Some limit /\
     rl_isRateLimited limit = true /\ rl_resetTime limit = Some t /\
     wi_waitMs w = t - now) /\
  (shouldWait w = false -> wi_waitMs w = 0) /\
  (forall a, accounts !! clampIndex accounts currentIndex = Some a -> isInvalid a = true ->
             w = mkWaitInfo false 0 None) /\
  (accounts = [] -> w = mkWaitInfo false 0 None).
Proof.
  intros w. subst w. unfold shouldWaitForCurrentAccount.
  destruct accounts as [|a0 rest] eqn:E; [repeat split; try discriminate; intros a; by rewrite lookup_nil|].
  rewrite <- E.
  replace (length accounts =? 0)%nat with false by (by rewrite E).
  destruct (accounts !! clampIndex accounts currentIndex) as [a|] eqn:Ha; simpl;
    [|repeat split; try discriminate; intros E'; by rewrite E' in E].
  destruct (isInvalid a) eqn:Hinv; simpl;
    [repeat split; try discriminate; try reflexivity; intros E'; by rewrite E' in E|].
  set (waitMs := if truthyStr modelId then _ else 0).
  destruct (Z.ltb_spec 0 waitMs) as [Hpos | Hnpos]; simpl.
  - destruct (Z.leb_spec waitMs MAX_WAIT_BEFORE_ERROR_MS) as [Hle | Hgt]; simpl.
    + split; [|split; [discriminate | split; [intros a' [= <-]; congruence |
                                              intros E'; by rewrite E' in E]]].
      intros _. split; [lia|]. subst waitMs.
      destruct (truthyStr modelId) eqn:Ht; [|lia].
      destruct (modelRateLimits a) as [limits|] eqn:Hl; [|lia].
      destruct (limits !! propKey modelId) as [limit|] eqn:Hk; [|lia].
      destruct (rl_isRateLimited limit) eqn:Hr; simpl in *; [|lia].
      destruct (rl_resetTime limit) as [t|] eqn:Hrt; simpl in *; [|lia].
      destruct (Z.eqb_spec t 0); simpl in *; [lia|].
      exists a, limits, limit, t. repeat split; assumption.
    + split; [discriminate|]. split; [reflexivity|].
      split; [intros a' [= <-]; congruence | intros E'; by rewrite E' in E].
  - split; [discriminate|]. split; [reflexivity|].
    split; [intros a' [= <-]; congruence | intros E'; by rewrite E' in E].
Qed.

(** ** The composite policy *)

Lemma usable_spec a modelId now :
  isAccountUsable (Some a) modelId now = true <->
  isInvalid a = false /\ hardLimited a modelId now = false.
Proof.
  simpl. destruct (isInvalid a), (hardLimited a modelId now); split; try tauto;
    try discriminate; intros [? ?]; discriminate.
Qed.

Lemma stamped_lookup_usable now modelId (L : list Account) idx b j x :
  L !! idx = Some b -> isAccountUsable (Some b) modelId now = true ->
  L !! j = Some x -> isAccountUsable (Some x) modelId now = true ->
  exists y, (<[idx := set_lastUsed (Some now) (swept now b)]> (map (swept now) L)) !! j = Some y /\
            isAccountUsable (Some y) modelId now = true.
Proof.
  intros Hb Hub Hx Hux. destruct (decide (idx = j)) as [<- | Hne].
  - exists (set_lastUsed (Some now) (swept now b)). split.
    + apply list_lookup_insert_eq. rewrite length_map. by eapply lookup_lt_Some.
    + change (isAccountUsable (swept now <$> Some b) modelId now = true).
      by rewrite isAccountUsable_swept.
  - exists (swept now x). split.
    + rewrite list_lookup_insert_ne by exact Hne. by rewrite lookup_map, Hx.
    + change (isAccountUsable (swept now <$> Some x) modelId now = true).
      by rewrite isAccountUsable_swept.
Qed.

Lemma wanted_usable SOFT_LIMIT_THRESHOLD now modelId accounts softLimitEnabled o :
  wanted SOFT_LIMIT_THRESHOLD now modelId accounts softLimitEnabled o = true ->
  isAccountUsable o modelId now = true.
Proof.
  unfold wanted. destruct (_ && _ && _); [apply isAccountPreferred_usable | auto].
Qed.

(** What a call of [pickNext] guarantees to its caller. *)
Lemma pickNext_post SOFT_LIMIT_THRESHOLD (L : list Account) currentIndex onSave modelId
    softLimitEnabled now :
  let p := pickNext SOFT_LIMIT_THRESHOLD L currentIndex onSave modelId softLimitEnabled now in
  map identityOf (accountsAfter p) = map identityOf L /\
  (forall j x, L !! j = Some x -> isAccountUsable (Some x) modelId now = true ->
               exists y, accountsAfter p !! j = Some y /\
                         isAccountUsable (Some y) modelId now = true) /\
  match sel_account (ret p) with
  | None => getAvailableAccounts L modelId now = [] /\ sel_newIndex (ret p) = currentIndex
  | Some a =>
      isAccountUsable (Some a) modelId now = true /\
      accountsAfter p !! sel_newIndex (ret p) = Some a /\
      (sel_newIndex (ret p) < length L)%nat
  end.
Proof.
  intros p. subst p.
  destruct (pickNext_cases SOFT_LIMIT_THRESHOLD now modelId L currentIndex onSave
              softLimitEnabled) as [[Hav ->] | (Hav & i & b & Hi & Hb & Hw & _ & ->)];
    cbn [ret sel_account sel_newIndex accountsAfter].
  - split; [apply map_identityOf_swept|]. split; [|by split].
    intros j x Hx Hu. exists (swept now x). split; [by rewrite lookup_map, Hx|].
    change (isAccountUsable (swept now <$> Some x) modelId now = true).
    by rewrite isAccountUsable_swept.
  - apply wanted_usable in Hw.
    split; [by apply map_identityOf_stamped|]. split.
    + intros j x Hx Hu. by apply (stamped_lookup_usable now modelId L _ b j x).
    + split; [|split].
      * change (isAccountUsable (swept now <$> Some b) modelId now = true).
        by rewrite isAccountUsable_swept.
      * apply list_lookup_insert_eq. rewrite length_map. by eapply lookup_lt_Some.
      * by eapply lookup_lt_Some.
Qed.

Lemma getAvailableAccounts_swept_nil now modelId accounts :
  getAvailableAccounts (map (swept now) accounts) modelId now = [] <->
  getAvailableAccounts accounts modelId now = [].
Proof.
  rewrite getAvailableAccounts_swept.
  destruct (getAvailableAccounts accounts modelId now); simpl; split; congruence.
Qed.

Lemma shouldWait_true_bounds MAX_WAIT_BEFORE_ERROR_MS accounts currentIndex modelId now :
  shouldWait (shouldWaitForCurrentAccount MAX_WAIT_BEFORE_ERROR_MS accounts currentIndex
                                          modelId now) = true ->
  0 < wi_waitMs (shouldWaitForCurrentAccount MAX_WAIT_BEFORE_ERROR_MS accounts currentIndex
                                             modelId now) <= MAX_WAIT_BEFORE_ERROR_MS.
Proof.
  unfold shouldWaitForCurrentAccount.
  destruct (length accounts =? 0)%nat; [discriminate|].
  destruct (accounts !! clampIndex accounts currentIndex) as [a|]; [|discriminate].
  destruct (isInvalid a); [discriminate|].
  set (waitMs := if truthyStr modelId then _ else 0).
  destruct (Z.ltb_spec 0 waitMs); simpl; [|discriminate].
  destruct (Z.leb_spec waitMs MAX_WAIT_BEFORE_ERROR_MS); simpl; [|discriminate].
  intros _. lia.
Qed.

Lemma getCurrentStickyAccount_none SOFT_LIMIT_THRESHOLD accounts currentIndex onSave modelId now :
  isAccountUsable (accounts !! clampIndex accounts currentIndex) modelId now = false ->
  exists idx,
    getCurrentStickyAccount SOFT_LIMIT_THRESHOLD accounts currentIndex onSave modelId now
    = mkEffect (mkStickyRead None idx false) (map (swept now) accounts) 0%nat.
Proof.
  intros Hu. destruct accounts as [|a0 rest] eqn:E.
  - exists currentIndex. reflexivity.
  - rewrite <- E in *. exists (clampIndex accounts currentIndex).
    apply getCurrentStickyAccount_unusable; [by rewrite E | exact Hu].
Qed.

(** The part of [pickStickyAccount] that decides between waiting and
    rotating, on accounts [L] that stem from [accounts]; it is reached only
    when no account is available. *)
Lemma waitOrRotate_post MAX_WAIT_BEFORE_ERROR_MS SOFT_LIMIT_THRESHOLD accounts (L : list Account)
    currentIndex onSave modelId softLimitEnabled now n :
  map identityOf L = map identityOf accounts ->
  getAvailableAccounts accounts modelId now = [] ->
  stickyPost MAX_WAIT_BEFORE_ERROR_MS modelId now accounts currentIndex
    (if shouldWait (shouldWaitForCurrentAccount MAX_WAIT_BEFORE_ERROR_MS L currentIndex modelId now)
     then
       mkEffect
         (mkStickyPick None
            (wi_waitMs (shouldWaitForCurrentAccount MAX_WAIT_BEFORE_ERROR_MS L currentIndex
                                                    modelId now))
            currentIndex) L n
     else
       mkEffect
         (mkStickyPick
            (sel_account (ret (pickNext SOFT_LIMIT_THRESHOLD L currentIndex onSave modelId
                                        softLimitEnabled now)))
            0
            (sel_newIndex (ret (pickNext SOFT_LIMIT_THRESHOLD L currentIndex onSave modelId
                                         softLimitEnabled now))))
         (accountsAfter (pickNext SOFT_LIMIT_THRESHOLD L currentIndex onSave modelId
                                  softLimitEnabled now))
         (n + saves (pickNext SOFT_LIMIT_THRESHOLD L currentIndex onSave modelId
                              softLimitEnabled now))).
Proof.
  intros Hid Hnil.
  assert (Hlen : length L = length accounts).
  { apply (f_equal (@length _)) in Hid. by rewrite !length_map in Hid. }
  destruct (shouldWait _) eqn:Hw.
  - apply shouldWait_true_bounds in Hw. unfold stickyPost.
    cbn [ret sp_account sp_waitMs sp_newIndex accountsAfter].
    split; [discriminate|]. split; [|exact Hid].
    intros _. split; [exact Hnil|]. split; [reflexivity | by right].
  - destruct (pickNext_post SOFT_LIMIT_THRESHOLD L currentIndex onSave modelId softLimitEnabled
                now) as (Hpid & _ & Hsel).
    unfold stickyPost. cbn [ret sp_account sp_waitMs sp_newIndex accountsAfter].
    split; [|split; [|by rewrite Hpid]].
    + intros a Ha. rewrite Ha in Hsel. destruct Hsel as (Hu & Hl & Hlt).
      apply usable_spec in Hu as [Hinv Hh]. rewrite <- Hlen. auto.
    + intros Ha. rewrite Ha in Hsel. destruct Hsel as [_ Hc]. auto.
Qed.

(** A returned choice of [pickNext] on accounts [L] that stem from
    [accounts]. *)
Lemma picked_post MAX_WAIT_BEFORE_ERROR_MS SOFT_LIMIT_THRESHOLD accounts (L : list Account)
    currentIndex onSave modelId softLimitEnabled now n a :
  map identityOf L = map identityOf accounts ->
  sel_account (ret (pickNext SOFT_LIMIT_THRESHOLD L currentIndex onSave modelId
                             softLimitEnabled now)) = Some a ->
  stickyPost MAX_WAIT_BEFORE_ERROR_MS modelId now accounts currentIndex
    (mkEffect
       (mkStickyPick (Some a) 0
          (sel_newIndex (ret (pickNext SOFT_LIMIT_THRESHOLD L currentIndex onSave modelId
                                       softLimitEnabled now))))
       (accountsAfter (pickNext SOFT_LIMIT_THRESHOLD L currentIndex onSave modelId
                                softLimitEnabled now)) n).
Proof.
  intros Hid Ha.
  assert (Hlen : length L = length accounts).
  { apply (f_equal (@length _)) in Hid. by rewrite !length_map in Hid. }
  destruct (pickNext_post SOFT_LIMIT_THRESHOLD L currentIndex onSave modelId softLimitEnabled
              now) as (Hpid & _ & Hsel).
  rewrite Ha in Hsel. destruct Hsel as (Hu & Hl & Hlt).
  apply usable_spec in Hu as [Hinv Hh].
  unfold stickyPost. cbn [ret sp_account sp_waitMs sp_newIndex accountsAfter].
  split; [|split; [discriminate | by rewrite Hpid]].
  intros a' [= <-]. rewrite <- Hlen. auto.
Qed.

(** Keeping the sticky account of index [idx], found usable in [L]. *)
Lemma kept_post MAX_WAIT_BEFORE_ERROR_MS accounts (L : list Account) currentIndex modelId now
    idx y n :
  map identityOf L = map identityOf accounts ->
  L !! idx = Some y ->
  isAccountUsable (Some y) modelId now = true ->
  stickyPost MAX_WAIT_BEFORE_ERROR_MS modelId now accounts currentIndex
    (mkEffect (mkStickyPick (L !! idx) 0 idx) L n).
Proof.
  intros Hid Hy Hu.
  assert (Hlen : length L = length accounts).
  { apply (f_equal (@length _)) in Hid. by rewrite !length_map in Hid. }
  apply usable_spec in Hu as [Hinv Hh].
  unfold stickyPost. cbn [ret sp_account sp_waitMs sp_newIndex accountsAfter].
  rewrite Hy. split; [|split; [discriminate | exact Hid]].
  intros a [= <-]. rewrite <- Hlen. repeat split; auto. by eapply lookup_lt_Some.
Qed.

Lemma pickStickyAccount_post MAX_WAIT_BEFORE_ERROR_MS SOFT_LIMIT_THRESHOLD accounts currentIndex
    onSave modelId softLimitEnabled now :
  stickyPost MAX_WAIT_BEFORE_ERROR_MS modelId now accounts currentIndex
    (pickStickyAccount MAX_WAIT_BEFORE_ERROR_MS SOFT_LIMIT_THRESHOLD accounts currentIndex onSave
                       modelId softLimitEnabled now).
Proof.
  unfold pickStickyAccount.
  destruct (isAccountUsable (accounts !! clampIndex accounts currentIndex) modelId now) eqn:Hu.
  - destruct (accounts !! clampIndex accounts currentIndex) as [acc|] eqn:Hacc; [|discriminate].
    rewrite (getCurrentStickyAccount_usable _ _ _ _ _ _ acc Hacc Hu).
    cbn [ret sr_account sr_newIndex sr_isSoftLimited accountsAfter saves].
    set (index := clampIndex accounts currentIndex) in *.
    set (st := set_lastUsed (Some now) (swept now acc)).
    set (S1 := <[index := st]> (map (swept now) accounts)).
    assert (Hid1 : map identityOf S1 = map identityOf accounts)
      by (by apply map_identityOf_stamped).
    assert (Hst : S1 !! index = Some st).
    { apply list_lookup_insert_eq. rewrite length_map. by eapply lookup_lt_Some. }
    assert (Hust : isAccountUsable (Some st) modelId now = true).
    { change (isAccountUsable (swept now <$> Some acc) modelId now = true).
      by rewrite isAccountUsable_swept. }
    assert (Hkeep : forall n, stickyPost MAX_WAIT_BEFORE_ERROR_MS modelId now accounts
                                currentIndex
                                (mkEffect (mkStickyPick (S1 !! index) 0 index) S1 n)).
    { intros n. by apply (kept_post _ _ _ _ _ _ _ st). }
    destruct (softLimitEnabled && isSoftLimited acc modelId SOFT_LIMIT_THRESHOLD now
              && truthyStr modelId); [|apply Hkeep].
    destruct (0 <? length (getPreferredAccounts S1 modelId SOFT_LIMIT_THRESHOLD now))%nat;
      [|apply Hkeep].
    destruct (pickNext_post SOFT_LIMIT_THRESHOLD S1 currentIndex onSave modelId true now)
      as (Hpid & Hkept & _).
    destruct (Hkept index st Hst Hust) as (y & Hy & Huy).
    assert (Hkeep2 : forall n,
      stickyPost MAX_WAIT_BEFORE_ERROR_MS modelId now accounts currentIndex
        (mkEffect
           (mkStickyPick
              (accountsAfter (pickNext SOFT_LIMIT_THRESHOLD S1 currentIndex onSave modelId
                                       true now) !! index) 0 index)
           (accountsAfter (pickNext SOFT_LIMIT_THRESHOLD S1 currentIndex onSave modelId
                                    true now)) n)).
    { intros n. apply (kept_post _ _ _ _ _ _ _ y); [by rewrite Hpid | exact Hy | exact Huy]. }
    destruct (sel_account (ret (pickNext SOFT_LIMIT_THRESHOLD S1 currentIndex onSave modelId
                                         true now))) as [next|] eqn:Hnext; [|apply Hkeep2].
    destruct (negb (String.eqb (email next) (email st))); [|apply Hkeep2].
    apply picked_post; [exact Hid1 | exact Hnext].
  - destruct (getCurrentStickyAccount_none SOFT_LIMIT_THRESHOLD accounts currentIndex onSave
                modelId now Hu) as [idx ->].
    cbn [ret sr_account sr_newIndex sr_isSoftLimited accountsAfter saves].
    set (S := map (swept now) accounts).
    assert (HidS : map identityOf S = map identityOf accounts) by apply map_identityOf_swept.
    destruct (getAvailableAccounts S modelId now) as [|a0 av] eqn:Hav.
    + change (0 <? length [])%nat with false. cbv iota.
      apply waitOrRotate_post; [exact HidS|].
      by apply (getAvailableAccounts_swept_nil now modelId accounts).
    + change (0 <? length (a0 :: av))%nat with true. cbv iota.
      destruct (pickNext_post SOFT_LIMIT_THRESHOLD S currentIndex onSave modelId
                  softLimitEnabled now) as (Hpid & _ & Hsel).
      destruct (sel_account (ret (pickNext SOFT_LIMIT_THRESHOLD S currentIndex onSave modelId
                                           softLimitEnabled now))) as [next|] eqn:Hnext.
      * apply picked_post; [exact HidS | exact Hnext].
      * destruct Hsel as [Hnil _]. rewrite Hnil in Hav. discriminate.
Qed.

(** X17.  Whatever the pool, cursor and flags, [pickStickyAccount] returns
    an account only if it is valid and not hard-limited for the model, with
    [waitMs = 0] and a new cursor at which the account array holds that
    account; it returns no account only when no account is hard-available,
    and then the cursor is the one it was given and [waitMs] is 0 or a wait
    within [MAX_WAIT_BEFORE_ERROR_MS].  No account is added, removed,
    reordered or changed in identity or validity. *)
Theorem pickStickyAccount_outcomes
    (MAX_WAIT_BEFORE_ERROR_MS : Z) (SOFT_LIMIT_THRESHOLD : Q) (accounts : list Account)
    (currentIndex : nat) (onSave : bool) (modelId : option string) (softLimitEnabled : bool)
    (now : Z) :
  let r := pickStickyAccount MAX_WAIT_BEFORE_ERROR_MS SOFT_LIMIT_THRESHOLD accounts currentIndex
                             onSave modelId softLimitEnabled now in
  (forall a, sp_account (ret r) = Some a ->
     isInvalid a = false /\ hardLimited a modelId now = false /\
     sp_waitMs (ret r) = 0 /\
     (sp_newIndex (ret r) < length accounts)%nat /\
     accountsAfter r !! sp_newIndex (ret r) = Some a) /\
  (sp_account (ret r) = None ->
   getAvailableAccounts accounts modelId now = [] /\
   sp_newIndex (ret r) = currentIndex /\
   (sp_waitMs (ret r) = 0 \/ 0 < sp_waitMs (ret r) <= MAX_WAIT_BEFORE_ERROR_MS)) /\
  map identityOf (accountsAfter r) = map identityOf accounts.
Proof.
  intros r. subst r.
  exact (pickStickyAccount_post MAX_WAIT_BEFORE_ERROR_MS SOFT_LIMIT_THRESHOLD accounts
           currentIndex onSave modelId softLimitEnabled now).
Qed.

Lemma swept_idem now a : swept now (swept now a) = swept now a.
Proof.
  unfold swept.
  assert (H1 : expireLimits now (expireSoftLimits now (expireLimits now a))
               = expireSoftLimits now (expireLimits now a)).
  { apply expireLimits_fixed. intros limits k limit Hl Hk.
    apply (expireLimits_entries now a limits k limit); [|exact Hk].
    rewrite <- Hl. unfold expireSoftLimits.
    by destruct (modelSoftLimits (expireLimits now a)). }
  rewrite H1. apply expireSoftLimits_fixed. intros limits k limit.
  apply expireSoftLimits_entries.
Qed.

Lemma pickNext_swept SOFT_LIMIT_THRESHOLD accounts currentIndex onSave modelId softLimitEnabled
    now :
  pickNext SOFT_LIMIT_THRESHOLD (map (swept now) accounts) currentIndex onSave modelId
           softLimitEnabled now
  = pickNext SOFT_LIMIT_THRESHOLD accounts currentIndex onSave modelId softLimitEnabled now.
Proof.
  unfold pickNext. rewrite !sweeps_map.
  replace (map (swept now) (map (swept now) accounts)) with (map (swept now) accounts);
    [reflexivity|].
  rewrite map_map. apply map_ext. intros a. symmetry. apply swept_idem.
Qed.

(** The array the sticky read leaves has the same preferred accounts, index
    by index, as the array it was given. *)
Lemma preferred_after_sticky_read SOFT_LIMIT_THRESHOLD now modelId accounts index acc :
  accounts !! index = Some acc ->
  length (getPreferredAccounts
            (<[index := set_lastUsed (Some now) (swept now acc)]> (map (swept now) accounts))
            modelId SOFT_LIMIT_THRESHOLD now)
  = length (getPreferredAccounts accounts modelId SOFT_LIMIT_THRESHOLD now).
Proof.
  intros Hacc. rewrite !getPreferredAccounts_filter.
  apply (Forall2_filter_length
           (fun x y => isAccountPreferred SOFT_LIMIT_THRESHOLD (Some x) modelId now
                       = isAccountPreferred SOFT_LIMIT_THRESHOLD (Some y) modelId now));
    [auto|].
  apply Forall2_lookup. intros i. destruct (decide (index = i)) as [<- | Hne].
  - rewrite list_lookup_insert_eq
      by (rewrite length_map; by eapply lookup_lt_Some).
    rewrite Hacc. constructor.
    exact (isAccountPreferred_swept SOFT_LIMIT_THRESHOLD now modelId (Some acc)).
  - rewrite list_lookup_insert_ne by exact Hne. rewrite lookup_map.
    destruct (accounts !! i) as [x|]; constructor.
    exact (isAccountPreferred_swept SOFT_LIMIT_THRESHOLD now modelId (Some x)).
Qed.

(** X18.  Cache continuity: when the account at the clamped cursor is usable
    it is kept, with the clamped cursor and no wait, if soft limits are
    disabled, or no model id is given, or the account is not soft-limited,
    or no account is preferred.  Only its [lastUsed] stamp and the expiry
    sweeps change the array, and [onSave] is invoked once when given. *)
Theorem pickStickyAccount_keeps_sticky
    (MAX_WAIT_BEFORE_ERROR_MS : Z) (SOFT_LIMIT_THRESHOLD : Q) (accounts : list Account)
    (currentIndex : nat) (onSave : bool) (modelId : option string) (softLimitEnabled : bool)
    (now : Z) (acc : Account) :
  accounts !! clampIndex accounts currentIndex = Some acc ->
  isAccountUsable (Some acc) modelId now = true ->
  (softLimitEnabled = false \/ truthyStr modelId = false \/
   isSoftLimited acc modelId SOFT_LIMIT_THRESHOLD now = false \/
   getPreferredAccounts accounts modelId SOFT_LIMIT_THRESHOLD now = []) ->
  pickStickyAccount MAX_WAIT_BEFORE_ERROR_MS SOFT_LIMIT_THRESHOLD accounts currentIndex onSave
                    modelId softLimitEnabled now
  = mkEffect
      (mkStickyPick (Some (set_lastUsed (Some now) (swept now acc))) 0
                    (clampIndex accounts currentIndex))
      (<[clampIndex accounts currentIndex := set_lastUsed (Some now) (swept now acc)]>
         (map (swept now) accounts))
      (if onSave then 1%nat else 0%nat).
Proof.
  intros Hacc Hu Hwhy. unfold pickStickyAccount.
  rewrite (getCurrentStickyAccount_usable _ _ _ _ _ _ acc Hacc Hu).
  cbn [ret sr_account sr_newIndex sr_isSoftLimited accountsAfter saves].
  assert (Hst : <[clampIndex accounts currentIndex := set_lastUsed (Some now) (swept now acc)]>
                  (map (swept now) accounts) !! clampIndex accounts currentIndex
                = Some (set_lastUsed (Some now) (swept now acc))).
  { apply list_lookup_insert_eq. rewrite length_map. by eapply lookup_lt_Some. }
  destruct (softLimitEnabled && isSoftLimited acc modelId SOFT_LIMIT_THRESHOLD now
            && truthyStr modelId) eqn:Hc; [|by rewrite Hst].
  apply andb_prop in Hc as [[Hs Hl]%andb_prop Ht].
  destruct Hwhy as [Hw | [Hw | [Hw | Hw]]]; try congruence.
  rewrite (preferred_after_sticky_read _ _ _ _ _ acc Hacc), Hw.
  change (0 <? length [])%nat with false. cbv iota. by rewrite Hst.
Qed.

Lemma pickStickyAccount_keeps_sticky_witness :
  pickStickyAccount 120000 (1 # 5)
    [softLimitedAccount "A" "m" 0; softLimitedAccount "B" "m" 0; hardLimitedAccount "C" "m" 9000]
    1 true (Some "m") true 1000
  = mkEffect
      (mkStickyPick (Some (set_lastUsed (Some 1000) (swept 1000 (softLimitedAccount "B" "m" 0))))
                    0
                    (clampIndex [softLimitedAccount "A" "m" 0; softLimitedAccount "B" "m" 0;
                                 hardLimitedAccount "C" "m" 9000] 1))
      (<[clampIndex [softLimitedAccount "A" "m" 0; softLimitedAccount "B" "m" 0;
                     hardLimitedAccount "C" "m" 9000] 1
         := set_lastUsed (Some 1000) (swept 1000 (softLimitedAccount "B" "m" 0))]>
         (map (swept 1000) [softLimitedAccount "A" "m" 0; softLimitedAccount "B" "m" 0;
                            hardLimitedAccount "C" "m" 9000]))
      1%nat.
Proof.
  apply (pickStickyAccount_keeps_sticky 120000 (1 # 5)
           [softLimitedAccount "A" "m" 0; softLimitedAccount "B" "m" 0; hardLimitedAccount "C" "m" 9000]
           1%nat true (Some "m") true 1000 (softLimitedAccount "B" "m" 0)).
  - reflexivity.
  - reflexivity.
  - right. right. right. reflexivity.
Defined.

(** X19.  Failover: when the account at the clamped cursor is not usable (or
    the array is empty there) and some account is hard-available,
    [pickStickyAccount] does exactly what [pickNext] does on the same
    arguments, returns an account and asks for no wait. *)
Theorem pickStickyAccount_fails_over
    (MAX_WAIT_BEFORE_ERROR_MS : Z) (SOFT_LIMIT_THRESHOLD : Q) (accounts : list Account)
    (currentIndex : nat) (onSave : bool) (modelId : option string) (softLimitEnabled : bool)
    (now : Z) :
  isAccountUsable (accounts !! clampIndex accounts currentIndex) modelId now = false ->
  getAvailableAccounts accounts modelId now <> [] ->
  let p := pickNext SOFT_LIMIT_THRESHOLD accounts currentIndex onSave modelId softLimitEnabled
                    now in
  sel_account (ret p) <> None /\
  pickStickyAccount MAX_WAIT_BEFORE_ERROR_MS SOFT_LIMIT_THRESHOLD accounts currentIndex onSave
                    modelId softLimitEnabled now
  = mkEffect (mkStickyPick (sel_account (ret p)) 0 (sel_newIndex (ret p)))
             (accountsAfter p) (saves p).
Proof.
  intros Hu Hav p. subst p.
  destruct (pickNext_post SOFT_LIMIT_THRESHOLD accounts currentIndex onSave modelId
              softLimitEnabled now) as (_ & _ & Hsel).
  destruct (sel_account (ret (pickNext SOFT_LIMIT_THRESHOLD accounts currentIndex onSave modelId
                                       softLimitEnabled now))) as [next|] eqn:Hnext;
    [|by destruct Hsel].
  split; [discriminate|].
  unfold pickStickyAccount.
  destruct (getCurrentStickyAccount_none SOFT_LIMIT_THRESHOLD accounts currentIndex onSave
              modelId now Hu) as [idx ->].
  cbn [ret sr_account sr_newIndex sr_isSoftLimited accountsAfter saves].
  rewrite pickNext_swept, Hnext.
  destruct (getAvailableAccounts (map (swept now) accounts) modelId now) eqn:E.
  - exfalso. apply Hav.
    by apply (proj1 (getAvailableAccounts_swept_nil now modelId accounts)).
  - reflexivity.
Qed.

Lemma pickStickyAccount_fails_over_witness :
  sel_account (ret (pickNext (1 # 5)
                      [hardLimitedAccount "A" "m" 9000; freshAccount "B"] 0 true (Some "m") true
                      1000)) <> None /\
  pickStickyAccount 120000 (1 # 5) [hardLimitedAccount "A" "m" 9000; freshAccount "B"] 0 true
                    (Some "m") true 1000
  = mkEffect
      (mkStickyPick
         (sel_account (ret (pickNext (1 # 5)
                              [hardLimitedAccount "A" "m" 9000; freshAccount "B"] 0 true
                              (Some "m") true 1000)))
         0
         (sel_newIndex (ret (pickNext (1 # 5)
                               [hardLimitedAccount "A" "m" 9000; freshAccount "B"] 0 true
                               (Some "m") true 1000))))
      (accountsAfter (pickNext (1 # 5)
                        [hardLimitedAccount "A" "m" 9000; freshAccount "B"] 0 true (Some "m") true
                        1000))
      (saves (pickNext (1 # 5)
                [hardLimitedAccount "A" "m" 9000; freshAccount "B"] 0 true (Some "m") true 1000)).
Proof.
  apply (pickStickyAccount_fails_over 120000 (1 # 5)
           [hardLimitedAccount "A" "m" 9000; freshAccount "B"] 0%nat true (Some "m") true 1000).
  - reflexivity.
  - vm_compute. discriminate.
Defined.

(** X20.  Quota headroom: over accounts with pairwise distinct emails, when
    soft limits are enabled, the model id is truthy, the usable account at
    the clamped cursor is soft-limited and some account is preferred,
    [pickStickyAccount] switches: the account it returns is another one,
    it is not soft-limited for the model, and no wait is asked. *)
Theorem pickStickyAccount_switches_to_preferred
    (MAX_WAIT_BEFORE_ERROR_MS : Z) (SOFT_LIMIT_THRESHOLD : Q) (accounts : list Account)
    (currentIndex : nat) (onSave : bool) (modelId : option string) (now : Z) (acc : Account) :
  NoDup (map email accounts) ->
  accounts !! clampIndex accounts currentIndex = Some acc ->
  isAccountUsable (Some acc) modelId now = true ->
  truthyStr modelId = true ->
  isSoftLimited acc modelId SOFT_LIMIT_THRESHOLD now = true ->
  getPreferredAccounts accounts modelId SOFT_LIMIT_THRESHOLD now <> [] ->
  let r := pickStickyAccount MAX_WAIT_BEFORE_ERROR_MS SOFT_LIMIT_THRESHOLD accounts currentIndex
                             onSave modelId true now in
  exists a,
    sp_account (ret r) = Some a /\
    sp_waitMs (ret r) = 0 /\
    sp_newIndex (ret r) <> clampIndex accounts currentIndex /\
    email a <> email acc /\
    isSoftLimited a modelId SOFT_LIMIT_THRESHOLD now = false /\
    isAccountUsable (Some a) modelId now = true.
Proof.
  intros Hnd Hacc Hu Ht Hsl Hpref r. subst r. unfold pickStickyAccount.
  rewrite (getCurrentStickyAccount_usable _ _ _ _ _ _ acc Hacc Hu).
  cbn [ret sr_account sr_newIndex sr_isSoftLimited accountsAfter saves].
  rewrite Hsl, Ht. cbn [andb].
  set (index := clampIndex accounts currentIndex) in *.
  set (st := set_lastUsed (Some now) (swept now acc)).
  set (S1 := <[index := st]> (map (swept now) accounts)).
  assert (Hlen : (0 <? length (getPreferredAccounts S1 modelId SOFT_LIMIT_THRESHOLD now))%nat
                 = true).
  { subst S1 st. rewrite (preferred_after_sticky_read _ _ _ _ _ acc Hacc).
    destruct (getPreferredAccounts accounts modelId SOFT_LIMIT_THRESHOLD now); [done|reflexivity]. }
  rewrite Hlen.
  assert (Hst : S1 !! index = Some st).
  { apply list_lookup_insert_eq. rewrite length_map. by eapply lookup_lt_Some. }
  destruct (pickNext_cases SOFT_LIMIT_THRESHOLD now modelId S1 currentIndex onSave true)
    as [[Hav _] | (_ & i & b & Hi & Hb & Hw & _ & ->)].
  { exfalso. rewrite getPreferredAccounts_of_available, Hav in Hlen. discriminate. }
  cbn [ret sel_account sel_newIndex accountsAfter saves].
  set (idx := ((clampIndex S1 currentIndex + i) mod length S1)%nat) in *.
  unfold wanted in Hw. rewrite Ht, Hlen in Hw. cbn [andb] in Hw.
  assert (Hbsoft : isSoftLimited b modelId SOFT_LIMIT_THRESHOLD now = false).
  { unfold isAccountPreferred in Hw.
    destruct (isAccountUsable (Some b) modelId now); [|discriminate].
    rewrite Ht in Hw. simpl in Hw.
    by destruct (isSoftLimited b modelId SOFT_LIMIT_THRESHOLD now). }
  assert (Hne : idx <> index).
  { intros E. rewrite E, Hst in Hb. injection Hb as <-.
    change (isSoftLimited (swept now acc) modelId SOFT_LIMIT_THRESHOLD now = false) in Hbsoft.
    rewrite isSoftLimited_swept in Hbsoft. congruence. }
  assert (Hc : exists c, accounts !! idx = Some c /\ b = swept now c).
  { subst S1. rewrite list_lookup_insert_ne in Hb by congruence.
    rewrite lookup_map in Hb. destruct (accounts !! idx) as [c|]; [|discriminate].
    exists c. split; [reflexivity|]. simpl in Hb. congruence. }
  destruct Hc as (c & Hc & ->).
  assert (Hemail : email c <> email acc).
  { intros E. apply Hne.
    apply (NoDup_lookup (map email accounts) idx index (email c)); [exact Hnd | |].
    - by rewrite lookup_map, Hc.
    - by rewrite lookup_map, Hacc, E. }
  replace (String.eqb (email (set_lastUsed (Some now) (swept now (swept now c)))) (email st))
    with false.
  2:{ symmetry. apply String.eqb_neq. subst st. simpl. rewrite !email_swept. exact Hemail. }
  cbn [negb]. cbn [ret sp_account sp_waitMs sp_newIndex].
  exists (set_lastUsed (Some now) (swept now (swept now c))).
  split; [reflexivity|]. split; [reflexivity|]. split; [exact Hne|].
  split; [simpl; by rewrite !email_swept|].
  split.
  - change (isSoftLimited (swept now (swept now c)) modelId SOFT_LIMIT_THRESHOLD now = false).
    by rewrite isSoftLimited_swept.
  - apply isAccountPreferred_usable in Hw.
    change (isAccountUsable (swept now <$> Some (swept now c)) modelId now = true).
    by rewrite isAccountUsable_swept.
Qed.

Lemma pickStickyAccount_switches_to_preferred_witness :
  exists a,
    sp_account (ret (pickStickyAccount 120000 (1 # 5)
                       [softLimitedAccount "A" "m" 0; freshAccount "B"] 0 true (Some "m") true
                       1000)) = Some a /\
    sp_waitMs (ret (pickStickyAccount 120000 (1 # 5)
                      [softLimitedAccount "A" "m" 0; freshAccount "B"] 0 true (Some "m") true
                      1000)) = 0 /\
    sp_newIndex (ret (pickStickyAccount 120000 (1 # 5)
                        [softLimitedAccount "A" "m" 0; freshAccount "B"] 0 true (Some "m") true
                        1000))
      <> clampIndex [softLimitedAccount "A" "m" 0; freshAccount "B"] 0 /\
    email a <> email (softLimitedAccount "A" "m" 0) /\
    isSoftLimited a (Some "m") (1 # 5) 1000 = false /\
    isAccountUsable (Some a) (Some "m") 1000 = true.
Proof.
  apply (pickStickyAccount_switches_to_preferred 120000 (1 # 5)
           [softLimitedAccount "A" "m" 0; freshAccount "B"] 0%nat true (Some "m") 1000
           (softLimitedAccount "A" "m" 0)).
  - simpl. apply NoDup_cons. split; [|apply NoDup_singleton].
    intros H%list_elem_of_In. simpl in H. destruct H as [H | []]. discriminate.
  - reflexivity.
  - reflexivity.
  - reflexivity.
  - reflexivity.
  - vm_compute. discriminate.
Defined.

(** * Properties of the facade and of the soft-limit check *)

Lemma filter_partition_length {A} (f : A -> bool) (l : list A) :
  (length (List.filter f l) + length (List.filter (fun x => negb (f x)) l))%nat = length l.
Proof.
  induction l as [|x l IH]; simpl; [reflexivity|].
  destruct (f x); simpl; lia.
Qed.

Lemma filter_length_le {A} (f : A -> bool) (l : list A) :
  (length (List.filter f l) <= length l)%nat.
Proof. induction l as [|x l IH]; simpl; [lia|]. destruct (f x); simpl; lia. Qed.

(** X21.  In the snapshot of [getStatus] the available and the invalid
    accounts add up to the total: availability is computed without a model
    id, so a valid account counts as available even while it is
    hard-limited.  The rate-limited and soft-limited counts do not exceed
    the total and there is one record per account, in order. *)
Theorem getStatus_counts (m : AccountManager) (now : Z) :
  (st_available (getStatus m now) + st_invalid (getStatus m now))%nat
    = st_total (getStatus m now) /\
  st_total (getStatus m now) = length (m_accounts m) /\
  st_available (getStatus m now)
    = length (List.filter (fun a => negb (isInvalid a)) (m_accounts m)) /\
  (st_rateLimited (getStatus m now) <= st_total (getStatus m now))%nat /\
  (st_softLimited (getStatus m now) <= st_total (getStatus m now))%nat /\
  map as_email (st_accounts (getStatus m now)) = map email (m_accounts m).
Proof.
  unfold getStatus. cbn [st_available st_invalid st_total st_rateLimited st_softLimited
                         st_accounts].
  assert (Hav : getAvailableAccounts (m_accounts m) None now
                = List.filter (fun a => negb (isInvalid a)) (m_accounts m)).
  { unfold getAvailableAccounts. apply filter_ext. intros a. by destruct (isInvalid a). }
  rewrite Hav. split; [|split; [reflexivity|split; [reflexivity|split; [|split]]]].
  - unfold getInvalidAccounts.
    rewrite Nat.add_comm.
    exact (filter_partition_length (fun a => isInvalid a) (m_accounts m)).
  - apply filter_length_le.
  - apply filter_length_le.
  - rewrite map_map. reflexivity.
Qed.

(** X22.  [setSoftLimitEnabled] always stores the flag, and stores the
    threshold only when one is given within [0, 1]; otherwise the previous
    threshold stays.  A threshold within [0, 1] therefore stays within
    [0, 1], and accounts and cursor are untouched. *)
Theorem setSoftLimitEnabled_validates (m : AccountManager) (enabled : bool) (threshold : option Q) :
  m_softLimitEnabled (Manager.setSoftLimitEnabled m enabled threshold) = enabled /\
  (forall t, threshold = Some t -> (0 <= t)%Q /\ (t <= 1)%Q ->
             m_softLimitThreshold (Manager.setSoftLimitEnabled m enabled threshold) = t) /\
  (forall t, threshold = Some t -> ~ ((0 <= t)%Q /\ (t <= 1)%Q) ->
             m_softLimitThreshold (Manager.setSoftLimitEnabled m enabled threshold)
             = m_softLimitThreshold m) /\
  (threshold = None ->
   m_softLimitThreshold (Manager.setSoftLimitEnabled m enabled threshold)
   = m_softLimitThreshold m) /\
  ((0 <= m_softLimitThreshold m)%Q /\ (m_softLimitThreshold m <= 1)%Q ->
   (0 <= m_softLimitThreshold (Manager.setSoftLimitEnabled m enabled threshold))%Q /\
   (m_softLimitThreshold (Manager.setSoftLimitEnabled m enabled threshold) <= 1)%Q) /\
  m_accounts (Manager.setSoftLimitEnabled m enabled threshold) = m_accounts m /\
  m_currentIndex (Manager.setSoftLimitEnabled m enabled threshold) = m_currentIndex m.
Proof.
  unfold Manager.setSoftLimitEnabled, Manager.validThreshold.
  cbn [m_softLimitEnabled m_softLimitThreshold m_accounts m_currentIndex].
  split; [reflexivity|].
  split.
  { intros t -> [H0 H1]. apply Qle_bool_iff in H0, H1. by rewrite H0, H1. }
  split.
  { intros t -> Hn. destruct (Qle_bool 0 t) eqn:H0; [|reflexivity].
    destruct (Qle_bool t 1) eqn:H1; [|reflexivity].
    exfalso. apply Hn. split; by apply Qle_bool_iff. }
  split; [by intros ->|].
  split; [|split; reflexivity].
  intros Hold. destruct threshold as [t|]; [|exact Hold].
  destruct (Qle_bool 0 t) eqn:H0; [|exact Hold].
  destruct (Qle_bool t 1) eqn:H1; [|exact Hold].
  split; by apply Qle_bool_iff.
Qed.

Lemma identity_length (l1 l2 : list Account) :
  map identityOf l1 = map identityOf l2 -> length l1 = length l2.
Proof. intros H. apply (f_equal (@length _)) in H. by rewrite !length_map in H. Qed.

(** X23.  The three selecting methods of the class keep the cursor valid: if
    the cursor is an index of the account array before [pickNext],
    [getCurrentStickyAccount] or [pickStickyAccount], it is one afterwards,
    the array keeps its length, and an account that is returned is the one
    the array holds at the new cursor. *)
Theorem manager_cursor_stays_valid
    (MAX_WAIT_BEFORE_ERROR_MS : Z) (SOFT_LIMIT_THRESHOLD : Q) (m : AccountManager)
    (modelId : option string) (now : Z) :
  (m_currentIndex m < length (m_accounts m))%nat ->
  let valid (m' : AccountManager) (returned : option Account) :=
    (m_currentIndex m' < length (m_accounts m'))%nat /\
    length (m_accounts m') = length (m_accounts m) /\
    (forall a, returned = Some a -> m_accounts m' !! m_currentIndex m' = Some a) in
  valid (managerAfter (Manager.pickNext SOFT_LIMIT_THRESHOLD m modelId now))
        (mret (Manager.pickNext SOFT_LIMIT_THRESHOLD m modelId now)) /\
  valid (managerAfter (Manager.getCurrentStickyAccount SOFT_LIMIT_THRESHOLD m modelId now))
        (mret (Manager.getCurrentStickyAccount SOFT_LIMIT_THRESHOLD m modelId now)) /\
  valid (managerAfter (Manager.pickStickyAccount MAX_WAIT_BEFORE_ERROR_MS SOFT_LIMIT_THRESHOLD
                                                 m modelId now))
        (sc_account (mret (Manager.pickStickyAccount MAX_WAIT_BEFORE_ERROR_MS
                                                     SOFT_LIMIT_THRESHOLD m modelId now))).
Proof.
  intros Hcur valid. subst valid. cbv beta.
  split; [|split].
  - unfold Manager.pickNext. cbn [managerAfter mret set_selection m_currentIndex m_accounts].
    destruct (pickNext_post SOFT_LIMIT_THRESHOLD (m_accounts m) (m_currentIndex m) true modelId
                (m_softLimitEnabled m) now) as (Hid & _ & Hsel).
    pose proof (identity_length _ _ Hid) as Hlen. rewrite Hlen.
    destruct (sel_account _) as [a|].
    + destruct Hsel as (_ & Hl & Hlt). split; [exact Hlt|]. split; [reflexivity|].
      by intros a' [= <-].
    + destruct Hsel as [_ ->]. split; [exact Hcur|]. split; [reflexivity | discriminate].
  - unfold Manager.getCurrentStickyAccount.
    cbn [managerAfter mret set_selection m_currentIndex m_accounts].
    assert (Hne : m_accounts m <> []) by (intros E; rewrite E in Hcur; simpl in Hcur; lia).
    pose proof (clampIndex_lt (m_accounts m) (m_currentIndex m) Hne) as Hlt.
    destruct (lookup_lt_is_Some_2 _ _ Hlt) as [acc Hacc].
    destruct (isAccountUsable (Some acc) modelId now) eqn:Hu.
    + rewrite (getCurrentStickyAccount_usable _ _ _ _ _ _ acc Hacc Hu).
      cbn [ret sr_account sr_newIndex accountsAfter].
      rewrite length_insert, length_map.
      split; [exact Hlt|]. split; [reflexivity|].
      intros a [= <-]. apply list_lookup_insert_eq. by rewrite length_map.
    + rewrite (getCurrentStickyAccount_unusable SOFT_LIMIT_THRESHOLD (m_accounts m)
                 (m_currentIndex m) true modelId now Hne) by (by rewrite Hacc).
      cbn [ret sr_account sr_newIndex accountsAfter]. rewrite length_map.
      split; [exact Hlt|]. split; [reflexivity | discriminate].
  - unfold Manager.pickStickyAccount.
    cbn [managerAfter mret sc_account set_selection m_currentIndex m_accounts].
    destruct (pickStickyAccount_post MAX_WAIT_BEFORE_ERROR_MS SOFT_LIMIT_THRESHOLD (m_accounts m)
                (m_currentIndex m) true modelId (m_softLimitEnabled m) now)
      as (Hsome & Hnone & Hid).
    pose proof (identity_length _ _ Hid) as Hlen. rewrite Hlen.
    destruct (sp_account _) as [a|] eqn:Ha.
    + destruct (Hsome a eq_refl) as (_ & _ & _ & Hlt & Hl).
      split; [exact Hlt|]. split; [reflexivity|]. by intros a' [= <-].
    + destruct (Hnone eq_refl) as (_ & -> & _).
      split; [exact Hcur|]. split; [reflexivity | discriminate].
Qed.

Lemma manager_cursor_stays_valid_witness :
  (m_currentIndex
     (managerAfter
        (Manager.pickNext (1 # 5)
           (mkAccountManager [hardLimitedAccount "A" "m" 9000; freshAccount "B"] 0
                             "accounts.json" (mkSettings None) true true (1 # 5) ∅ ∅)
           (Some "m") 1000))
   < length
       (m_accounts
          (managerAfter
             (Manager.pickNext (1 # 5)
                (mkAccountManager [hardLimitedAccount "A" "m" 9000; freshAccount "B"] 0
                                  "accounts.json" (mkSettings None) true true (1 # 5) ∅ ∅)
                (Some "m") 1000))))%nat.
Proof.
  refine (proj1 (proj1 (manager_cursor_stays_valid 120000 (1 # 5)
                          (mkAccountManager [hardLimitedAccount "A" "m" 9000; freshAccount "B"]
                                            0 "accounts.json" (mkSettings None) true true
                                            (1 # 5) ∅ ∅)
                          (Some "m") 1000 _))).
  simpl. lia.
Defined.

(** ** Persistence triggers *)

Lemma expireLimits_soft now a : modelSoftLimits (expireLimits now a) = modelSoftLimits a.
Proof. unfold expireLimits. by destruct (modelRateLimits a). Qed.

Lemma expireSoftLimits_rate now a :
  modelRateLimits (expireSoftLimits now a) = modelRateLimits a.
Proof. unfold expireSoftLimits. by destruct (modelSoftLimits a). Qed.

Lemma swept_fixed now a :
  swept now a = a <-> expireLimits now a = a /\ expireSoftLimits now a = a.
Proof.
  unfold swept. split.
  - intros H.
    assert (H1 : expireLimits now a = a).
    { apply expireLimits_fixed. intros limits k limit Hl Hk.
      apply (expireLimits_entries now a limits k limit); [|exact Hk].
      rewrite <- Hl. rewrite <- H at 2. by rewrite expireSoftLimits_rate. }
    split; [exact H1|]. by rewrite H1 in H.
  - intros [H1 H2]. by rewrite H1, H2.
Qed.

(** X24.  The method [clearExpiredLimits] returns the number of hard and soft
    entries it cleared and triggers [saveToDisk] exactly when that number is
    positive, which is exactly when the sweep changed some account. *)
Theorem manager_clearExpiredLimits_saves_on_change (m : AccountManager) (now : Z) :
  mret (Manager.clearExpiredLimits m now)
    = ((clearExpiredLimits (m_accounts m) now).2
       + (clearExpiredSoftLimits (clearExpiredLimits (m_accounts m) now).1 now).2)%nat /\
  m_accounts (managerAfter (Manager.clearExpiredLimits m now)) = map (swept now) (m_accounts m) /\
  (diskSaves (Manager.clearExpiredLimits m now) = 0%nat <->
   mret (Manager.clearExpiredLimits m now) = 0%nat) /\
  (diskSaves (Manager.clearExpiredLimits m now) = 0%nat <->
   m_accounts (managerAfter (Manager.clearExpiredLimits m now)) = m_accounts m) /\
  (diskSaves (Manager.clearExpiredLimits m now) <= 1)%nat.
Proof.
  unfold Manager.clearExpiredLimits.
  cbn [mret managerAfter diskSaves set_accounts m_accounts].
  set (c1 := (clearExpiredLimits (m_accounts m) now).2).
  set (c2 := (clearExpiredSoftLimits (clearExpiredLimits (m_accounts m) now).1 now).2).
  assert (Hz : (c1 + c2 = 0)%nat <-> map (swept now) (m_accounts m) = m_accounts m).
  { subst c1 c2. rewrite map_id_on. split.
    - intros H. assert (H1 : (clearExpiredLimits (m_accounts m) now).2 = 0%nat) by lia.
      assert (H2 : (clearExpiredSoftLimits (clearExpiredLimits (m_accounts m) now).1 now).2
                   = 0%nat) by lia.
      pose proof (proj1 (clearExpiredLimits_count_zero _ _) H1) as F1.
      pose proof (proj1 (clearExpiredSoftLimits_count_zero _ _) H2) as F2.
      intros a Ha. apply swept_fixed. split; [by apply F1|].
      apply F2. simpl. apply in_map_iff. exists a. split; [by apply F1 | exact Ha].
    - intros H.
      assert (F1 : forall a, In a (m_accounts m) -> expireLimits now a = a).
      { intros a Ha. by apply (swept_fixed now a), H. }
      pose proof (proj2 (clearExpiredLimits_count_zero (m_accounts m) now) F1) as H1.
      assert (H2 : (clearExpiredSoftLimits (clearExpiredLimits (m_accounts m) now).1 now).2
                   = 0%nat).
      { apply clearExpiredSoftLimits_count_zero. simpl.
        intros a [b [<- Hb]]%in_map_iff. rewrite (F1 b Hb).
        by apply (swept_fixed now b), H. }
      lia. }
  split; [reflexivity|]. split; [apply sweeps_map|].
  rewrite sweeps_map.
  destruct (Nat.ltb_spec 0 (c1 + c2)) as [Hpos | Hzero].
  - split; [split; [discriminate | lia]|]. split; [|lia].
    split; [discriminate|]. intros H. apply Hz in H. lia.
  - split; [split; [lia | reflexivity]|]. split; [|lia].
    split; [|reflexivity]. intros _. apply Hz. lia.
Qed.

(** ** The soft-limit check after a request *)

Lemma updateSoftLimitStatus_unchanged P accounts e modelId fraction resetTime threshold now :
  changed (updateSoftLimitStatus P accounts e modelId fraction resetTime threshold now).2 = false ->
  (updateSoftLimitStatus P accounts e modelId fraction resetTime threshold now).1 = accounts.
Proof.
  unfold updateSoftLimitStatus.
  destruct (findIndexByEmail accounts e) as [i|]; [|reflexivity].
  destruct (accounts !! i) as [a|]; [|reflexivity].
  destruct (_ && negb _); [discriminate|].
  destruct (negb _ && _); [discriminate | reflexivity].
Qed.

Lemma manager_eta m :
  mkAccountManager (m_accounts m) (m_currentIndex m) (m_configPath m) (m_settings m)
                   (m_initialized m) (m_softLimitEnabled m) (m_softLimitThreshold m)
                   (m_tokenCache m) (m_projectCache m) = m.
Proof. by destruct m. Qed.

(** X25.  [checkAndUpdateSoftLimit] leaves the manager untouched, triggers no
    save and reports "not soft-limited" whenever soft limits are disabled,
    the quota probe failed, the probe has no quota for the model, or the
    quota's fraction is null; a null fraction never reaches
    [updateSoftLimitStatus].  In every case it changes neither cursor,
    settings nor threshold, keeps every account's identity, validity and hard
    limits, triggers [saveToDisk] at most once, and changes nothing without
    triggering it. *)
Theorem checkAndUpdateSoftLimit_is_guarded
    (Date_getTime : string -> option Z) (probe : option (gmap string Quota))
    (account : Account) (modelId : option string) (mgr : AccountManager) (now : Z) :
  let r := checkAndUpdateSoftLimit Date_getTime probe account modelId mgr now in
  (m_softLimitEnabled mgr = false \/ probe = None \/
   (exists quotas, probe = Some quotas /\
      (quotas !! propKey modelId = None \/
       exists q, quotas !! propKey modelId = Some q /\ q_remainingFraction q = None)) ->
   managerAfter r = mgr /\ diskSaves r = 0%nat /\
   chk_isSoftLimited (mret r) = false /\ chk_remainingFraction (mret r) = None) /\
  (checked (mret r) = false <-> m_softLimitEnabled mgr = false \/ probe = None) /\
  sameHardState (m_accounts (managerAfter r)) (m_accounts mgr) /\
  m_currentIndex (managerAfter r) = m_currentIndex mgr /\
  m_settings (managerAfter r) = m_settings mgr /\
  m_softLimitEnabled (managerAfter r) = m_softLimitEnabled mgr /\
  m_softLimitThreshold (managerAfter r) = m_softLimitThreshold mgr /\
  (diskSaves r = 0%nat -> managerAfter r = mgr) /\
  (diskSaves r <= 1)%nat.
Proof.
  intros r. subst r. unfold checkAndUpdateSoftLimit.
  destruct (m_softLimitEnabled mgr) eqn:Hen; cbn [negb];
    [|cbn [mret managerAfter diskSaves checked chk_isSoftLimited chk_remainingFraction];
      repeat split; auto using sameHardState_refl; lia].
  destruct probe as [quotas|];
    [|cbn [mret managerAfter diskSaves checked chk_isSoftLimited chk_remainingFraction];
      repeat split; auto using sameHardState_refl; lia].
  destruct (quotas !! propKey modelId) as [quota|] eqn:Hq.
  2:{ cbn [mret managerAfter diskSaves checked chk_isSoftLimited chk_remainingFraction].
      repeat split; auto using sameHardState_refl; try lia; try discriminate.
      intros [H | H]; discriminate. }
  destruct (q_remainingFraction quota) as [fraction|] eqn:Hf.
  2:{ cbn [mret managerAfter diskSaves checked chk_isSoftLimited chk_remainingFraction].
      repeat split; auto using sameHardState_refl; try lia; try discriminate.
      intros [H | H]; discriminate. }
  unfold Manager.updateSoftLimitStatus.
  cbn [mret managerAfter diskSaves checked chk_isSoftLimited chk_remainingFraction
       set_accounts m_accounts m_currentIndex m_settings m_softLimitEnabled
       m_softLimitThreshold].
  split.
  { intros [H | [H | (qs & [= <-] & [H | (q & Hq' & Hn)])]]; try discriminate; congruence. }
  split; [split; [discriminate | intros [H | H]; discriminate]|].
  split; [apply updateSoftLimitStatus_sameHardState|].
  repeat split; auto.
  - destruct (changed _) eqn:Hc; [discriminate|]. intros _.
    rewrite (updateSoftLimitStatus_unchanged _ _ _ _ _ _ _ _ Hc).
    unfold set_accounts. apply manager_eta.
  - destruct (changed _); lia.
Qed.

Lemma checkAndUpdateSoftLimit_is_guarded_witness :
  managerAfter
    (checkAndUpdateSoftLimit (fun _ => None) None (softLimitedAccount "A" "m" 0) (Some "m")
       (mkAccountManager [softLimitedAccount "A" "m" 0] 0 "accounts.json" (mkSettings None)
                         true true (1 # 5) ∅ ∅) 1000)
  = mkAccountManager [softLimitedAccount "A" "m" 0] 0 "accounts.json" (mkSettings None)
                     true true (1 # 5) ∅ ∅.
Proof.
  refine (proj1 (proj1 (checkAndUpdateSoftLimit_is_guarded (fun _ => None) None
                          (softLimitedAccount "A" "m" 0) (Some "m")
                          (mkAccountManager [softLimitedAccount "A" "m" 0] 0 "accounts.json"
                                            (mkSettings None) true true (1 # 5) ∅ ∅) 1000) _)).
  right. left. reflexivity.
Defined.

(** X26.  [getModelQuotas] keeps exactly the models of a supported family
    that carry quota information, with their fraction and reset time; a
    missing response or a response without models gives the empty map.
    Fed to [checkAndUpdateSoftLimit], such a probe never changes the manager
    for a model outside the supported families. *)
Theorem getModelQuotas_keeps_supported
    (getModelFamily : string -> string) (Date_getTime : string -> option Z)
    (data : option ModelsResponse) :
  (forall k q,
      getModelQuotas getModelFamily data !! k = Some q <->
      exists d ms md info,
        data = Some d /\ models d = Some ms /\ ms !! k = Some md /\
        isSupportedModel getModelFamily k = true /\
        quotaInfo md = Some info /\
        q = mkQuota (qi_remainingFraction info) (qi_resetTime info)) /\
  (data = None \/ (exists d, data = Some d /\ models d = None) ->
   getModelQuotas getModelFamily data = ∅) /\
  (forall account m mgr now,
      isSupportedModel getModelFamily m = false ->
      managerAfter (checkAndUpdateSoftLimit Date_getTime
                      (Some (getModelQuotas getModelFamily data)) account (Some m) mgr now)
      = mgr).
Proof.
  assert (Hlook : forall k q,
    getModelQuotas getModelFamily data !! k = Some q <->
    exists d ms md info,
      data = Some d /\ models d = Some ms /\ ms !! k = Some md /\
      isSupportedModel getModelFamily k = true /\
      quotaInfo md = Some info /\
      q = mkQuota (qi_remainingFraction info) (qi_resetTime info)).
  { intros k q. unfold getModelQuotas. destruct data as [d|].
    - destruct (models d) as [ms|] eqn:Hms.
      + rewrite map_lookup_imap. unfold quotaOf. simpl.
        destruct (ms !! k) as [md|] eqn:Hk; simpl.
        * destruct (isSupportedModel getModelFamily k) eqn:Hs; simpl.
          -- destruct (quotaInfo md) as [info|] eqn:Hi.
             ++ split.
                ** intros [= <-]. exists d, ms, md, info. repeat split; auto.
                ** intros (d' & ms' & md' & info' & [= <-] & Hm & Hk' & _ & Hi' & ->).
                   rewrite Hms in Hm. injection Hm as <-.
                   rewrite Hk in Hk'. injection Hk' as <-.
                   rewrite Hi in Hi'. injection Hi' as <-. reflexivity.
             ++ split; [discriminate|].
                intros (d' & ms' & md' & info' & [= <-] & Hm & Hk' & _ & Hi' & _).
                rewrite Hms in Hm. injection Hm as <-.
                rewrite Hk in Hk'. injection Hk' as <-. congruence.
          -- split; [discriminate|].
             intros (d' & ms' & md' & info' & _ & _ & _ & Hs' & _). congruence.
        * split; [discriminate|].
          intros (d' & ms' & md' & info' & [= <-] & Hm & Hk' & _).
          rewrite Hms in Hm. injection Hm as <-. congruence.
      + rewrite lookup_empty. split; [discriminate|].
        intros (d' & ms' & md' & info' & [= <-] & Hm & _). congruence.
    - rewrite lookup_empty. split; [discriminate|].
      intros (d' & ms' & md' & info' & [=] & _). }
  split; [exact Hlook|]. split.
  - intros [-> | (d & -> & Hd)]; [reflexivity|]. unfold getModelQuotas. by rewrite Hd.
  - intros account m mgr now Hs. unfold checkAndUpdateSoftLimit.
    destruct (negb (m_softLimitEnabled mgr)); [reflexivity|].
    destruct (getModelQuotas getModelFamily data !! propKey (Some m)) as [q|] eqn:Hq;
      [|reflexivity].
    exfalso. apply Hlook in Hq as (d & ms & md & info & _ & _ & _ & Hs' & _).
    simpl in Hs'. congruence.
Qed.

(** ** Selection without soft limits *)

Lemma sameHardState_lookup l1 l2 modelId now j :
  sameHardState l1 l2 ->
  isAccountUsable (l1 !! j) modelId now = isAccountUsable (l2 !! j) modelId now /\
  (identityOf <$> l1 !! j) = (identityOf <$> l2 !! j).
Proof.
  intros [Hid Hrl].
  assert (H1 : (identityOf <$> l1 !! j) = (identityOf <$> l2 !! j)).
  { rewrite <- !lookup_map. by rewrite Hid. }
  assert (H2 : (modelRateLimits <$> l1 !! j) = (modelRateLimits <$> l2 !! j)).
  { rewrite <- !lookup_map. by rewrite Hrl. }
  split; [|exact H1].
  destruct (l1 !! j) as [a|], (l2 !! j) as [b|]; simpl in *; try discriminate; [|reflexivity].
  injection H1 as H1. injection H2 as H2.
  rewrite (hardLimited_same a b modelId now H2).
  assert (isInvalid a = isInvalid b) as -> by (unfold identityOf in H1; congruence).
  reflexivity.
Qed.

(** X27.  With soft limits disabled [pickNext] does not depend on soft-limit
    state: on two account arrays that agree on identity, validity and hard
    limits it returns the same cursor and an account with the same identity,
    or no account on both. *)
Theorem pickNext_disabled_ignores_soft_limits
    (SOFT_LIMIT_THRESHOLD : Q) (l1 l2 : list Account) (currentIndex : nat) (onSave : bool)
    (modelId : option string) (now : Z) :
  sameHardState l1 l2 ->
  sel_newIndex (ret (pickNext SOFT_LIMIT_THRESHOLD l1 currentIndex onSave modelId false now))
  = sel_newIndex (ret (pickNext SOFT_LIMIT_THRESHOLD l2 currentIndex onSave modelId false now)) /\
  (identityOf <$>
     sel_account (ret (pickNext SOFT_LIMIT_THRESHOLD l1 currentIndex onSave modelId false now)))
  = (identityOf <$>
     sel_account (ret (pickNext SOFT_LIMIT_THRESHOLD l2 currentIndex onSave modelId false now))).
Proof.
  intros H.
  pose proof (sameHardState_length _ _ H) as Hlen.
  pose proof (sameHardState_available l1 l2 modelId now H) as Hav.
  assert (Hidx : clampIndex l1 currentIndex = clampIndex l2 currentIndex)
    by (unfold clampIndex; by rewrite Hlen).
  destruct (pickNext_cases SOFT_LIMIT_THRESHOLD now modelId l1 currentIndex onSave false)
    as [[Hn1 ->] | (Hs1 & i1 & b1 & Hi1 & Hb1 & Hw1 & Hm1 & ->)];
  destruct (pickNext_cases SOFT_LIMIT_THRESHOLD now modelId l2 currentIndex onSave false)
    as [[Hn2 ->] | (Hs2 & i2 & b2 & Hi2 & Hb2 & Hw2 & Hm2 & ->)];
    cbn [ret sel_account sel_newIndex].
  - split; reflexivity.
  - exfalso. rewrite Hn1 in Hav. destruct (getAvailableAccounts l2 modelId now); [done|].
    discriminate.
  - exfalso. rewrite Hn2 in Hav. destruct (getAvailableAccounts l1 modelId now); [done|].
    discriminate.
  - unfold wanted in *. cbn [andb] in *.
    rewrite Hidx, Hlen in *.
    assert (Hsame : forall j,
              isAccountUsable (l1 !! j) modelId now = isAccountUsable (l2 !! j) modelId now).
    { intros j. by apply sameHardState_lookup. }
    assert (Hi : i1 = i2).
    { destruct (lt_eq_lt_dec i1 i2) as [[Hlt | Heq] | Hgt]; [|exact Heq|]; exfalso.
      - specialize (Hm2 i1 ltac:(lia)). rewrite <- Hsame, Hb1 in Hm2. congruence.
      - specialize (Hm1 i2 ltac:(lia)). rewrite Hsame, Hb2 in Hm1. congruence. }
    subst i2. split; [reflexivity|].
    change (Some (identityOf (swept now b1)) = Some (identityOf (swept now b2))).
    f_equal. rewrite !identityOf_swept.
    destruct (sameHardState_lookup l1 l2 modelId now
                ((clampIndex l2 currentIndex + i1) mod length l2)%nat H) as [_ Hid].
    rewrite Hb1, Hb2 in Hid. simpl in Hid. congruence.
Qed.

Lemma pickNext_disabled_ignores_soft_limits_witness :
  sel_newIndex (ret (pickNext (1 # 5) [freshAccount "A"; freshAccount "B"] 0 true (Some "m")
                              false 1000))
  = sel_newIndex (ret (pickNext (1 # 5) [freshAccount "A"; softLimitedAccount "B" "m" 0] 0 true
                                (Some "m") false 1000)).
Proof.
  apply (pickNext_disabled_ignores_soft_limits (1 # 5)
           [freshAccount "A"; freshAccount "B"] [freshAccount "A"; softLimitedAccount "B" "m" 0]
           0%nat true (Some "m") 1000).
  split; reflexivity.
Defined.
